(** * The SQL statement splitter of [deploy_schemas.py]

    A shallow embedding of [SchemaDeployer._split_sql_statements]
    (src/deploy_schemas.py, lines 200-260) and the properties its
    specification states about it.

    Python [str] values are modelled as lists of characters.  A character is
    a code point below 256, carried by the type [ascii]; the library
    operations the function calls ([str.upper], [str.strip],
    [str.splitlines], [str.endswith], [re.sub]) are modelled with the
    behaviour CPython gives them on such code points. *)

From Stdlib Require Import List Ascii String NArith Bool Arith Lia.
From Stdlib Require Import Sorting.Permutation Sorting.Sorted.
Import ListNotations.

Open Scope char_scope.
Open Scope list_scope.

(** ** Text *)

Definition text := list ascii.

(** [txt] turns a literal into a text. *)
Definition txt (s : string) : text := list_ascii_of_string s.

Definition LF : ascii := ascii_of_nat 10.
Definition DQUOTE : ascii := ascii_of_nat 34.

Module Str.

(** Code points of a text. *)
Definition codes (s : text) : list N := map N_of_ascii s.

(** [str.upper] on one character: the full upper-case mapping of the code
    points below 256.  SHARP S (223) becomes the two letters SS, MICRO SIGN
    (181) and Y WITH DIAERESIS (255) leave the range. *)
Definition upper_char (c : ascii) : list N :=
  let n := N_of_ascii c in
  if ((97 <=? n) && (n <=? 122))%N then [(n - 32)%N]
  else if (n =? 181)%N then [924%N]
  else if (n =? 223)%N then [83%N; 83%N]
  else if ((224 <=? n) && (n <=? 254) && negb (n =? 247))%N then [(n - 32)%N]
  else if (n =? 255)%N then [376%N]
  else [n].

(** [s.upper()], as a sequence of code points. *)
Definition upper (s : text) : list N := flat_map upper_char s.

Fixpoint eqb_codes (a b : list N) : bool :=
  match a, b with
  | [], [] => true
  | x :: a', y :: b' => (x =? y)%N && eqb_codes a' b'
  | _, _ => false
  end.

Fixpoint starts_with (p s : list N) : bool :=
  match p, s with
  | [], _ => true
  | x :: p', y :: s' => (x =? y)%N && starts_with p' s'
  | _ :: _, [] => false
  end.

(** [p in s] for strings: [p] occurs in [s] as a contiguous run. *)
Fixpoint contains (p s : list N) : bool :=
  starts_with p s ||
  match s with
  | [] => false
  | _ :: s' => contains p s'
  end.

(** [str.isspace] on one character: what [str.strip()] removes. *)
Definition is_space (c : ascii) : bool :=
  let n := N_of_ascii c in
  ((9 <=? n) && (n <=? 13) || (28 <=? n) && (n <=? 32)
   || (n =? 133) || (n =? 160))%N.

Fixpoint lstrip (s : text) : text :=
  match s with
  | [] => []
  | c :: s' => if is_space c then lstrip s' else s
  end.

Definition rstrip (s : text) : text := rev (lstrip (rev s)).

(** [s.strip()] *)
Definition strip (s : text) : text := rstrip (lstrip s).

(** Truth value of a string: it is not empty. *)
Definition truthy (s : text) : bool :=
  match s with
  | [] => false
  | _ :: _ => true
  end.

(** [s.endswith(c)] for a one-character suffix. *)
Definition endswith (s : text) (c : ascii) : bool :=
  match rev s with
  | [] => false
  | d :: _ => Ascii.eqb d c
  end.

(** The characters [str.splitlines] breaks lines at, CR LF apart. *)
Definition is_linebreak (c : ascii) : bool :=
  let n := N_of_ascii c in
  ((10 <=? n) && (n <=? 13) || (28 <=? n) && (n <=? 30) || (n =? 133))%N.

(** [s.splitlines()]: [line] holds the current line, reversed. *)
Fixpoint splitlines_from (line : text) (s : text) : list text :=
  match s with
  | [] =>
      match line with
      | [] => []
      | _ :: _ => [rev line]
      end
  | c :: s' =>
      if is_linebreak c then
        match s' with
        | d :: s'' =>
            if Ascii.eqb c (ascii_of_nat 13) && Ascii.eqb d LF
            then rev line :: splitlines_from [] s''
            else rev line :: splitlines_from [] s'
        | [] => rev line :: splitlines_from [] s'
        end
      else splitlines_from (c :: line) s'
  end.

Definition splitlines (s : text) : list text := splitlines_from [] s.

(** [sep.join(parts)] *)
Fixpoint join (sep : text) (parts : list text) : text :=
  match parts with
  | [] => []
  | [p] => p
  | p :: ps => p ++ sep ++ join sep ps
  end.

End Str.

(** ** The character scan (lines 218-257) *)

(** The loop's local variables. *)
Record ScanState : Type := {
  statements : list text;
  current : text;
  in_string : bool;
  in_tblproperties : bool;
  string_delimiter : option ascii
}.

Definition initial : ScanState :=
  {| statements := []; current := []; in_string := false;
     in_tblproperties := false; string_delimiter := None |}.

Definition TBLPROPERTIES : text := txt "TBLPROPERTIES".

(** [sql_content[i:i+13].upper() == 'TBLPROPERTIES'], on the suffix
    [sql_content[i:]]. *)
Definition at_tblproperties (suffix : text) : bool :=
  Str.eqb_codes (Str.upper (firstn 13 suffix)) (Str.codes TBLPROPERTIES).

(** The test that [char] is one of the three quote characters: apostrophe,
    double quote, backtick. *)
Definition is_quote (char : ascii) : bool :=
  Ascii.eqb char "'" || Ascii.eqb char DQUOTE || Ascii.eqb char "`".

(** [char == string_delimiter] *)
Definition is_delimiter (char : ascii) (d : option ascii) : bool :=
  match d with
  | Some q => Ascii.eqb char q
  | None => false
  end.

(** [stmt = current.strip(); if stmt: statements.append(stmt)] *)
Definition append_stripped (stmts : list text) (cur : text) : list text :=
  let stmt := Str.strip cur in
  if Str.truthy stmt then stmts ++ [stmt] else stmts.

(** One iteration of the loop at character [char], where [rest] is the text
    after it ([sql_content[i+1:]]). *)
Definition step (st : ScanState) (char : ascii) (rest : text) : ScanState :=
  let tbl := at_tblproperties (char :: rest) || in_tblproperties st in
  if is_quote char && negb (in_string st) && negb tbl then
    {| statements := statements st;
       current := current st ++ [char];
       in_string := true;
       in_tblproperties := tbl;
       string_delimiter := Some char |}
  else if is_delimiter char (string_delimiter st) && in_string st && negb tbl then
    {| statements := statements st;
       current := current st ++ [char];
       in_string := false;
       in_tblproperties := tbl;
       string_delimiter := string_delimiter st |}
  else if Ascii.eqb char ";" && negb (in_string st) && negb tbl then
    {| statements := append_stripped (statements st) (current st);
       current := [];
       in_string := in_string st;
       in_tblproperties := tbl;
       string_delimiter := string_delimiter st |}
  else if Ascii.eqb char ")" && tbl then
    {| statements := append_stripped (statements st) (current st ++ [char]);
       current := [];
       in_string := in_string st;
       in_tblproperties := false;
       string_delimiter := string_delimiter st |}
  else
    {| statements := statements st;
       current := current st ++ [char];
       in_string := in_string st;
       in_tblproperties := tbl;
       string_delimiter := string_delimiter st |}.

(** The loop over the characters of [s], which are followed in the text by
    [after]: [run st s after] is the state once [s] is consumed. *)
Fixpoint run (st : ScanState) (s after : text) : ScanState :=
  match s with
  | [] => st
  | char :: s' => run (step st char (s' ++ after)) s' after
  end.

(** Lines 255-257: what is left in the buffer is the last statement. *)
Definition flush (st : ScanState) : list text :=
  append_stripped (statements st) (current st).

(** Line 260. *)
Definition terminate (s : text) : text :=
  if negb (Str.endswith s ";") then s ++ [";"] else s.

Definition finish (stmts : list text) : list text :=
  map terminate (filter (fun s => Str.truthy (Str.strip s)) stmts).

(** Lines 218-260 on a text whose comments are already processed. *)
Definition split_scanned (sql_content : text) : list text :=
  finish (flush (run initial sql_content [])).

(** ** Comment processing (lines 202-215) *)

Module Re.

(** A pattern is given by what matching it at the start of a text yields:
    the matched text and the text after the match. *)
Definition pattern := text -> option (text * text).

(** [re.sub(pattern, repl, s)] for a pattern with no empty match: scan from
    the left, replace each match by [repl] of it and go on after the match;
    a character where no match starts is copied. *)
Fixpoint sub_fuel (fuel : nat) (p : pattern) (repl : text -> text)
         (s : text) : text :=
  match fuel with
  | 0 => s
  | S fuel' =>
      match p s with
      | Some (m, rest) => repl m ++ sub_fuel fuel' p repl rest
      | None =>
          match s with
          | [] => []
          | c :: s' => c :: sub_fuel fuel' p repl s'
          end
      end
  end.

Definition sub (p : pattern) (repl : text -> text) (s : text) : text :=
  sub_fuel (List.length s) p repl s.

End Re.

(** The shortest run of characters other than a line feed that ends where
    [$] holds in MULTILINE mode: before a line feed or at the end. *)
Fixpoint until_eol (s : text) : text * text :=
  match s with
  | [] => ([], [])
  | c :: s' =>
      if Ascii.eqb c LF then ([], s)
      else let (m, r) := until_eol s' in (c :: m, r)
  end.

(** The pattern of line 203, two hyphens up to the end of the line. *)
Definition line_comment : Re.pattern := fun s =>
  match s with
  | c :: d :: s' =>
      if Ascii.eqb c "-" && Ascii.eqb d "-"
      then let (m, r) := until_eol s' in Some (c :: d :: m, r)
      else None
  | _ => None
  end.

(** The shortest run of any characters (DOTALL) followed by star slash. *)
Fixpoint until_close (s : text) : option (text * text) :=
  match s with
  | [] => None
  | c :: s' =>
      match s' with
      | d :: r =>
          if Ascii.eqb c "*" && Ascii.eqb d "/" then Some ([c; d], r)
          else match until_close s' with
               | Some (m, r') => Some (c :: m, r')
               | None => None
               end
      | [] => None
      end
  end.

(** The pattern of line 212, slash star up to the first star slash. *)
Definition block_comment : Re.pattern := fun s =>
  match s with
  | c :: d :: s' =>
      if Ascii.eqb c "/" && Ascii.eqb d "*"
      then match until_close s' with
           | Some (m, r) => Some (c :: d :: m, r)
           | None => None
           end
      else None
  | _ => None
  end.

Definition protected_markers : list text :=
  [txt "TBLPROPERTIES"; txt "CREATE "; txt "SCHEMA "].

(** The callback of lines 206-210, on the matched text. *)
Definition remove_comments (content : text) : text :=
  if existsb (fun x => Str.contains (Str.codes x) (Str.upper content))
             protected_markers
  then content else [].

Definition remove_line_comments (sql_content : text) : text :=
  Re.sub line_comment (fun _ => []) sql_content.

Definition remove_block_comments (sql_content : text) : text :=
  Re.sub block_comment remove_comments sql_content.

(** Line 215. *)
Definition normalize_whitespace (sql_content : text) : text :=
  Str.join [LF]
    (map Str.strip
       (filter (fun line => Str.truthy (Str.strip line))
          (Str.splitlines sql_content))).

Definition strip_comments (sql_content : text) : text :=
  normalize_whitespace (remove_block_comments (remove_line_comments sql_content)).

(** The whole function. *)
Definition _split_sql_statements (sql_content : text) : list text :=
  split_scanned (strip_comments sql_content).

(** ** Notions the specification uses *)

(** What an iteration does with the buffer: it appends the character, it
    splits at a semicolon, or it closes a TBLPROPERTIES region. *)
Inductive action : Type := Append | Split | Close.

Definition action_of (st : ScanState) (char : ascii) (rest : text) : action :=
  let tbl := at_tblproperties (char :: rest) || in_tblproperties st in
  if is_quote char && negb (in_string st) && negb tbl then Append
  else if is_delimiter char (string_delimiter st) && in_string st && negb tbl
  then Append
  else if Ascii.eqb char ";" && negb (in_string st) && negb tbl then Split
  else if Ascii.eqb char ")" && tbl then Close
  else Append.

(** The region flag as the branches of an iteration see it. *)
Definition region_active (st : ScanState) (char : ascii) (rest : text) : bool :=
  at_tblproperties (char :: rest) || in_tblproperties st.

(** A semicolon scanned outside quoted regions and outside TBLPROPERTIES
    regions. *)
Definition top_level_semicolon (st : ScanState) (char : ascii) (rest : text)
  : bool :=
  Ascii.eqb char ";" && negb (in_string st) && negb (region_active st char rest).

(** A closing parenthesis scanned inside a TBLPROPERTIES region. *)
Definition region_closure (st : ScanState) (char : ascii) (rest : text) : bool :=
  Ascii.eqb char ")" && region_active st char rest.

(** [count_steps p st s after]: the number of iterations of the loop over [s]
    at which [p] holds of the state, the character and the text after it. *)
Fixpoint count_steps (p : ScanState -> ascii -> text -> bool)
         (st : ScanState) (s after : text) : nat :=
  match s with
  | [] => 0
  | char :: s' =>
      (if p st char (s' ++ after) then 1 else 0)
      + count_steps p (step st char (s' ++ after)) s' after
  end.

(** [all_steps p st s after]: [p] holds at every iteration. *)
Fixpoint all_steps (p : ScanState -> ascii -> text -> bool)
         (st : ScanState) (s after : text) : bool :=
  match s with
  | [] => true
  | char :: s' =>
      p st char (s' ++ after)
      && all_steps p (step st char (s' ++ after)) s' after
  end.

Definition blank (s : text) : bool := negb (Str.truthy (Str.strip s)).

(** A top-level semicolon whose buffer holds more than white space. *)
Definition effective_semicolon (st : ScanState) (char : ascii) (rest : text)
  : bool :=
  top_level_semicolon st char rest && negb (blank (current st)).

(** Trailing content: the buffer is not blank when the scan ends. *)
Definition trailing (st : ScanState) : nat :=
  if blank (current st) then 0 else 1.

(** No TBLPROPERTIES region is closed inside an open quoted literal. *)
Definition closes_outside_quotes (st : ScanState) (char : ascii) (rest : text)
  : bool :=
  negb (region_closure st char rest && in_string st).

(** The last character is a semicolon and the one before it is not. *)
Definition ends_in_one_semicolon (s : text) : bool :=
  match rev s with
  | c :: [] => Ascii.eqb c ";"
  | c :: d :: _ => Ascii.eqb c ";" && negb (Ascii.eqb d ";")
  | [] => false
  end.

(** The state carries a quote character as delimiter while in a literal. *)
Definition delimiter_ok (st : ScanState) : Prop :=
  in_string st = true ->
  exists q, string_delimiter st = Some q /\ is_quote q = true.

(** Two states in which the scan takes the same branches: the flags agree,
    and so does the delimiter where it is consulted. *)
Definition same_control (st st' : ScanState) : Prop :=
  in_string st = in_string st' /\
  in_tblproperties st = in_tblproperties st' /\
  (in_string st = true -> string_delimiter st = string_delimiter st').

(** An upper- or lower-case letter of the basic alphabet. *)
Definition is_letter (c : ascii) : bool :=
  let n := N_of_ascii c in
  ((65 <=? n) && (n <=? 90) || (97 <=? n) && (n <=? 122))%N.

(** A text that does not begin with a letter. *)
Definition no_letter_ahead (s : text) : Prop :=
  match s with
  | [] => True
  | c :: _ => is_letter c = false
  end.

(** ** Notions used in the proofs *)

(** No capital S twice in a row, by code point. *)
Fixpoint no_double_s (kw : list N) : bool :=
  match kw with
  | a :: (b :: _) as t => negb ((a =? 83) && (b =? 83))%N && no_double_s t
  | _ => true
  end.

(** No suffix of the text begins with the keyword. *)
Fixpoint keyword_free (s : text) : bool :=
  match s with
  | [] => true
  | _ :: s' => negb (at_tblproperties s) && keyword_free s'
  end.

(** What every statement in the list of the loop satisfies. *)
Definition stripped (s : text) : Prop := Str.strip s = s /\ s <> [].

(** [s.startswith(p)] *)
Fixpoint prefix (p s : text) : bool :=
  match p, s with
  | [], _ => true
  | x :: p', y :: s' => Ascii.eqb x y && prefix p' s'
  | _ :: _, [] => false
  end.

(** [p in s]: [p] occurs in [s] as a contiguous run of characters. *)
Fixpoint occurs_in (p s : text) : bool :=
  prefix p s ||
  match s with
  | [] => false
  | _ :: s' => occurs_in p s'
  end.

(** A pattern whose matches are non-empty prefixes of the text. *)
Definition consumes (p : Re.pattern) : Prop :=
  forall s m r, p s = Some (m, r) -> s = m ++ r /\ m <> [].

(** The test of line 208 on the matched text. *)
Definition protected (content : text) : bool :=
  existsb (fun x => Str.contains (Str.codes x) (Str.upper content))
          protected_markers.

(** The text begins with a hyphen. *)
Definition hyphen_ahead (s : text) : bool :=
  match s with
  | [] => false
  | c :: _ => Ascii.eqb "-" c
  end.

(** An iteration that only appends to the buffer. *)
Definition quiet (st : ScanState) (char : ascii) (rest : text) : bool :=
  match action_of st char rest with
  | Append => true
  | _ => false
  end.

(** The state with its list of statements replaced. *)
Definition with_statements (l : list text) (st : ScanState) : ScanState :=
  {| statements := l;
     current := current st;
     in_string := in_string st;
     in_tblproperties := in_tblproperties st;
     string_delimiter := string_delimiter st |}.

(** Two states the loop cannot tell apart. *)
Definition similar (st st' : ScanState) : Prop :=
  statements st = statements st' /\ current st = current st' /\
  same_control st st'.

(** The state between two statements. *)
Definition boundary (st : ScanState) : Prop :=
  current st = [] /\ in_string st = false /\ in_tblproperties st = false.

(** A buffer that ends with a semicolon, white space apart, can only be met
    inside a literal or a region. *)
Definition semicolon_guarded (st : ScanState) : Prop :=
  Str.endswith (Str.strip (current st)) ";" = true ->
  in_string st = true \/ in_tblproperties st = true.

(** ** The order of the files (lines 262-282) *)

(** [str.lower] on one character below 256: no character leaves the range
    and none becomes two. *)
Definition lower_char (c : ascii) : ascii :=
  let n := N_of_ascii c in
  if ((65 <=? n) && (n <=? 90)
      || (192 <=? n) && (n <=? 222) && negb (n =? 215))%N
  then ascii_of_N (n + 32) else c.

(** [s.lower()] *)
Definition lower (s : text) : text := map lower_char s.

(** [s.endswith(suffix)] *)
Definition ends_with (s suffix : text) : bool := prefix (rev suffix) (rev s).

Definition priority_order : list text :=
  [txt "dim_"; txt "fact_"; txt "silver_"; txt "gold_"].

(** The loop of [get_priority] over the patterns that are left, [i] being
    the index of the first of them. *)
Fixpoint first_pattern (patterns : list text) (i : nat) (filename : text) : nat :=
  match patterns with
  | [] => i
  | pattern :: patterns' =>
      if occurs_in (lower pattern) (lower filename) then i
      else first_pattern patterns' (S i) filename
  end.

Definition get_priority (filename : text) : nat :=
  first_pattern priority_order 0 filename.

(** [sorted(l, key=key)]: the sort is stable, and a stable sort has one
    result, the one of inserting each element before the first element of
    what follows it whose key is not smaller. *)
Fixpoint insert_by (key : text -> nat) (x : text) (l : list text) : list text :=
  match l with
  | [] => [x]
  | y :: l' => if (key x <=? key y)%nat then x :: l else y :: insert_by key x l'
  end.

Definition sorted (key : text -> nat) (l : list text) : list text :=
  fold_right (insert_by key) [] l.

(** [get_sql_files], on what [os.listdir(schema_dir)] returns. *)
Definition get_sql_files (listing : list text) : list text :=
  sorted get_priority (filter (fun f => ends_with f (txt ".sql")) listing).

(** The elements of [l] whose key is [i], in the order of [l]. *)
Definition with_key (key : text -> nat) (l : list text) (i : nat) : list text :=
  filter (fun f => (key f =? i)%nat) l.

(** [f] comes before [g] in [l]. *)
Definition precedes (f g : text) (l : list text) : Prop :=
  exists a b c, l = a ++ f :: b ++ g :: c.

(** The texts of a list are pieces of [s] that follow each other in [s] in
    the order of the list, without overlapping. *)
Inductive in_order : list text -> text -> Prop :=
| in_order_nil : forall s, in_order [] s
| in_order_cons : forall t l a b, in_order l b -> in_order (t :: l) (a ++ t ++ b).

(** A text without any of the characters lines are broken at. *)
Definition no_linebreak (s : text) : Prop :=
  Forall (fun c => Str.is_linebreak c = false) s.

(** The lines line 215 joins. *)
Definition normalized_lines (sql_content : text) : list text :=
  map Str.strip
    (filter (fun line => Str.truthy (Str.strip line))
       (Str.splitlines sql_content)).

(** ** The warehouse (lines 59-140 and 182-194)

    The connection of the [databricks] client is not part of the module.
    It is taken as a warehouse: a state and the four calls the module makes
    on it, each of which may raise.  [logger] calls are left out. *)

(** An exception: whether it is a [DatabricksError], and [str(e)]. *)
Record exn : Type := {
  is_databricks_error : bool;
  message : text
}.

Record Warehouse (W : Type) : Type := {
  (** [self.connection.cursor()] *)
  cursor : W -> W * option exn;
  (** [cursor.execute(sql)] *)
  execute : text -> W -> W * option exn;
  (** [cursor.fetchone()], with the truth value of the row *)
  fetchone : W -> W * (exn + bool);
  (** leaving the [with] block closes the cursor *)
  close : W -> W * option exn
}.

Arguments cursor {W}.
Arguments execute {W}.
Arguments fetchone {W}.
Arguments close {W}.

(** Code that works on the warehouse and returns or raises. *)
Definition M (W A : Type) : Type := W -> W * (exn + A).

Definition ret {W A : Type} (a : A) : M W A := fun w => (w, inr a).

Definition raise {W A : Type} (e : exn) : M W A := fun w => (w, inl e).

Definition bind {W A B : Type} (m : M W A) (k : A -> M W B) : M W B :=
  fun w =>
    match m w with
    | (w', inl e) => (w', inl e)
    | (w', inr a) => k a w'
    end.

(** [try: m except Exception as e: h e] *)
Definition catch {W A : Type} (m : M W A) (h : exn -> M W A) : M W A :=
  fun w =>
    match m w with
    | (w', inl e) => h e w'
    | (w', inr a) => (w', inr a)
    end.

Notation "x <- m ;; k" := (bind m (fun x => k))
  (at level 61, m at next level, right associativity).
Notation "m ;; k" := (bind m (fun _ => k))
  (at level 61, right associativity).

(** A call that returns nothing. *)
Definition call {W : Type} (f : W -> W * option exn) : M W unit :=
  fun w =>
    match f w with
    | (w', Some e) => (w', inl e)
    | (w', None) => (w', inr tt)
    end.

(** [with self.connection.cursor() as cursor: body]: the cursor is closed
    however the body ends, and an exception of the closing replaces what
    the body gave. *)
Definition with_cursor {W A : Type} (wh : Warehouse W) (body : M W A) : M W A :=
  fun w =>
    match cursor wh w with
    | (w1, Some e) => (w1, inl e)
    | (w1, None) =>
        let (w2, r) := body w1 in
        match close wh w2 with
        | (w3, Some e) => (w3, inl e)
        | (w3, None) => (w3, r)
        end
    end.

Definition indent8 : text := txt "        ".
Definition indent20 : text := txt "                    ".

Definition check_catalog_sql (catalog : text) : text :=
  [LF] ++ indent8 ++ txt "SELECT 1 " ++
  [LF] ++ indent8 ++ txt "FROM system.information_schema.catalogs " ++
  [LF] ++ indent8 ++ txt "WHERE catalog_name = '" ++ catalog ++ txt "'" ++
  [LF] ++ indent8.

Definition create_catalog_sql (catalog : text) : text :=
  [LF] ++ indent8 ++ txt "CREATE CATALOG IF NOT EXISTS `" ++ catalog ++ txt "`" ++
  [LF] ++ indent8.

Definition dbfs_location (catalog : text) : text :=
  txt "dbfs:/mnt/accelerated_operational_analytics/" ++ catalog.

Definition create_with_location (catalog : text) : text :=
  [LF] ++ indent20 ++ txt "CREATE CATALOG IF NOT EXISTS `" ++ catalog ++ txt "`" ++
  [LF] ++ indent20 ++ txt "MANAGED LOCATION '" ++ dbfs_location catalog ++ txt "'" ++
  [LF] ++ indent20.

(** The test of line 110 on [str(e)]. *)
Definition says_already_exists (e : exn) : bool :=
  occurs_in (txt "already exists") (lower (message e)).

(** Lines 59-115. *)
Definition _ensure_catalog_exists {W : Type} (wh : Warehouse W) (catalog : text)
  : M W unit :=
  catch
    (with_cursor wh
       (call (execute wh (check_catalog_sql catalog)) ;;
        row <- fetchone wh ;;
        if row : bool then ret tt
        else
          created <- catch (call (execute wh (create_catalog_sql catalog)) ;;
                            ret true)
                           (fun _ => ret false) ;;
          if created : bool then ret tt
          else
            catch (call (execute wh (create_with_location catalog)))
                  (fun _ => call (execute wh (create_catalog_sql catalog)))))
    (fun e => if says_already_exists e then ret tt else raise e).

Definition check_schema_sql (catalog schema : text) : text :=
  [LF] ++ indent8 ++ txt "SELECT 1 " ++
  [LF] ++ indent8 ++ txt "FROM system.information_schema.schemata " ++
  [LF] ++ indent8 ++ txt "WHERE catalog_name = '" ++ catalog ++
  txt "' AND schema_name = '" ++ schema ++ txt "'" ++
  [LF] ++ indent8.

Definition create_schema_sql (catalog schema : text) : text :=
  [LF] ++ indent8 ++ txt "CREATE SCHEMA IF NOT EXISTS `" ++ catalog ++
  txt "`.`" ++ schema ++ txt "`" ++
  [LF] ++ indent8.

(** Lines 117-140. *)
Definition _ensure_schema_exists {W : Type} (wh : Warehouse W)
           (catalog schema : text) : M W unit :=
  _ensure_catalog_exists wh catalog ;;
  catch
    (with_cursor wh
       (call (execute wh (check_schema_sql catalog schema)) ;;
        row <- fetchone wh ;;
        if negb row then call (execute wh (create_schema_sql catalog schema))
        else ret tt))
    (fun e => raise e).

(** The loop of lines 183-194 over the statements. *)
Fixpoint execute_each {W : Type} (wh : Warehouse W) (stmts : list text)
  : M W unit :=
  match stmts with
  | [] => ret tt
  | stmt :: stmts' =>
      if negb (Str.truthy (Str.strip stmt)) then execute_each wh stmts'
      else
        catch (call (execute wh stmt))
              (fun e => if is_databricks_error e then ret tt else raise e) ;;
        execute_each wh stmts'
  end.

(** Lines 179-198: the statements of a text are sent to the warehouse; an
    exception that is no [DatabricksError] is logged and raised again. *)
Definition execute_statements {W : Type} (wh : Warehouse W) (sql_content : text)
  : M W unit :=
  catch (with_cursor wh (execute_each wh (_split_sql_statements sql_content)))
        (fun e => raise e).

(** *** Watching the calls *)

Inductive event : Type :=
| Open_cursor
| Run (sql : text)
| Fetch
| Close_cursor.

(** The warehouse that also keeps the list of the calls made on it. *)
Definition recording {W : Type} (wh : Warehouse W) : Warehouse (W * list event) :=
  {| cursor := fun s => let (w', r) := cursor wh (fst s) in
                        ((w', snd s ++ [Open_cursor]), r);
     execute := fun sql s => let (w', r) := execute wh sql (fst s) in
                             ((w', snd s ++ [Run sql]), r);
     fetchone := fun s => let (w', r) := fetchone wh (fst s) in
                          ((w', snd s ++ [Fetch]), r);
     close := fun s => let (w', r) := close wh (fst s) in
                       ((w', snd s ++ [Close_cursor]), r) |}.

(** The statements executed, in a list of calls. *)
Fixpoint executed (log : list event) : list text :=
  match log with
  | [] => []
  | Run sql :: log' => sql :: executed log'
  | _ :: log' => executed log'
  end.

(** The calls made by [m] on the warehouse, from state [w]. *)
Definition calls {W A : Type} (m : M (W * list event) A) (w : W) : list event :=
  snd (fst (m (w, []))).

(** How [m] ends, from state [w]. *)
Definition outcome {W A : Type} (m : M (W * list event) A) (w : W) : exn + A :=
  snd (m (w, [])).

(** *** Warehouses to try the properties on *)

(** A warehouse that keeps what it executed, finds a row for every query
    and never raises. *)
Definition steady : Warehouse (list text) :=
  {| cursor := fun w => (w, None);
     execute := fun sql w => (w ++ [sql], None);
     fetchone := fun w => (w, inr true);
     close := fun w => (w, None) |}.

(** A warehouse that raises a [DatabricksError] on every statement that
    names the table [missing]. *)
Definition picky : Warehouse (list text) :=
  {| cursor := fun w => (w, None);
     execute := fun sql w =>
       (w ++ [sql],
        if occurs_in (txt "missing") sql
        then Some {| is_databricks_error := true;
                     message := txt "TABLE_OR_VIEW_NOT_FOUND" |}
        else None);
     fetchone := fun w => (w, inr false);
     close := fun w => (w, None) |}.

(** A warehouse without connection. *)
Definition unreachable : Warehouse unit :=
  {| cursor := fun w =>
       (w, Some {| is_databricks_error := false;
                   message := txt "connection lost" |});
     execute := fun _ w => (w, None);
     fetchone := fun w => (w, inr false);
     close := fun w => (w, None) |}.

(** ** Catalog references (lines 167-171) *)

(** The longest run of characters of [s] that satisfy [p], and the rest. *)
Fixpoint span (p : ascii -> bool) (s : text) : text * text :=
  match s with
  | [] => ([], [])
  | c :: s' =>
      if p c then let (a, b) := span p s' in (c :: a, b) else ([], s)
  end.

(** The pattern of line 171: a backtick, one or more characters that are no
    backtick, a backtick and a dot. *)
Definition backtick_reference : Re.pattern := fun s =>
  match s with
  | [] => None
  | c :: s1 =>
      if Ascii.eqb c "`" then
        let (name, s2) := span (fun d => negb (Ascii.eqb d "`")) s1 in
        match name, s2 with
        | _ :: _, q :: d :: r =>
            if Ascii.eqb q "`" && Ascii.eqb d "."
            then Some (c :: name ++ [q; d], r) else None
        | _, _ => None
        end
      else None
  end.

(** Line 171, the template standing for [replacement].  The template is the
    catalog between backticks and a dot; it stands for itself when the
    catalog holds no backslash, which is where this model applies. *)
Definition replace_references (replacement sql_content : text) : text :=
  Re.sub backtick_reference (fun _ => replacement) sql_content.

Definition catalog_reference (catalog : text) : text :=
  txt "`" ++ catalog ++ txt "`.".

(** ** Schema names (lines 142-159) *)

(** [re.findall(pattern, s)] for a pattern with one group and no empty
    match, given by what matching at the start of a text yields: the text of
    the group and the text after the match. *)
Fixpoint findall_fuel (fuel : nat) (p : Re.pattern) (s : text) : list text :=
  match fuel with
  | 0 => []
  | S fuel' =>
      match p s with
      | Some (group, rest) => group :: findall_fuel fuel' p rest
      | None =>
          match s with
          | [] => []
          | _ :: s' => findall_fuel fuel' p s'
          end
      end
  end.

Definition findall (p : Re.pattern) (s : text) : list text :=
  findall_fuel (List.length s) p s.

(** The class [[a-zA-Z0-9_]] on the characters of this model.  Under
    IGNORECASE the class also matches four characters whose case folding is
    a letter of the class (U+0130, U+0131, U+017F and U+212A); they lie
    above 255, outside the characters modelled here, and no character below
    256 is added. *)
Definition is_word (c : ascii) : bool :=
  let n := N_of_ascii c in
  ((48 <=? n) && (n <=? 57) || (65 <=? n) && (n <=? 90) || (n =? 95)
   || (97 <=? n) && (n <=? 122))%N.

(** An optional backtick. *)
Definition skip_backtick (s : text) : text :=
  match s with
  | c :: s' => if Ascii.eqb c "`" then s' else s
  | [] => []
  end.

(** An optional backtick, the group of one or more word characters, an
    optional backtick. *)
Definition quoted_word (s : text) : option (text * text) :=
  let (word, rest) := span is_word (skip_backtick s) in
  match word with
  | [] => None
  | _ :: _ => Some (word, skip_backtick rest)
  end.

(** [p] is the beginning of [s], the case of the letters apart. *)
Fixpoint prefix_ignoring_case (p s : text) : bool :=
  match p, s with
  | [], _ => true
  | x :: p', y :: s' =>
      Ascii.eqb (lower_char x) (lower_char y) && prefix_ignoring_case p' s'
  | _ :: _, [] => false
  end.

(** The pattern of line 145: the catalog between backticks, as it is
    written but for the case of the letters, a dot and a name. *)
Definition qualified_reference (catalog : text) : Re.pattern := fun s =>
  match s with
  | [] => None
  | c :: s1 =>
      if Ascii.eqb c "`" && prefix_ignoring_case catalog s1 then
        match skipn (List.length catalog) s1 with
        | q :: d :: s2 =>
            if Ascii.eqb q "`" && Ascii.eqb d "." then quoted_word s2 else None
        | _ => None
        end
      else None
  end.

(** The pattern of line 152: a name, between backticks or not, and a dot. *)
Definition unqualified_reference : Re.pattern := fun s =>
  match quoted_word s with
  | Some (word, d :: rest) =>
      if Ascii.eqb d "." then Some (word, rest) else None
  | _ => None
  end.

Definition sql_keywords : list text :=
  [txt "select"; txt "from"; txt "where"; txt "group"; txt "order"; txt "by";
   txt "join"; txt "inner"; txt "left"; txt "right"; txt "outer"].

Fixpoint text_eqb (a b : text) : bool :=
  match a, b with
  | [], [] => true
  | x :: a', y :: b' => Ascii.eqb x y && text_eqb a' b'
  | _, _ => false
  end.

(** [s.lower() not in sql_keywords] *)
Definition not_keyword (s : text) : bool :=
  negb (existsb (text_eqb (lower s)) sql_keywords).

(** [_extract_schemas_from_sql].  The function returns a set; the list
    holds its elements, and nothing is said of their order or number. *)
Definition _extract_schemas_from_sql (sql_content catalog : text) : list text :=
  findall (qualified_reference catalog) sql_content
  ++ filter not_keyword (findall unqualified_reference sql_content).

(** A pattern whose match leaves less text than it was given. *)
Definition shortens (p : Re.pattern) : Prop :=
  forall s g r, p s = Some (g, r) -> List.length r < List.length s.

(** The text is empty, or its last character is no word character and no
    backtick. *)
Definition ends_apart (s : text) : bool :=
  match rev s with
  | [] => true
  | z :: _ => negb (is_word z) && negb (Ascii.eqb z "`")
  end.

(** ** What [execute_sql_file] does with the text before splitting it
    (lines 167-177) *)

(** The pattern that matches the text [old] and nothing else. *)
Definition literal (old : text) : Re.pattern := fun s =>
  if prefix old s then Some (old, skipn (List.length old) s) else None.

(** Line 168, [sql_content.replace('${catalog}', catalog)]. *)
Definition replace_placeholder (catalog sql_content : text) : text :=
  Re.sub (literal (txt "${catalog}")) (fun _ => catalog) sql_content.

(** Lines 168-171. *)
Definition prepare (catalog sql_content : text) : text :=
  replace_references (catalog_reference catalog)
    (replace_placeholder catalog sql_content).

Definition system_schemas : list text :=
  [txt "information_schema"; txt "system"].

(** Lines 175-177.  [schemas] is a set: the loop meets each element once,
    in an order the language does not fix, so the loop is given the list
    [order] of the elements as the iteration yields them.  An exception of
    [_ensure_schema_exists] ends the loop. *)
Fixpoint ensure_schemas {W : Type} (wh : Warehouse W) (catalog : text)
         (order : list text) : M W unit :=
  match order with
  | [] => ret tt
  | schema :: order' =>
      (if negb (existsb (text_eqb (lower schema)) system_schemas)
       then _ensure_schema_exists wh catalog schema
       else ret tt) ;;
      ensure_schemas wh catalog order'
  end.

(** [order] is a way to iterate over the set whose elements are those of
    the list [l]. *)
Definition enumerates (order l : list text) : Prop :=
  NoDup order /\ forall x, In x order <-> In x l.

(** A character that ends or breaks a name written between backticks or
    quotes: a quote character, a dot, a semicolon, white space. *)
Definition is_separator (c : ascii) : bool :=
  is_quote c || Ascii.eqb c "." || Ascii.eqb c ";" || Str.is_space c.

(** * Properties *)

(** Case analysis on every test of the goal, the way the branches of an
    iteration are walked through. *)
Ltac case_ifs :=
  repeat match goal with |- context [if ?b then _ else _] => destruct b end.

Ltac case_ifs_eqn :=
  repeat match goal with
         | |- context [if ?b then _ else _] => destruct b eqn:?
         end.

(** The examples of the specification that are no claim of their own. *)
Example split_two_statements : split_scanned (txt "SELECT 1; SELECT 2;")
                    = [txt "SELECT 1;"; txt "SELECT 2;"].
Proof. reflexivity. Qed.

Example split_trailing_statement :
  _split_sql_statements (txt "SELECT 1") = [txt "SELECT 1;"].
Proof. reflexivity. Qed.

Example split_protected_comment :
  _split_sql_statements (txt "/* CREATE NOTE */ CREATE TABLE t (id INT);")
  = [txt "/* CREATE NOTE */ CREATE TABLE t (id INT);"].
Proof. reflexivity. Qed.

(** ** Stripping *)

Module StrFacts.
Import Str.

Lemma lstrip_app (s t : text) :
  lstrip (s ++ t) = match lstrip s with
                    | [] => lstrip t
                    | _ :: _ => lstrip s ++ t
                    end.
Proof.
  induction s as [|c s IH]; simpl.
  - destruct (lstrip t); reflexivity.
  - destruct (is_space c); [exact IH | reflexivity].
Qed.

Lemma lstrip_head (s : text) c t : lstrip s = c :: t -> is_space c = false.
Proof.
  induction s as [|d s IH]; simpl; [discriminate|].
  destruct (is_space d) eqn:E; [exact IH|].
  intros H; injection H as -> _; exact E.
Qed.

Lemma lstrip_spaces (ws : text) : forallb is_space ws = true -> lstrip ws = [].
Proof.
  induction ws as [|c ws IH]; simpl; [reflexivity|].
  intros H; apply andb_true_iff in H as [-> H]; auto.
Qed.

Lemma lstrip_split (s : text) :
  exists ws, s = ws ++ lstrip s /\ forallb is_space ws = true.
Proof.
  induction s as [|c s (ws & E & H)]; simpl.
  - exists []; auto.
  - destruct (is_space c) eqn:Ec.
    + exists (c :: ws); simpl; rewrite Ec, H, <- E; auto.
    + exists []; auto.
Qed.

Lemma lstrip_idem (s : text) : lstrip (lstrip s) = lstrip s.
Proof.
  destruct (lstrip s) as [|c t] eqn:E; [reflexivity|].
  simpl; rewrite (lstrip_head _ _ _ E); reflexivity.
Qed.

Lemma rstrip_snoc_space (s : text) c :
  is_space c = true -> rstrip (s ++ [c]) = rstrip s.
Proof.
  intros H; unfold rstrip; rewrite rev_app_distr; simpl; rewrite H; reflexivity.
Qed.

Lemma rstrip_snoc (s : text) c :
  is_space c = false -> rstrip (s ++ [c]) = s ++ [c].
Proof.
  intros H; unfold rstrip; rewrite rev_app_distr; simpl; rewrite H.
  simpl; rewrite rev_involutive; reflexivity.
Qed.

Lemma rstrip_split (s : text) :
  exists ws, s = rstrip s ++ ws /\ forallb is_space ws = true.
Proof.
  unfold rstrip; destruct (lstrip_split (rev s)) as (ws & E & H).
  exists (rev ws); split.
  - rewrite <- rev_app_distr, <- E, rev_involutive; reflexivity.
  - rewrite forallb_forall in *; intros x Hx; apply H, in_rev; exact Hx.
Qed.

Lemma rstrip_nil_spaces (s : text) : rstrip s = [] -> forallb is_space s = true.
Proof.
  intros H; destruct (rstrip_split s) as (ws & E & Hws).
  rewrite H in E; simpl in E; subst; exact Hws.
Qed.

(** Stripping on the right keeps the first character. *)
Lemma rstrip_cons (c : ascii) (s : text) :
  is_space c = false -> exists t, rstrip (c :: s) = c :: t.
Proof.
  intros Hc; revert c Hc; induction s as [|d s IH] using rev_ind; intros c Hc.
  - exists []; apply (rstrip_snoc [] c Hc).
  - destruct (is_space d) eqn:Ed.
    + change (c :: s ++ [d]) with ((c :: s) ++ [d]).
      rewrite (rstrip_snoc_space _ _ Ed); auto.
    + change (c :: s ++ [d]) with ((c :: s) ++ [d]).
      rewrite (rstrip_snoc _ _ Ed); eexists; reflexivity.
Qed.

Lemma strip_snoc_space (s : text) c :
  is_space c = true -> strip (s ++ [c]) = strip s.
Proof.
  intros H; unfold strip; rewrite lstrip_app.
  destruct (lstrip s) as [|d t] eqn:E.
  - simpl; rewrite H; reflexivity.
  - apply rstrip_snoc_space; exact H.
Qed.

Lemma strip_snoc (s : text) c :
  is_space c = false -> strip (s ++ [c]) = lstrip s ++ [c].
Proof.
  intros H; unfold strip; rewrite lstrip_app.
  destruct (lstrip s) as [|d t] eqn:E.
  - simpl; rewrite H; apply (rstrip_snoc [] c H).
  - apply rstrip_snoc; exact H.
Qed.

Lemma strip_spaces (ws : text) : forallb is_space ws = true -> strip ws = [].
Proof. intros H; unfold strip; rewrite (lstrip_spaces _ H); reflexivity. Qed.

Lemma strip_app_spaces_l (ws s : text) :
  forallb is_space ws = true -> strip (ws ++ s) = strip s.
Proof.
  intros H; unfold strip; rewrite lstrip_app, (lstrip_spaces _ H); reflexivity.
Qed.

Lemma strip_app_spaces_r (s ws : text) :
  forallb is_space ws = true -> strip (s ++ ws) = strip s.
Proof.
  induction ws as [|c ws IH] using rev_ind; intros H.
  - rewrite app_nil_r; reflexivity.
  - rewrite forallb_app in H; apply andb_true_iff in H as [H1 H2].
    simpl in H2; rewrite andb_true_r in H2.
    rewrite app_assoc, (strip_snoc_space _ _ H2); auto.
Qed.

(** A text is its stripped form between two runs of white space. *)
Lemma strip_split (s : text) :
  exists ws1 ws2, s = ws1 ++ strip s ++ ws2 /\
                  forallb is_space ws1 = true /\ forallb is_space ws2 = true.
Proof.
  destruct (lstrip_split s) as (ws1 & E1 & H1).
  destruct (rstrip_split (lstrip s)) as (ws2 & E2 & H2).
  exists ws1, ws2; unfold strip; rewrite <- E2; auto.
Qed.

(** The first character of a stripped text is not white space. *)
Lemma strip_head (s : text) c t : strip s = c :: t -> is_space c = false.
Proof.
  unfold strip; intros H.
  destruct (lstrip s) as [|d u] eqn:E; [discriminate|].
  pose proof (lstrip_head _ _ _ E) as Hd.
  destruct (rstrip_cons d u Hd) as (t' & Ht); rewrite Ht in H.
  injection H as -> _; exact Hd.
Qed.

(** Nor is the last one. *)
Lemma strip_last (s : text) t c : strip s = t ++ [c] -> is_space c = false.
Proof.
  unfold strip, rstrip; intros H.
  apply (f_equal (@rev ascii)) in H.
  rewrite rev_involutive, rev_app_distr in H; simpl in H.
  exact (lstrip_head _ _ _ H).
Qed.

Lemma strip_fixed (c : ascii) (t : text) d :
  is_space c = false -> is_space d = false ->
  strip (c :: t ++ [d]) = c :: t ++ [d].
Proof.
  intros Hc Hd; change (c :: t ++ [d]) with ((c :: t) ++ [d]).
  rewrite (strip_snoc _ _ Hd); simpl; rewrite Hc; reflexivity.
Qed.

Lemma strip_idem (s : text) : strip (strip s) = strip s.
Proof.
  destruct (strip s) as [|c t] eqn:E; [reflexivity|].
  pose proof (strip_head _ _ _ E) as Hc.
  destruct t as [|d t] using rev_ind.
  - apply (strip_snoc [] c Hc).
  - clear IHt. change (c :: t ++ [d]) with ((c :: t) ++ [d]) in E.
    apply strip_fixed; [exact Hc | exact (strip_last _ _ _ E)].
Qed.

Lemma strip_stripped_snoc (t : text) c :
  strip t = t -> t <> [] -> is_space c = false -> strip (t ++ [c]) = t ++ [c].
Proof.
  intros E Hne Hc; rewrite (strip_snoc _ _ Hc); f_equal.
  destruct t as [|d u]; [congruence|].
  simpl; rewrite (strip_head (d :: u) _ _ E); reflexivity.
Qed.

Lemma endswith_snoc (s : text) c d : endswith (s ++ [c]) d = Ascii.eqb c d.
Proof. unfold endswith; rewrite rev_app_distr; reflexivity. Qed.

Lemma truthy_true (s : text) : truthy s = true <-> s <> [].
Proof. destruct s; simpl; split; congruence. Qed.

End StrFacts.

(** ** The keyword test *)

Module KeywordFacts.
Import Str.

Lemma upper_char_cases (c : ascii) :
  upper_char c = [83%N; 83%N] \/
  exists k, upper_char c = [k] /\
            ((65 <= k <= 90)%N -> is_letter c = true).
Proof.
  unfold upper_char, is_letter.
  set (n := N_of_ascii c).
  destruct ((97 <=? n) && (n <=? 122))%N eqn:E1.
  { right; eexists; split; [reflexivity|]; intros _.
    rewrite orb_true_r; reflexivity. }
  destruct (n =? 181)%N eqn:E2.
  { right; eexists; split; [reflexivity|]; lia. }
  destruct (n =? 223)%N eqn:E3; [left; reflexivity|].
  destruct ((224 <=? n) && (n <=? 254) && negb (n =? 247))%N eqn:E4.
  { right; eexists; split; [reflexivity|]; intros H.
    apply andb_true_iff in E4 as [E4 _]; apply andb_true_iff in E4 as [E4 _].
    apply N.leb_le in E4; lia. }
  destruct (n =? 255)%N eqn:E5.
  { right; eexists; split; [reflexivity|]; lia. }
  right; eexists; split; [reflexivity|]; intros H.
  rewrite orb_false_r.
  apply andb_true_iff; split; apply N.leb_le; lia.
Qed.

Lemma eqb_codes_cons_inv x a kw :
  eqb_codes (x :: a) kw = true ->
  exists kw', kw = x :: kw' /\ eqb_codes a kw' = true.
Proof.
  destruct kw as [|y kw']; simpl; [discriminate|].
  intros H; apply andb_true_iff in H as [H1 H2].
  apply N.eqb_eq in H1; subst; eauto.
Qed.

(** A text whose upper-case form is a word of capital letters without a
    double S has the length of the word and consists of letters. *)
Lemma upper_word (kw : list N) :
  forallb (fun k => (65 <=? k) && (k <=? 90))%N kw = true ->
  no_double_s kw = true ->
  forall w, eqb_codes (upper w) kw = true ->
            List.length w = List.length kw /\ forallb is_letter w = true.
Proof.
  intros Hkw Hd w; revert kw Hkw Hd.
  induction w as [|c w IH]; intros kw Hkw Hd H.
  - destruct kw; simpl in H; [auto | discriminate].
  - change (upper (c :: w)) with (upper_char c ++ upper w) in H.
    destruct (upper_char_cases c) as [E | (k & E & Hl)]; rewrite E in H.
    + change ([83%N; 83%N] ++ upper w) with (83%N :: 83%N :: upper w) in H.
      apply eqb_codes_cons_inv in H as (kw1 & -> & H).
      apply eqb_codes_cons_inv in H as (kw2 & -> & H).
      simpl in Hd; discriminate.
    + change ([k] ++ upper w) with (k :: upper w) in H.
      apply eqb_codes_cons_inv in H as (kw1 & -> & H).
      simpl in Hkw; apply andb_true_iff in Hkw as [Hk Hkw'].
      apply andb_true_iff in Hk as [Hk1 Hk2].
      apply N.leb_le in Hk1, Hk2.
      assert (Hd' : no_double_s kw1 = true).
      { destruct kw1; [reflexivity|].
        simpl in Hd; apply andb_true_iff in Hd as [_ Hd]; exact Hd. }
      destruct (IH kw1 Hkw' Hd' H) as [IH1 IH2].
      simpl; rewrite IH1, (Hl (conj Hk1 Hk2)), IH2; auto.
Qed.

Lemma keyword_window (s : text) :
  at_tblproperties s = true ->
  List.length (firstn 13 s) = 13 /\ forallb is_letter (firstn 13 s) = true.
Proof.
  unfold at_tblproperties; intros H.
  apply upper_word in H; [exact H | reflexivity | reflexivity].
Qed.

(** The keyword is found only where a letter stands. *)
Lemma keyword_head (c : ascii) (rest : text) :
  at_tblproperties (c :: rest) = true -> is_letter c = true.
Proof.
  intros H; apply keyword_window in H as [_ H].
  simpl in H; apply andb_true_iff in H as [H _]; exact H.
Qed.

Lemma no_keyword_at (c : ascii) (rest : text) :
  is_letter c = false -> at_tblproperties (c :: rest) = false.
Proof.
  intros H; destruct (at_tblproperties (c :: rest)) eqn:E; [|reflexivity].
  apply keyword_head in E; congruence.
Qed.

(** The test reads the text up to the first character that is no letter. *)
Lemma keyword_lookahead (a x y : text) :
  no_letter_ahead x -> no_letter_ahead y ->
  at_tblproperties (a ++ x) = at_tblproperties (a ++ y).
Proof.
  assert (G : forall a x y, no_letter_ahead x ->
              at_tblproperties (a ++ x) = true ->
              firstn 13 (a ++ x) = firstn 13 (a ++ y)).
  { clear; intros a x y Hx H.
    apply keyword_window in H as [Hl Hf].
    rewrite !firstn_app in *.
    destruct (Nat.le_gt_cases 13 (List.length a)) as [L|L].
    - replace (13 - List.length a) with 0 by lia; reflexivity.
    - exfalso. rewrite firstn_all2 in Hl, Hf by lia.
      rewrite forallb_app in Hf; apply andb_true_iff in Hf as [_ Hf].
      rewrite length_app in Hl.
      destruct x as [|c x].
      + rewrite firstn_nil in Hl; simpl in Hl; lia.
      + destruct (13 - List.length a) as [|n] eqn:En; [lia|].
        simpl in Hf, Hx; rewrite Hx in Hf; discriminate. }
  intros Hx Hy.
  destruct (at_tblproperties (a ++ x)) eqn:Ex.
  - unfold at_tblproperties in *. rewrite <- (G a x y Hx Ex); symmetry; exact Ex.
  - destruct (at_tblproperties (a ++ y)) eqn:Ey; [|reflexivity].
    unfold at_tblproperties in *.
    rewrite <- (G a y x Hy Ey) in Ex. unfold at_tblproperties in Ey; congruence.
Qed.

End KeywordFacts.

(** ** Characters *)

Module CharFacts.
Import Str.

Lemma is_quote_cases (c : ascii) :
  is_quote c = true -> c = "'" \/ c = DQUOTE \/ c = "`".
Proof.
  unfold is_quote; intros H.
  apply orb_true_iff in H as [H|H]; [apply orb_true_iff in H as [H|H]|];
    apply Ascii.eqb_eq in H; auto.
Qed.

Lemma quote_not_letter (c : ascii) : is_quote c = true -> is_letter c = false.
Proof. intros H; destruct (is_quote_cases c H) as [->|[->| ->]]; reflexivity. Qed.

Lemma quote_not_space (c : ascii) : is_quote c = true -> is_space c = false.
Proof. intros H; destruct (is_quote_cases c H) as [->|[->| ->]]; reflexivity. Qed.

Lemma space_not_quote (c : ascii) : is_space c = true -> is_quote c = false.
Proof.
  intros H; destruct (is_quote c) eqn:E; [|reflexivity].
  apply quote_not_space in E; congruence.
Qed.

Lemma space_not_letter (c : ascii) : is_space c = true -> is_letter c = false.
Proof.
  unfold is_space, is_letter; set (n := N_of_ascii c); intros H.
  repeat match type of H with
         | (_ || _) = true => apply orb_true_iff in H as [H|H]
         | (_ && _) = true => let H' := fresh in apply andb_true_iff in H as [H H']
         end;
    repeat match goal with
           | K : (_ <=? _)%N = true |- _ => apply N.leb_le in K
           | K : (_ =? _)%N = true |- _ => apply N.eqb_eq in K
           end;
    apply orb_false_iff; split; apply andb_false_iff;
    try (left; apply N.leb_gt; lia); try (right; apply N.leb_gt; lia).
Qed.

Lemma space_not_semicolon (c : ascii) : is_space c = true -> Ascii.eqb c ";" = false.
Proof.
  intros H; destruct (Ascii.eqb c ";") eqn:E; [|reflexivity].
  apply Ascii.eqb_eq in E; subst; discriminate.
Qed.

Lemma space_not_paren (c : ascii) : is_space c = true -> Ascii.eqb c ")" = false.
Proof.
  intros H; destruct (Ascii.eqb c ")") eqn:E; [|reflexivity].
  apply Ascii.eqb_eq in E; subst; discriminate.
Qed.

Lemma quote_not_semicolon (c : ascii) : is_quote c = true -> Ascii.eqb c ";" = false.
Proof. intros H; destruct (is_quote_cases c H) as [->|[->| ->]]; reflexivity. Qed.

Lemma quote_not_paren (c : ascii) : is_quote c = true -> Ascii.eqb c ")" = false.
Proof. intros H; destruct (is_quote_cases c H) as [->|[->| ->]]; reflexivity. Qed.

End CharFacts.

(** ** One iteration *)

Module StepFacts.
Import Str StrFacts KeywordFacts CharFacts.

Lemma step_statements st c r :
  statements (step st c r) =
  match action_of st c r with
  | Append => statements st
  | Split => append_stripped (statements st) (current st)
  | Close => append_stripped (statements st) (current st ++ [c])
  end.
Proof.
  unfold step, action_of.
  case_ifs;
    reflexivity.
Qed.

Lemma step_current st c r :
  current (step st c r) =
  match action_of st c r with
  | Append => current st ++ [c]
  | _ => []
  end.
Proof.
  unfold step, action_of.
  case_ifs;
    reflexivity.
Qed.

Lemma step_in_tblproperties st c r :
  in_tblproperties (step st c r) =
  match action_of st c r with
  | Close => false
  | _ => region_active st c r
  end.
Proof.
  unfold step, action_of, region_active.
  case_ifs;
    reflexivity.
Qed.

(** The branch taken at a semicolon or at a closing parenthesis. *)
Lemma action_split st c r :
  action_of st c r = Split <-> top_level_semicolon st c r = true.
Proof.
  unfold action_of, top_level_semicolon, region_active.
  destruct (is_quote c) eqn:Q.
  - rewrite (quote_not_semicolon c Q); simpl.
    case_ifs;
      split; discriminate.
  - simpl.
    destruct (is_delimiter c (string_delimiter st) && in_string st
              && negb (at_tblproperties (c :: r) || in_tblproperties st)) eqn:D.
    + apply andb_true_iff in D as [D ->]; apply andb_true_iff in D as [_ ->].
      simpl; rewrite andb_false_r; split; discriminate.
    + destruct (Ascii.eqb c ";" && negb (in_string st)
                && negb (at_tblproperties (c :: r) || in_tblproperties st));
        [split; reflexivity|].
      destruct (Ascii.eqb c ")" && _); split; discriminate.
Qed.

Lemma action_close st c r :
  action_of st c r = Close <-> region_closure st c r = true.
Proof.
  unfold action_of, region_closure, region_active.
  destruct (at_tblproperties (c :: r) || in_tblproperties st) eqn:T;
    rewrite ?andb_false_r, ?andb_true_r; simpl.
  - destruct (Ascii.eqb c ")"); split; (reflexivity || discriminate).
  - case_ifs;
      split; discriminate.
Qed.

(** Inside a region every character but the closing parenthesis is
    appended to the buffer, whatever it is. *)
Lemma region_step st c r :
  region_active st c r = true -> Ascii.eqb c ")" = false ->
  step st c r = {| statements := statements st;
                   current := current st ++ [c];
                   in_string := in_string st;
                   in_tblproperties := true;
                   string_delimiter := string_delimiter st |}.
Proof.
  unfold region_active, step; intros -> ->.
  rewrite !andb_false_r; reflexivity.
Qed.

(** The closing parenthesis ends the region and the statement. *)
Lemma region_close st r :
  region_active st ")" r = true ->
  step st ")" r = {| statements := statements st ++ [strip (current st ++ [")"])];
                     current := [];
                     in_string := in_string st;
                     in_tblproperties := false;
                     string_delimiter := string_delimiter st |}.
Proof.
  unfold region_active, step; intros ->.
  rewrite !andb_false_r; simpl.
  unfold append_stripped.
  rewrite (strip_snoc (current st) ")" eq_refl).
  destruct (lstrip (current st)); reflexivity.
Qed.

(** In a literal a semicolon is appended to the buffer. *)
Lemma quoted_semicolon st r :
  delimiter_ok st -> in_string st = true ->
  step st ";" r = {| statements := statements st;
                     current := current st ++ [";"];
                     in_string := true;
                     in_tblproperties := region_active st ";" r;
                     string_delimiter := string_delimiter st |}.
Proof.
  intros Hd Hs; destruct (Hd Hs) as (q & Eq & Hq).
  assert (E : Ascii.eqb ";" q = false).
  { destruct (Ascii.eqb ";" q) eqn:E; [|reflexivity].
    apply Ascii.eqb_eq in E; subst q; discriminate. }
  unfold step, region_active; rewrite Hs, Eq.
  change (is_quote ";") with false.
  change (is_delimiter ";" (Some q)) with (Ascii.eqb ";" q).
  rewrite E; cbn [andb orb negb].
  rewrite !andb_false_r; reflexivity.
Qed.

Lemma delimiter_ok_step st c r : delimiter_ok st -> delimiter_ok (step st c r).
Proof.
  unfold delimiter_ok, step; intros H.
  case_ifs_eqn;
    simpl; try exact H; try discriminate.
  intros _; exists c; split; [reflexivity|].
  match goal with
  | K : is_quote c && _ && _ = true |- _ =>
      apply andb_true_iff in K as [K _]; apply andb_true_iff in K as [K _]; exact K
  end.
Qed.

Lemma delimiter_ok_initial : delimiter_ok initial.
Proof. intros H; discriminate. Qed.

End StepFacts.

(** ** The loop *)

Module RunFacts.
Import Str StrFacts KeywordFacts CharFacts StepFacts.

Lemma run_app st (a b after : text) :
  run st (a ++ b) after = run (run st a (b ++ after)) b after.
Proof.
  revert st; induction a as [|c a IH]; intros st; simpl; [reflexivity|].
  rewrite IH, app_assoc; reflexivity.
Qed.

Lemma run_snoc st (a : text) c (after : text) :
  run st (a ++ [c]) after = step (run st a (c :: after)) c after.
Proof. rewrite run_app; reflexivity. Qed.

Lemma delimiter_ok_run st (s after : text) :
  delimiter_ok st -> delimiter_ok (run st s after).
Proof.
  revert st; induction s as [|c s IH]; intros st H; simpl; [exact H|].
  apply IH, delimiter_ok_step, H.
Qed.

Lemma not_in_cons (c d : ascii) (s : text) :
  ~ In c (d :: s) -> Ascii.eqb d c = false /\ ~ In c s.
Proof.
  intros H; split.
  - destruct (Ascii.eqb d c) eqn:E; [|reflexivity].
    apply Ascii.eqb_eq in E; subst; exfalso; apply H; left; reflexivity.
  - intros K; apply H; right; exact K.
Qed.

(** Inside a region the loop appends up to the next closing parenthesis. *)
Lemma region_run st (mid after : text) :
  in_tblproperties st = true -> ~ In ")" mid ->
  run st mid after = {| statements := statements st;
                        current := current st ++ mid;
                        in_string := in_string st;
                        in_tblproperties := true;
                        string_delimiter := string_delimiter st |}.
Proof.
  revert st; induction mid as [|c mid IH]; intros st Ht Hn; simpl.
  - rewrite app_nil_r, <- Ht; destruct st; reflexivity.
  - apply not_in_cons in Hn as [Hc Hn].
    rewrite region_step; [|unfold region_active; rewrite Ht; apply orb_true_r | exact Hc].
    rewrite IH; [|reflexivity | exact Hn]; simpl.
    rewrite <- app_assoc; reflexivity.
Qed.

(** A region, from any character inside it to its closing parenthesis. *)
Lemma region_to_close st (mid post : text) :
  in_tblproperties st = true -> ~ In ")" mid ->
  run st (mid ++ [")"]) post =
  {| statements := statements st ++ [strip (current st ++ mid ++ [")"])];
     current := [];
     in_string := in_string st;
     in_tblproperties := false;
     string_delimiter := string_delimiter st |}.
Proof.
  intros Ht Hn; rewrite run_snoc, (region_run st mid _ Ht Hn).
  rewrite region_close; [|reflexivity]; simpl.
  rewrite <- app_assoc; reflexivity.
Qed.

(** A region, from the keyword to its closing parenthesis. *)
Lemma keyword_to_close st (region post : text) :
  at_tblproperties (region ++ ")" :: post) = true -> ~ In ")" region ->
  run st (region ++ [")"]) post =
  {| statements := statements st ++ [strip (current st ++ region ++ [")"])];
     current := [];
     in_string := in_string st;
     in_tblproperties := false;
     string_delimiter := string_delimiter st |}.
Proof.
  intros Hk Hn; destruct region as [|c region].
  - simpl in Hk; rewrite (no_keyword_at ")" post eq_refl) in Hk; discriminate.
  - apply not_in_cons in Hn as [Hc Hn].
    change ((c :: region) ++ [")"]) with (c :: (region ++ [")"])).
    change (run st (c :: region ++ [")"]) post)
      with (run (step st c ((region ++ [")"]) ++ post)) (region ++ [")"]) post).
    rewrite <- app_assoc; simpl app at 2.
    rewrite region_step; [|unfold region_active; simpl in Hk; rewrite Hk; reflexivity | exact Hc].
    rewrite region_to_close; [|reflexivity | exact Hn]; simpl.
    rewrite <- app_assoc; reflexivity.
Qed.

(** In a literal the loop stays in the literal until its delimiter comes. *)
Lemma literal_step st q c r :
  in_string st = true -> string_delimiter st = Some q -> Ascii.eqb c q = false ->
  in_string (step st c r) = true /\ string_delimiter (step st c r) = Some q.
Proof.
  intros Hs Hq Hc; unfold step; rewrite Hs, Hq.
  change (is_delimiter c (Some q)) with (Ascii.eqb c q); rewrite Hc.
  cbn [negb andb]; rewrite !andb_false_r; cbn [andb].
  case_ifs;
    simpl; auto.
Qed.

Lemma literal_run st q (s after : text) :
  in_string st = true -> string_delimiter st = Some q -> ~ In q s ->
  in_string (run st s after) = true /\ string_delimiter (run st s after) = Some q.
Proof.
  revert st; induction s as [|c s IH]; intros st Hs Hq Hn; simpl; [auto|].
  apply not_in_cons in Hn as [Hc Hn].
  destruct (literal_step st q c (s ++ after) Hs Hq Hc) as [Hs' Hq'].
  apply IH; assumption.
Qed.

End RunFacts.

Import Str StrFacts KeywordFacts CharFacts StepFacts RunFacts.

(** ** Quoted regions *)

(** C1. A semicolon met while the scan is inside a quoted literal is never a
    split point: the iteration emits no statement, appends the semicolon to
    the buffer and stays in the literal.  The specification's example, one
    INSERT with a semicolon in its literal, comes back as one statement. *)
Theorem quoted_semicolon_is_no_split :
  (forall pre post : text,
      let st := run initial pre (";" :: post) in
      let st' := run initial (pre ++ [";"]) post in
      in_string st = true ->
      statements st' = statements st /\
      current st' = current st ++ [";"] /\
      in_string st' = true)
  /\ _split_sql_statements (txt "INSERT INTO t VALUES ('a;b');")
     = [txt "INSERT INTO t VALUES ('a;b');"].
Proof.
  split; [|reflexivity].
  intros pre post st st' Hs; subst st st'.
  rewrite run_snoc, quoted_semicolon;
    [simpl; auto | apply delimiter_ok_run, delimiter_ok_initial | exact Hs].
Qed.

Lemma quoted_semicolon_is_no_split_witness :
  let pre := txt "SELECT 'a" in
  let post := txt "b' FROM t;" in
  in_string (run initial pre (";" :: post)) = true /\
  statements (run initial (pre ++ [";"]) post)
  = statements (run initial pre (";" :: post)) /\
  current (run initial (pre ++ [";"]) post)
  = current (run initial pre (";" :: post)) ++ [";"] /\
  in_string (run initial (pre ++ [";"]) post) = true.
Proof.
  split; [reflexivity|].
  apply (proj1 quoted_semicolon_is_no_split (txt "SELECT 'a") (txt "b' FROM t;")).
  reflexivity.
Defined.

(** ** TBLPROPERTIES regions *)

(** C2. A TBLPROPERTIES clause is never split inside: from the keyword to
    the first closing parenthesis every character, semicolons and quote
    characters included, goes to the buffer, and at the parenthesis the
    buffer is emitted as one statement.  The specification's example comes
    back as one statement. *)
Theorem tblproperties_clause_is_one_statement :
  (forall pre region post : text,
      let st := run initial pre (region ++ ")" :: post) in
      let st' := run initial (pre ++ region ++ [")"]) post in
      at_tblproperties (region ++ ")" :: post) = true ->
      ~ In ")" region ->
      statements st' = statements st ++ [strip (current st ++ region ++ [")"])] /\
      current st' = [] /\
      in_tblproperties st' = false)
  /\ _split_sql_statements
       (txt "CREATE TABLE t (id INT) TBLPROPERTIES ('delta.a' = 'x;y');")
     = [txt "CREATE TABLE t (id INT) TBLPROPERTIES ('delta.a' = 'x;y');"].
Proof.
  split; [|reflexivity].
  intros pre region post st st' Hk Hn; subst st st'.
  rewrite run_app.
  replace ((region ++ [")"]) ++ post) with (region ++ ")" :: post)
    by (rewrite <- app_assoc; reflexivity).
  rewrite (keyword_to_close _ region post Hk Hn); simpl; auto.
Qed.

Lemma tblproperties_clause_is_one_statement_witness :
  let pre := txt "CREATE TABLE t (id INT) " in
  let region := txt "TBLPROPERTIES ('delta.a' = 'x;y'" in
  let post := txt ";" in
  at_tblproperties (region ++ ")" :: post) = true /\
  statements (run initial (pre ++ region ++ [")"]) post)
  = [txt "CREATE TABLE t (id INT) TBLPROPERTIES ('delta.a' = 'x;y')"].
Proof.
  split; [reflexivity|].
  apply (proj1 tblproperties_clause_is_one_statement
           (txt "CREATE TABLE t (id INT) ")
           (txt "TBLPROPERTIES ('delta.a' = 'x;y'")
           (txt ";")).
  - reflexivity.
  - simpl; intuition discriminate.
Defined.

(** C3. The scan enters a region where the next 13 characters spell the
    keyword, in any case; from inside a region the first closing parenthesis
    closes it and ends the statement, whatever stands between, opening
    parentheses included: nesting is not tracked. *)
Theorem first_parenthesis_closes_region :
  (forall st c (rest : text),
      at_tblproperties (c :: rest) = true ->
      in_tblproperties (step st c rest) = true)
  /\ (forall st (mid post : text),
         let st' := run st (mid ++ [")"]) post in
         in_tblproperties st = true ->
         ~ In ")" mid ->
         statements st' = statements st ++ [strip (current st ++ mid ++ [")"])] /\
         current st' = [] /\
         in_tblproperties st' = false)
  /\ split_scanned (txt "CREATE TABLE t TBLPROPERTIES (a = f(1), b = 2);")
     = [txt "CREATE TABLE t TBLPROPERTIES (a = f(1);"; txt ", b = 2);"].
Proof.
  split; [|split; [|reflexivity]].
  - intros st c rest Hk.
    assert (Hc : Ascii.eqb c ")" = false).
    { destruct (Ascii.eqb c ")") eqn:E; [|reflexivity].
      apply Ascii.eqb_eq in E; subst c.
      rewrite (no_keyword_at ")" rest eq_refl) in Hk; discriminate. }
    rewrite region_step; [reflexivity | | exact Hc].
    unfold region_active; rewrite Hk; reflexivity.
  - intros st mid post st' Ht Hn; subst st'.
    rewrite (region_to_close st mid post Ht Hn); simpl; auto.
Qed.

Lemma first_parenthesis_closes_region_witness :
  let st := run initial (txt "CREATE TABLE t TBLPROPERTIES") (txt " (a = f(1), b = 2);") in
  let mid := txt " (a = f(1" in
  let post := txt ", b = 2);" in
  (at_tblproperties (txt "TBLPROPERTIES (") = true /\
   in_tblproperties (step initial "T" (txt "BLPROPERTIES (")) = true) /\
  in_tblproperties st = true /\
  statements (run st (mid ++ [")"]) post)
  = [txt "CREATE TABLE t TBLPROPERTIES (a = f(1)"].
Proof.
  split; [split; [reflexivity|]|split; [reflexivity|]].
  - apply (proj1 first_parenthesis_closes_region initial "T" (txt "BLPROPERTIES (")).
    reflexivity.
  - apply (proj1 (proj2 first_parenthesis_closes_region)
             (run initial (txt "CREATE TABLE t TBLPROPERTIES") (txt " (a = f(1), b = 2);"))
             (txt " (a = f(1") (txt ", b = 2);")).
    + reflexivity.
    + simpl; intuition discriminate.
Defined.

(** C10. Closing a region does not touch the literal state.  When the
    keyword is met inside an open literal, the first closing parenthesis
    emits the buffer and the scan is still in that literal with the same
    delimiter; as long as the delimiter does not come, the scan stays in
    the literal and a semicolon emits nothing. *)
Theorem region_close_keeps_literal :
  forall (pre region post : text) (q : ascii),
    let st := run initial pre (region ++ ")" :: post) in
    let st' := run initial (pre ++ region ++ [")"]) post in
    in_string st = true ->
    string_delimiter st = Some q ->
    at_tblproperties (region ++ ")" :: post) = true ->
    ~ In ")" region ->
    (statements st' = statements st ++ [strip (current st ++ region ++ [")"])] /\
     in_string st' = true /\
     string_delimiter st' = Some q) /\
    (forall mid post' : text,
        post = mid ++ ";" :: post' ->
        ~ In q mid ->
        let s1 := run initial (pre ++ region ++ [")"] ++ mid) (";" :: post') in
        let s2 := run initial (pre ++ region ++ [")"] ++ mid ++ [";"]) post' in
        in_string s1 = true /\
        statements s2 = statements s1 /\
        current s2 = current s1 ++ [";"]).
Proof.
  intros pre region post q st st' Hs Hq Hk Hn.
  assert (E : st' = {| statements := statements st ++ [strip (current st ++ region ++ [")"])];
                       current := [];
                       in_string := in_string st;
                       in_tblproperties := false;
                       string_delimiter := string_delimiter st |}).
  { subst st st'; rewrite run_app.
    replace ((region ++ [")"]) ++ post) with (region ++ ")" :: post)
      by (rewrite <- app_assoc; reflexivity).
    apply keyword_to_close; assumption. }
  split.
  - rewrite E; simpl; auto.
  - intros mid post' Hp Hm s1 s2.
    assert (E1 : s1 = run st' mid (";" :: post')).
    { subst s1 st'; rewrite !app_assoc, run_app, <- !app_assoc, Hp; reflexivity. }
    assert (E2 : s2 = step s1 ";" post').
    { subst s2 s1.
      replace (pre ++ region ++ [")"] ++ mid ++ [";"])
        with ((pre ++ region ++ [")"] ++ mid) ++ [";"])
        by (rewrite <- !app_assoc; reflexivity).
      apply run_snoc. }
    assert (H1 : in_string s1 = true).
    { rewrite E1; apply (literal_run st' q mid _);
        [rewrite E; exact Hs | rewrite E; exact Hq | exact Hm]. }
    split; [exact H1|].
    rewrite E2, quoted_semicolon; [simpl; auto | | exact H1].
    subst s1; apply delimiter_ok_run, delimiter_ok_initial.
Qed.

Lemma region_close_keeps_literal_witness :
  let pre := txt "SELECT 'a " in
  let region := txt "TBLPROPERTIES (x" in
  let mid := txt " b " in
  let post' := txt " c' ; d" in
  let st := run initial pre (region ++ ")" :: mid ++ ";" :: post') in
  in_string st = true /\
  string_delimiter st = Some "'" /\
  at_tblproperties (region ++ ")" :: mid ++ ";" :: post') = true /\
  in_string (run initial (pre ++ region ++ [")"]) (mid ++ ";" :: post')) = true /\
  statements (run initial (pre ++ region ++ [")"] ++ mid ++ [";"]) post')
  = statements (run initial (pre ++ region ++ [")"] ++ mid) (";" :: post')).
Proof.
  split; [reflexivity|]. split; [reflexivity|]. split; [reflexivity|].
  assert (H := region_close_keeps_literal
                 (txt "SELECT 'a ") (txt "TBLPROPERTIES (x")
                 (txt " b " ++ ";" :: txt " c' ; d") "'"
                 eq_refl eq_refl eq_refl).
  destruct H as [(_ & H1 & _) H2].
  - simpl; intuition discriminate.
  - split; [exact H1|].
    destruct (H2 (txt " b ") (txt " c' ; d") eq_refl) as (_ & H3 & _).
    + simpl; intuition discriminate.
    + exact H3.
Defined.

(** ** The statements of the loop *)

Module StatementFacts.

Lemma truthy_strip_stripped (s : text) : stripped s -> truthy (strip s) = true.
Proof. intros [E H]; rewrite E; apply truthy_true; exact H. Qed.

Lemma append_stripped_cases (l : list text) (cur : text) :
  (blank cur = true /\ append_stripped l cur = l) \/
  (blank cur = false /\ append_stripped l cur = l ++ [strip cur] /\
   stripped (strip cur)).
Proof.
  unfold append_stripped, blank.
  destruct (truthy (strip cur)) eqn:E; [right|left]; auto.
  repeat split; [apply strip_idem | apply truthy_true; exact E].
Qed.

Lemma append_stripped_ok (l : list text) (cur : text) :
  Forall stripped l -> Forall stripped (append_stripped l cur).
Proof.
  intros H; destruct (append_stripped_cases l cur) as [[_ ->]|(_ & -> & K)];
    [exact H|].
  apply Forall_app; split; [exact H | constructor; [exact K | constructor]].
Qed.

Lemma step_ok st c r :
  Forall stripped (statements st) -> Forall stripped (statements (step st c r)).
Proof.
  intros H; rewrite step_statements.
  destruct (action_of st c r); auto using append_stripped_ok.
Qed.

Lemma run_ok st (s after : text) :
  Forall stripped (statements st) -> Forall stripped (statements (run st s after)).
Proof.
  revert st; induction s as [|c s IH]; intros st H; simpl; [exact H|].
  apply IH, step_ok, H.
Qed.

Lemma flush_ok st : Forall stripped (statements st) -> Forall stripped (flush st).
Proof. apply append_stripped_ok. Qed.

Lemma scanned_ok (s : text) : Forall stripped (flush (run initial s [])).
Proof. apply flush_ok, run_ok; constructor. Qed.

(** Line 260 keeps every statement of the loop. *)
Lemma finish_map (l : list text) : Forall stripped l -> finish l = map terminate l.
Proof.
  unfold finish; induction 1 as [|s l Hs Hl IH]; simpl; [reflexivity|].
  rewrite (truthy_strip_stripped s Hs); simpl; f_equal; exact IH.
Qed.

Lemma finish_app (l l' : list text) : finish (l ++ l') = finish l ++ finish l'.
Proof. unfold finish; rewrite filter_app, map_app; reflexivity. Qed.

Lemma terminate_ok (s : text) :
  stripped s ->
  terminate s <> [] /\ strip (terminate s) = terminate s /\
  endswith (terminate s) ";" = true.
Proof.
  intros [E H]; unfold terminate.
  destruct (endswith s ";") eqn:Es; simpl; [auto|].
  repeat split.
  - destruct s; discriminate.
  - apply strip_stripped_snoc; auto.
  - apply endswith_snoc.
Qed.

(** A text with a character that is no white space is not blank. *)
Lemma not_blank (s : text) c :
  In c s -> is_space c = false -> blank s = false.
Proof.
  intros Hin Hc; unfold blank.
  destruct (strip s) as [|d t] eqn:E; [exfalso|reflexivity].
  destruct (strip_split s) as (ws1 & ws2 & Es & H1 & H2).
  rewrite E in Es; simpl in Es; subst s.
  apply in_app_or in Hin as [Hin|Hin];
    [rewrite forallb_forall in H1; apply H1 in Hin
    |rewrite forallb_forall in H2; apply H2 in Hin]; congruence.
Qed.

End StatementFacts.

Import StatementFacts.

(** C4 fails as stated: after an unterminated quote the trailing statement
    keeps the semicolons it ends with. *)
Lemma statement_ending_in_two_semicolons :
  _split_sql_statements (txt "'a;;") = [txt "'a;;"] /\
  forallb ends_in_one_semicolon (_split_sql_statements (txt "'a;;")) = false.
Proof. split; reflexivity. Qed.

(** ** Counting statements *)

Module CountFacts.

Lemma step_length st c r :
  List.length (statements (step st c r))
  = List.length (statements st)
    + (if effective_semicolon st c r then 1 else 0)
    + (if region_closure st c r then 1 else 0).
Proof.
  rewrite step_statements; unfold effective_semicolon.
  destruct (action_of st c r) eqn:A.
  - destruct (top_level_semicolon st c r) eqn:T;
      [apply action_split in T; congruence|].
    destruct (region_closure st c r) eqn:R;
      [apply action_close in R; congruence|].
    simpl; lia.
  - pose proof (proj1 (action_split st c r) A) as T; rewrite T.
    destruct (region_closure st c r) eqn:R;
      [apply action_close in R; congruence|].
    destruct (append_stripped_cases (statements st) (current st))
      as [[B ->]|(B & -> & _)]; rewrite B; simpl; [lia|].
    rewrite length_app; simpl; lia.
  - pose proof (proj1 (action_close st c r) A) as R; rewrite R.
    destruct (top_level_semicolon st c r) eqn:T;
      [apply action_split in T; congruence|].
    unfold region_closure in R; apply andb_true_iff in R as [Ec _].
    apply Ascii.eqb_eq in Ec; subst c.
    destruct (append_stripped_cases (statements st) (current st ++ [")"]))
      as [[B _]|(_ & -> & _)].
    + rewrite (not_blank (current st ++ [")"]) ")") in B;
        [discriminate | apply in_or_app; right; left; reflexivity | reflexivity].
    + rewrite length_app; simpl; lia.
Qed.

Lemma run_length st (s after : text) :
  List.length (statements (run st s after))
  = List.length (statements st)
    + count_steps effective_semicolon st s after
    + count_steps region_closure st s after.
Proof.
  revert st; induction s as [|c s IH]; intros st; simpl; [lia|].
  rewrite IH, step_length; lia.
Qed.

Lemma flush_length st :
  List.length (flush st) = List.length (statements st) + trailing st.
Proof.
  unfold flush, trailing.
  destruct (append_stripped_cases (statements st) (current st))
    as [[B ->]|(B & -> & _)]; rewrite B; [lia|].
  rewrite length_app; simpl; lia.
Qed.

Lemma count_effective_le st (s after : text) :
  count_steps effective_semicolon st s after
  <= count_steps top_level_semicolon st s after.
Proof.
  revert st; induction s as [|c s IH]; intros st; simpl; [lia|].
  specialize (IH (step st c (s ++ after))).
  unfold effective_semicolon at 1.
  destruct (top_level_semicolon st c (s ++ after)); simpl; [|lia].
  destruct (negb (blank (current st))); lia.
Qed.

End CountFacts.

Import CountFacts.

(** C6, as the code has it.  The number of statements returned is the number
    of semicolons scanned outside quoted and TBLPROPERTIES regions at which
    the buffer is not blank, plus the number of region closures, plus one
    when trailing content is left; it never exceeds the figure that counts
    every such semicolon. *)
Theorem statement_count :
  forall sql_content : text,
    let scanned := strip_comments sql_content in
    List.length (_split_sql_statements sql_content)
    = count_steps effective_semicolon initial scanned []
      + count_steps region_closure initial scanned []
      + trailing (run initial scanned [])
    /\ List.length (_split_sql_statements sql_content)
       <= count_steps top_level_semicolon initial scanned []
          + count_steps region_closure initial scanned []
          + trailing (run initial scanned []).
Proof.
  intros sql scanned.
  assert (E : List.length (_split_sql_statements sql)
              = count_steps effective_semicolon initial scanned []
                + count_steps region_closure initial scanned []
                + trailing (run initial scanned [])).
  { unfold _split_sql_statements, split_scanned; fold scanned.
    rewrite (finish_map _ (scanned_ok scanned)), length_map.
    rewrite flush_length, run_length; reflexivity. }
  split; [exact E|].
  rewrite E.
  pose proof (count_effective_le initial scanned []); lia.
Qed.

(** C6 fails as stated: a semicolon after a blank buffer is counted and
    emits nothing. *)
Lemma blank_semicolons_emit_nothing :
  let scanned := strip_comments (txt "   ;  ;  ") in
  List.length (_split_sql_statements (txt "   ;  ;  ")) = 0 /\
  count_steps top_level_semicolon initial scanned []
  + count_steps region_closure initial scanned []
  + trailing (run initial scanned []) = 2.
Proof. split; reflexivity. Qed.

(** ** Unterminated quotes *)

Module LiteralFacts.

(** A quote character outside literals and regions opens a literal. *)
Lemma open_quote st q (r : text) :
  is_quote q = true -> in_string st = false -> in_tblproperties st = false ->
  step st q r = {| statements := statements st;
                   current := current st ++ [q];
                   in_string := true;
                   in_tblproperties := false;
                   string_delimiter := Some q |}.
Proof.
  intros Hq Hs Ht; unfold step.
  rewrite Hq, Hs, Ht, (no_keyword_at q r (quote_not_letter q Hq)); reflexivity.
Qed.

(** With no keyword ahead and no delimiter, a literal takes everything. *)
Lemma literal_takes_all st q (s after : text) :
  in_string st = true -> string_delimiter st = Some q ->
  in_tblproperties st = false ->
  ~ In q s -> keyword_free (s ++ after) = true ->
  run st s after = {| statements := statements st;
                      current := current st ++ s;
                      in_string := true;
                      in_tblproperties := false;
                      string_delimiter := Some q |}.
Proof.
  revert st; induction s as [|c s IH]; intros st Hs Hq Ht Hn Hk.
  - simpl; rewrite app_nil_r, <- Hs, <- Hq, <- Ht; destruct st; reflexivity.
  - apply not_in_cons in Hn as [Hc Hn].
    simpl in Hk; apply andb_true_iff in Hk as [Hk1 Hk2].
    apply negb_true_iff in Hk1.
    assert (E : step st c (s ++ after)
                = {| statements := statements st;
                     current := current st ++ [c];
                     in_string := true;
                     in_tblproperties := false;
                     string_delimiter := Some q |}).
    { unfold step; rewrite Hs, Hq, Ht, Hk1.
      change (is_delimiter c (Some q)) with (Ascii.eqb c q); rewrite Hc.
      cbn [negb andb orb]; rewrite !andb_false_r; reflexivity. }
    simpl; rewrite E, IH; simpl; auto.
    rewrite <- app_assoc; reflexivity.
Qed.

Lemma keyword_free_app (a b : text) :
  keyword_free (a ++ b) = true -> keyword_free b = true.
Proof.
  induction a as [|c a IH]; simpl; [auto|].
  intros H; apply andb_true_iff in H as [_ H]; auto.
Qed.

End LiteralFacts.

Import LiteralFacts.

(** C5, as the code has it.  After a quote that opens a literal and has no
    matching delimiter later, the scan stays in the literal to the end: no
    semicolon is a split point, and the only statement boundaries are the
    closing parentheses of TBLPROPERTIES regions met in the remainder.  When
    the remainder holds no keyword, all of it is folded into the one
    trailing statement. *)
Theorem unterminated_quote_folds_remainder :
  forall (pre rest : text) (q : ascii),
    let st := run initial pre (q :: rest) in
    is_quote q = true ->
    in_string st = false ->
    in_tblproperties st = false ->
    ~ In q rest ->
    (forall (a : text) (c : ascii) (b : text),
        rest = a ++ c :: b ->
        let s := run initial (pre ++ q :: a) (c :: b) in
        in_string s = true /\
        (statements (step s c b) <> statements s ->
         c = ")" /\ region_active s c b = true))
    /\ (keyword_free rest = true ->
        statements (run initial (pre ++ q :: rest) []) = statements st /\
        split_scanned (pre ++ q :: rest)
        = finish (statements st ++ [strip (current st ++ q :: rest)])).
Proof.
  intros pre rest q st Hq Hs Ht Hn.
  assert (Eo : forall r, step st q r
                         = {| statements := statements st;
                              current := current st ++ [q];
                              in_string := true;
                              in_tblproperties := false;
                              string_delimiter := Some q |})
    by (intros r; apply open_quote; assumption).
  split.
  - intros a c b Er s.
    assert (Es : s = run (step st q (a ++ c :: b)) a (c :: b)).
    { subst s st; rewrite run_app, Er; reflexivity. }
    assert (Hin : in_string s = true).
    { rewrite Es, Eo.
      apply (literal_run _ q a (c :: b)); simpl; auto.
      intros K; apply Hn; rewrite Er; apply in_or_app; left; exact K. }
    split; [exact Hin|].
    intros Hd; rewrite step_statements in Hd.
    destruct (action_of s c b) eqn:A; [congruence | |].
    + apply action_split in A; unfold top_level_semicolon in A.
      rewrite Hin, andb_false_r in A; discriminate.
    + apply action_close in A; unfold region_closure in A.
      apply andb_true_iff in A as [A1 A2].
      apply Ascii.eqb_eq in A1; auto.
  - intros Hk.
    assert (E : run initial (pre ++ q :: rest) []
                = {| statements := statements st;
                     current := current st ++ q :: rest;
                     in_string := true;
                     in_tblproperties := false;
                     string_delimiter := Some q |}).
    { rewrite run_app; simpl run; rewrite !app_nil_r; fold st.
      rewrite Eo, literal_takes_all with (q := q); simpl; auto.
      - rewrite <- app_assoc; reflexivity.
      - rewrite app_nil_r; exact Hk. }
    split; [rewrite E; reflexivity|].
    unfold split_scanned, flush; rewrite E; simpl.
    unfold append_stripped.
    replace (truthy (strip (current st ++ q :: rest))) with true; [reflexivity|].
    symmetry; apply negb_false_iff.
    apply (not_blank _ q); [apply in_or_app; right; left; reflexivity|].
    apply quote_not_space, Hq.
Qed.

Lemma unterminated_quote_folds_remainder_witness :
  let pre := txt "SELECT 1; SELECT " in
  let rest := txt "a; b -- c ) ; d" in
  let st := run initial pre ("'" :: rest) in
  (is_quote "'" = true /\ in_string st = false /\ in_tblproperties st = false /\
   keyword_free rest = true) /\
  in_string (run initial (pre ++ "'" :: txt "a") (";" :: txt " b -- c ) ; d")) = true /\
  split_scanned (pre ++ "'" :: rest)
  = [txt "SELECT 1;"; txt "SELECT 'a; b -- c ) ; d;"].
Proof.
  intros pre rest st.
  assert (Hq : is_quote "'" = true) by reflexivity.
  assert (Hs : in_string st = false) by (vm_compute; reflexivity).
  assert (Ht : in_tblproperties st = false) by (vm_compute; reflexivity).
  assert (Hk : keyword_free rest = true) by (vm_compute; reflexivity).
  assert (Hn : ~ In "'" rest) by (simpl; intuition discriminate).
  split; [auto|].
  destruct (unterminated_quote_folds_remainder pre rest "'" Hq Hs Ht Hn) as [H1 H2].
  split.
  - exact (proj1 (H1 (txt "a") ";" (txt " b -- c ) ; d") eq_refl)).
  - rewrite (proj2 (H2 Hk)); vm_compute; reflexivity.
Defined.

(** C5 fails as stated: a keyword in the remainder opens a region, whose
    closing parenthesis ends a statement inside the unterminated literal. *)
Lemma unterminated_quote_split_at_region_close :
  let pre := txt "SELECT " in
  let rest := txt "abc TBLPROPERTIES (x) ; y" in
  let st := run initial pre ("'" :: rest) in
  (in_string st = false /\ in_tblproperties st = false /\ ~ In "'" rest) /\
  _split_sql_statements (pre ++ "'" :: rest)
  = [txt "SELECT 'abc TBLPROPERTIES (x);"; txt "; y;"] /\
  _split_sql_statements (pre ++ "'" :: rest)
  <> finish (statements st ++ [strip (current st ++ "'" :: rest)]).
Proof.
  intros pre rest st.
  split; [split; [|split]|split].
  - vm_compute; reflexivity.
  - vm_compute; reflexivity.
  - simpl; intuition discriminate.
  - vm_compute; reflexivity.
  - intros H; vm_compute in H; discriminate H.
Qed.

(** ** Substitution *)

Module ReFacts.

Section Sub.

Variable p : Re.pattern.
Variable repl : text -> text.
Hypothesis Hp : consumes p.

Lemma consumes_shorter s m r : p s = Some (m, r) -> List.length r < List.length s.
Proof.
  intros H; apply Hp in H as [-> Hm].
  rewrite length_app; destruct m; [congruence | simpl; lia].
Qed.

Lemma no_match_nil : forall m r, p [] <> Some (m, r).
Proof.
  intros m r H; apply Hp in H as [E Hm].
  destruct m; [congruence | discriminate].
Qed.

(** The result does not depend on the fuel, once it covers the text. *)
Lemma sub_fuel_any fuel : forall fuel' s,
  List.length s <= fuel -> List.length s <= fuel' ->
  Re.sub_fuel fuel p repl s = Re.sub_fuel fuel' p repl s.
Proof.
  induction fuel as [|fuel IH]; intros fuel' s L L'.
  - destruct s; [|simpl in L; lia].
    destruct fuel'; simpl; [reflexivity|].
    destruct (p []) as [[m r]|] eqn:E; [|reflexivity].
    exfalso; exact (no_match_nil m r E).
  - destruct fuel' as [|fuel'].
    + destruct s; [|simpl in L'; lia]. simpl.
      destruct (p []) as [[m r]|] eqn:E; [|reflexivity].
      exfalso; exact (no_match_nil m r E).
    + simpl. destruct (p s) as [[m r]|] eqn:E.
      * pose proof (consumes_shorter s m r E).
        f_equal; apply IH; lia.
      * destruct s as [|c s]; [reflexivity|].
        simpl in L, L'; f_equal; apply IH; lia.
Qed.

Lemma sub_nil : Re.sub p repl [] = [].
Proof. reflexivity. Qed.

(** Where the pattern matches, the match is replaced and the scan goes on
    after it. *)
Lemma sub_match s m r :
  p s = Some (m, r) -> Re.sub p repl s = repl m ++ Re.sub p repl r.
Proof.
  intros E; unfold Re.sub.
  pose proof (consumes_shorter s m r E) as L.
  destruct (List.length s) as [|n] eqn:En; [lia|].
  simpl; rewrite E; f_equal.
  apply sub_fuel_any; lia.
Qed.

(** Where it does not, the character is copied. *)
Lemma sub_skip c s :
  p (c :: s) = None -> Re.sub p repl (c :: s) = c :: Re.sub p repl s.
Proof. intros E; unfold Re.sub; simpl; rewrite E; reflexivity. Qed.

End Sub.

(** *** The two patterns *)

Lemma until_eol_spec (s : text) :
  s = fst (until_eol s) ++ snd (until_eol s) /\
  ~ In LF (fst (until_eol s)) /\
  (snd (until_eol s) = [] \/ exists r, snd (until_eol s) = LF :: r).
Proof.
  induction s as [|c s (E & Hn & Hr)]; simpl.
  - auto.
  - destruct (Ascii.eqb c LF) eqn:Ec.
    + apply Ascii.eqb_eq in Ec; subst c; simpl.
      split; [reflexivity|]. split; [intros []|right; eexists; reflexivity].
    + destruct (until_eol s) as [m r]; simpl in *.
      split; [f_equal; exact E|]. split; [|exact Hr].
      intros [K|K]; [|auto].
      subst c; rewrite Ascii.eqb_refl in Ec; discriminate.
Qed.

Lemma until_eol_app (mid rest : text) :
  ~ In LF mid -> (rest = [] \/ exists r, rest = LF :: r) ->
  until_eol (mid ++ rest) = (mid, rest).
Proof.
  intros Hn Hr; induction mid as [|c mid IH]; simpl.
  - destruct Hr as [->|(r & ->)]; [reflexivity|].
    cbn [app until_eol]; rewrite Ascii.eqb_refl; reflexivity.
  - apply not_in_cons in Hn as [Hc Hn].
    rewrite Hc, (IH Hn); reflexivity.
Qed.

Lemma line_comment_consumes : consumes line_comment.
Proof.
  intros s m r; unfold line_comment.
  destruct s as [|c [|d s]]; try discriminate.
  destruct (Ascii.eqb c "-" && Ascii.eqb d "-"); [|discriminate].
  destruct (until_eol_spec s) as (E & _).
  destruct (until_eol s) as [m' r']; simpl in E.
  intros H; injection H as <- <-; split; [|discriminate].
  simpl; rewrite E at 1; reflexivity.
Qed.

Lemma until_close_sound (s : text) : forall m r,
  until_close s = Some (m, r) -> s = m ++ r.
Proof.
  induction s as [|c s IH]; intros m r; simpl; [discriminate|].
  destruct s as [|d s']; [discriminate|].
  destruct (Ascii.eqb c "*" && Ascii.eqb d "/").
  - intros H; injection H as <- <-; reflexivity.
  - destruct (until_close (d :: s')) as [[m' r']|]; [|discriminate].
    intros H; injection H as <- <-.
    simpl; f_equal; apply IH; reflexivity.
Qed.

Lemma block_comment_consumes : consumes block_comment.
Proof.
  intros s m r; unfold block_comment.
  destruct s as [|c [|d s]]; try discriminate.
  destruct (Ascii.eqb c "/" && Ascii.eqb d "*"); [|discriminate].
  destruct (until_close s) as [[m' r']|] eqn:E; [|discriminate].
  intros H; injection H as <- <-; split; [|discriminate].
  simpl; rewrite (until_close_sound s m' r' E); reflexivity.
Qed.

Lemma until_close_cons c d (r : text) :
  until_close (c :: d :: r)
  = if Ascii.eqb c "*" && Ascii.eqb d "/" then Some ([c; d], r)
    else match until_close (d :: r) with
         | Some (m, r') => Some (c :: m, r')
         | None => None
         end.
Proof. reflexivity. Qed.

(** The first star slash ends the match. *)
Lemma until_close_app (body post : text) :
  occurs_in (txt "*/") body = false ->
  until_close (body ++ txt "*/" ++ post) = Some (body ++ txt "*/", post).
Proof.
  induction body as [|c body IH]; intros Hn.
  - reflexivity.
  - simpl in Hn; apply orb_false_iff in Hn as [Hp Hn].
    specialize (IH Hn).
    change ((c :: body) ++ txt "*/" ++ post) with (c :: (body ++ txt "*/" ++ post)).
    destruct (body ++ txt "*/" ++ post) as [|d s'] eqn:Eb.
    { destruct body; discriminate. }
    rewrite until_close_cons.
    assert (Hcd : Ascii.eqb c "*" && Ascii.eqb d "/" = false).
    { destruct body as [|e body].
      - simpl in Eb; injection Eb as <- _; apply andb_false_r.
      - simpl in Eb; injection Eb as <- _.
        change (Ascii.eqb "*" c && (Ascii.eqb "/" e && true) = false) in Hp.
        rewrite andb_true_r in Hp.
        rewrite (Ascii.eqb_sym c), (Ascii.eqb_sym e); exact Hp. }
    rewrite Hcd, IH; reflexivity.
Qed.

End ReFacts.

Import ReFacts.

(** ** Comments *)

Module CommentFacts.

Lemma remove_line_comments_match (s m r : text) :
  line_comment s = Some (m, r) ->
  remove_line_comments s = remove_line_comments r.
Proof.
  intros E; unfold remove_line_comments.
  rewrite (sub_match line_comment _ line_comment_consumes s m r E); reflexivity.
Qed.

Lemma remove_line_comments_skip c (s : text) :
  line_comment (c :: s) = None ->
  remove_line_comments (c :: s) = c :: remove_line_comments s.
Proof. apply sub_skip. Qed.

Lemma remove_block_comments_match (s m r : text) :
  block_comment s = Some (m, r) ->
  remove_block_comments s = remove_comments m ++ remove_block_comments r.
Proof. apply sub_match, block_comment_consumes. Qed.

Lemma remove_block_comments_skip c (s : text) :
  block_comment (c :: s) = None ->
  remove_block_comments (c :: s) = c :: remove_block_comments s.
Proof. apply sub_skip. Qed.

Lemma line_comment_none c (s : text) :
  Ascii.eqb c "-" && hyphen_ahead s = false -> line_comment (c :: s) = None.
Proof.
  unfold line_comment; destruct s as [|d s]; [reflexivity|].
  cbn [hyphen_ahead]; rewrite (Ascii.eqb_sym "-" d); intros ->; reflexivity.
Qed.

Lemma line_comment_none_inv c (s : text) :
  line_comment (c :: s) = None -> Ascii.eqb c "-" && hyphen_ahead s = false.
Proof.
  unfold line_comment; destruct s as [|d s]; [intros _; apply andb_false_r|].
  cbn [hyphen_ahead]; rewrite (Ascii.eqb_sym "-" d).
  destruct (Ascii.eqb c "-" && Ascii.eqb d "-"); [|reflexivity].
  destruct (until_eol s); discriminate.
Qed.

Lemma hyphen_ahead_removed (s : text) :
  hyphen_ahead s = false -> hyphen_ahead (remove_line_comments s) = false.
Proof.
  destruct s as [|d s]; [reflexivity|]; cbn [hyphen_ahead]; intros H.
  rewrite remove_line_comments_skip; [exact H|].
  apply line_comment_none; rewrite (Ascii.eqb_sym d), H; reflexivity.
Qed.

Lemma occurs_hyphens_cons c (s : text) :
  occurs_in (txt "--") (c :: s)
  = Ascii.eqb "-" c && hyphen_ahead s || occurs_in (txt "--") s.
Proof.
  destruct s as [|d s]; simpl; [rewrite andb_false_r; reflexivity|].
  rewrite andb_true_r; reflexivity.
Qed.

(** What line 203 returns holds no two hyphens in a row. *)
Lemma no_hyphens_left (s : text) :
  occurs_in (txt "--") (remove_line_comments s) = false.
Proof.
  remember (List.length s) as n eqn:En.
  assert (L : List.length s <= n) by lia; clear En.
  revert s L; induction n as [|n IH]; intros s L.
  - destruct s; [reflexivity | simpl in L; lia].
  - destruct (line_comment s) as [[m r]|] eqn:E.
    + rewrite (remove_line_comments_match s m r E); apply IH.
      pose proof (consumes_shorter line_comment line_comment_consumes s m r E); lia.
    + destruct s as [|c s]; [reflexivity|].
      rewrite (remove_line_comments_skip c s E), occurs_hyphens_cons.
      simpl in L; rewrite IH by lia; rewrite orb_false_r.
      apply line_comment_none_inv in E.
      destruct (Ascii.eqb "-" c) eqn:Ec; [|reflexivity].
      rewrite (Ascii.eqb_sym c), Ec in E; simpl in E.
      simpl; apply hyphen_ahead_removed, E.
Qed.

(** A comment that starts at the first two hyphens goes up to the line
    feed, wherever it stands. *)
Lemma line_comment_removed (pre mid rest : text) :
  occurs_in (txt "--") (pre ++ ["-"]) = false -> ~ In LF mid ->
  (rest = [] \/ exists r, rest = LF :: r) ->
  remove_line_comments (pre ++ txt "--" ++ mid ++ rest)
  = pre ++ remove_line_comments rest.
Proof.
  intros Hp Hm Hr; induction pre as [|c pre IH].
  - simpl app.
    apply (remove_line_comments_match _ (txt "--" ++ mid)).
    unfold line_comment; simpl.
    rewrite (until_eol_app mid rest Hm Hr); reflexivity.
  - change ((c :: pre) ++ ["-"]) with (c :: (pre ++ ["-"])) in Hp.
    rewrite occurs_hyphens_cons in Hp; apply orb_false_iff in Hp as [Hc Hp].
    change ((c :: pre) ++ txt "--" ++ mid ++ rest)
      with (c :: (pre ++ txt "--" ++ mid ++ rest)).
    rewrite remove_line_comments_skip, (IH Hp); [reflexivity|].
    apply line_comment_none.
    rewrite (Ascii.eqb_sym c).
    destruct pre; exact Hc.
Qed.

Lemma block_comment_none c (s : text) :
  Ascii.eqb "/" c && prefix ["*"] s = false -> block_comment (c :: s) = None.
Proof.
  unfold block_comment; destruct s as [|d s]; [reflexivity|].
  cbn [prefix]; rewrite andb_true_r, (Ascii.eqb_sym c), (Ascii.eqb_sym d).
  intros ->; reflexivity.
Qed.

(** The first block comment of a text: what stands before it is copied and
    the callback decides on the comment. *)
Lemma first_block_comment (pre body post : text) :
  occurs_in (txt "/*") pre = false ->
  occurs_in (txt "*/") body = false ->
  remove_block_comments (pre ++ txt "/*" ++ body ++ txt "*/" ++ post)
  = pre ++ remove_comments (txt "/*" ++ body ++ txt "*/")
        ++ remove_block_comments post.
Proof.
  intros Hp Hb; induction pre as [|c pre IH].
  - change ([] ++ txt "/*" ++ body ++ txt "*/" ++ post)
      with ("/" :: "*" :: (body ++ txt "*/" ++ post)).
    rewrite (remove_block_comments_match _ (txt "/*" ++ body ++ txt "*/") post);
      [reflexivity|].
    unfold block_comment.
    rewrite !Ascii.eqb_refl; cbn [andb].
    rewrite (until_close_app body post Hb); reflexivity.
  - cbn [occurs_in] in Hp; apply orb_false_iff in Hp as [Hc Hp].
    change ((c :: pre) ++ txt "/*" ++ body ++ txt "*/" ++ post)
      with (c :: (pre ++ txt "/*" ++ body ++ txt "*/" ++ post)).
    rewrite remove_block_comments_skip, (IH Hp); [reflexivity|].
    apply block_comment_none.
    destruct pre as [|d pre]; [apply andb_false_r|].
    exact Hc.
Qed.

End CommentFacts.

Import CommentFacts.

(** C8. A block comment, from slash star to the first star slash after it,
    line breaks included, is kept as it is when its upper-case form holds
    one of the three markers, and is replaced by the empty string when it
    holds none.  The text before the first comment is copied, and the
    comments after it are treated the same way in turn. *)
Theorem block_comment_kept_or_removed :
  (forall content : text,
      protected content = true -> remove_comments content = content)
  /\ (forall content : text,
         protected content = false -> remove_comments content = [])
  /\ (forall pre body post : text,
         let comment := txt "/*" ++ body ++ txt "*/" in
         occurs_in (txt "/*") pre = false ->
         occurs_in (txt "*/") body = false ->
         (protected comment = true ->
          remove_block_comments (pre ++ comment ++ post)
          = pre ++ comment ++ remove_block_comments post) /\
         (protected comment = false ->
          remove_block_comments (pre ++ comment ++ post)
          = pre ++ remove_block_comments post)).
Proof.
  assert (K : forall content, protected content = true ->
                              remove_comments content = content).
  { intros content H; unfold remove_comments; fold (protected content).
    rewrite H; reflexivity. }
  assert (R : forall content, protected content = false ->
                              remove_comments content = []).
  { intros content H; unfold remove_comments; fold (protected content).
    rewrite H; reflexivity. }
  split; [exact K|]. split; [exact R|].
  intros pre body post comment Hp Hb.
  assert (E : remove_block_comments (pre ++ comment ++ post)
              = pre ++ remove_comments comment ++ remove_block_comments post).
  { subst comment; rewrite <- (first_block_comment pre body post Hp Hb).
    rewrite <- !app_assoc; reflexivity. }
  split; intros H; rewrite E; [rewrite (K _ H) | rewrite (R _ H)]; reflexivity.
Qed.

Lemma block_comment_kept_or_removed_witness :
  let kept := txt "/*" ++ (txt " create table t;" ++ [LF] ++ txt " see below ")
                       ++ txt "*/" in
  let dropped := txt "/*" ++ (txt " a note;" ++ [LF] ++ txt " no marker ")
                          ++ txt "*/" in
  (protected kept = true /\ protected dropped = false) /\
  remove_comments kept = kept /\
  remove_comments dropped = [] /\
  remove_block_comments (txt "SELECT 1; " ++ kept ++ txt " SELECT 2;")
  = txt "SELECT 1; " ++ kept ++ remove_block_comments (txt " SELECT 2;") /\
  remove_block_comments (txt "SELECT 1; " ++ dropped ++ txt " SELECT 2;")
  = txt "SELECT 1; " ++ remove_block_comments (txt " SELECT 2;").
Proof.
  intros kept dropped.
  assert (Hk : protected kept = true) by (vm_compute; reflexivity).
  assert (Hd : protected dropped = false) by (vm_compute; reflexivity).
  destruct block_comment_kept_or_removed as (K & R & F).
  split; [auto|]. split; [exact (K kept Hk)|]. split; [exact (R dropped Hd)|].
  split.
  - exact (proj1 (F (txt "SELECT 1; ")
                    (txt " create table t;" ++ [LF] ++ txt " see below ")
                    (txt " SELECT 2;") eq_refl eq_refl) Hk).
  - exact (proj2 (F (txt "SELECT 1; ")
                    (txt " a note;" ++ [LF] ++ txt " no marker ")
                    (txt " SELECT 2;") eq_refl eq_refl) Hd).
Defined.

(** C9. Line comments are removed from the whole text before block comments
    are looked for.  The removal takes no notice of what surrounds the two
    hyphens: from the first two hyphens to the end of the line everything
    goes, inside a block comment and inside a literal as well, so the text
    the block comment pattern sees holds no two hyphens in a row, and a
    protected comment that had them is not kept as it was. *)
Theorem line_comments_removed_first :
  (forall sql_content : text,
      _split_sql_statements sql_content
      = split_scanned
          (normalize_whitespace
             (remove_block_comments (remove_line_comments sql_content))))
  /\ (forall sql_content : text,
         occurs_in (txt "--") (remove_line_comments sql_content) = false)
  /\ (forall pre mid rest : text,
         occurs_in (txt "--") (pre ++ ["-"]) = false ->
         ~ In LF mid ->
         remove_line_comments (pre ++ txt "--" ++ mid ++ LF :: rest)
         = pre ++ LF :: remove_line_comments rest /\
         remove_line_comments (pre ++ txt "--" ++ mid) = pre)
  /\ (remove_line_comments (txt "/* CREATE -- x */ SELECT 1;") = txt "/* CREATE "
      /\ _split_sql_statements (txt "/* CREATE -- x */ SELECT 1;")
         = [txt "/* CREATE;"])
  /\ strip_comments (txt "/* CREATE TABLE -- old" ++ [LF] ++ txt "t */ SELECT 1;")
     = txt "/* CREATE TABLE" ++ [LF] ++ txt "t */ SELECT 1;"
  /\ _split_sql_statements (txt "SELECT '--x' FROM t;") = [txt "SELECT ';"].
Proof.
  split; [reflexivity|].
  split; [exact no_hyphens_left|].
  split; [|repeat split; vm_compute; reflexivity].
  intros pre mid rest Hp Hm; split.
  - rewrite (line_comment_removed pre mid (LF :: rest) Hp Hm);
      [|right; eexists; reflexivity].
    rewrite remove_line_comments_skip; [reflexivity|].
    apply line_comment_none; reflexivity.
  - pose proof (line_comment_removed pre mid [] Hp Hm (or_introl eq_refl)) as H.
    rewrite !app_nil_r in H; exact H.
Qed.

Lemma line_comments_removed_first_witness :
  let pre := txt "/* CREATE TABLE " in
  let mid := txt " old" in
  let rest := txt "t */ SELECT 1;" in
  occurs_in (txt "--") (pre ++ ["-"]) = false /\
  remove_line_comments (pre ++ txt "--" ++ mid ++ LF :: rest)
  = pre ++ LF :: remove_line_comments rest /\
  remove_line_comments (pre ++ txt "--" ++ mid) = pre.
Proof.
  intros pre mid rest.
  assert (Hp : occurs_in (txt "--") (pre ++ ["-"]) = false)
    by (vm_compute; reflexivity).
  assert (Hm : ~ In LF mid) by (simpl; intuition discriminate).
  split; [exact Hp|].
  exact (proj1 (proj2 (proj2 line_comments_removed_first)) pre mid rest Hp Hm).
Defined.

(** ** Control and data of the loop *)

Module ControlFacts.

Lemma same_control_refl st : same_control st st.
Proof. repeat split. Qed.

Lemma same_control_sym st st' : same_control st st' -> same_control st' st.
Proof.
  intros (A & B & C); repeat split; try congruence.
  intros H; symmetry; apply C; congruence.
Qed.

Lemma same_control_trans st1 st2 st3 :
  same_control st1 st2 -> same_control st2 st3 -> same_control st1 st3.
Proof.
  intros (A & B & C) (A' & B' & C'); repeat split; try congruence.
  intros H; rewrite (C H); apply C'; congruence.
Qed.

(** The branch taken depends on the flags and, in a literal, on the
    delimiter. *)
Lemma action_same_control st st' c r :
  same_control st st' -> action_of st c r = action_of st' c r.
Proof.
  intros (A & B & C); unfold action_of; rewrite <- A, <- B.
  destruct (in_string st) eqn:Es.
  - rewrite <- (C eq_refl); reflexivity.
  - rewrite !andb_false_r; reflexivity.
Qed.

Lemma step_same_control st st' c r :
  same_control st st' -> same_control (step st c r) (step st' c r).
Proof.
  intros (A & B & C); unfold step, same_control; rewrite <- A, <- B.
  destruct (in_string st) eqn:Es.
  - rewrite <- (C eq_refl).
    case_ifs;
      simpl; repeat split; auto; discriminate.
  - rewrite !andb_false_r; cbn [negb andb].
    case_ifs;
      simpl; repeat split; auto; discriminate.
Qed.

Lemma step_similar st st' c r :
  similar st st' -> similar (step st c r) (step st' c r).
Proof.
  intros (A & B & C); repeat split.
  - rewrite !step_statements, (action_same_control st st' c r C), A, B; reflexivity.
  - rewrite !step_current, (action_same_control st st' c r C), B; reflexivity.
  - apply step_same_control, C.
  - apply step_same_control, C.
  - apply step_same_control, C.
Qed.

Lemma run_same_control st st' (s after : text) :
  same_control st st' -> same_control (run st s after) (run st' s after).
Proof.
  revert st st'; induction s as [|c s IH]; intros st st' H; simpl; [exact H|].
  apply IH, step_same_control, H.
Qed.

Lemma run_similar st st' (s after : text) :
  similar st st' -> similar (run st s after) (run st' s after).
Proof.
  revert st st'; induction s as [|c s IH]; intros st st' H; simpl; [exact H|].
  apply IH, step_similar, H.
Qed.

Lemma flush_similar st st' : similar st st' -> flush st = flush st'.
Proof. intros (A & B & _); unfold flush; rewrite A, B; reflexivity. Qed.

(** The statements a state starts with stay in front. *)
Lemma append_stripped_app (l l' : list text) (cur : text) :
  append_stripped (l ++ l') cur = l ++ append_stripped l' cur.
Proof.
  unfold append_stripped; destruct (truthy (strip cur));
    [rewrite app_assoc|]; reflexivity.
Qed.

Lemma step_with_statements l st c r :
  step (with_statements (l ++ statements st) st) c r
  = with_statements (l ++ statements (step st c r)) (step st c r).
Proof.
  unfold step, with_statements; simpl.
  case_ifs;
    simpl; rewrite ?append_stripped_app; reflexivity.
Qed.

Lemma run_with_statements l st (s after : text) :
  run (with_statements (l ++ statements st) st) s after
  = with_statements (l ++ statements (run st s after)) (run st s after).
Proof.
  revert st; induction s as [|c s IH]; intros st; simpl; [reflexivity|].
  rewrite step_with_statements, IH; reflexivity.
Qed.

Lemma flush_with_statements l st :
  flush (with_statements (l ++ statements st) st) = l ++ flush st.
Proof. unfold flush; simpl; apply append_stripped_app. Qed.

(** What the loop returns from a state is the statements of the state,
    then what it returns from the state with none. *)
Lemma flush_run_prefix st (s after : text) :
  flush (run st s after)
  = statements st ++ flush (run (with_statements [] st) s after).
Proof.
  pose proof (run_with_statements (statements st) (with_statements [] st) s after) as H.
  simpl in H; rewrite app_nil_r in H.
  replace (with_statements (statements st) (with_statements [] st)) with st in H
    by (destruct st; reflexivity).
  rewrite H, flush_with_statements; reflexivity.
Qed.

(** Iterations that only append. *)
Lemma all_steps_app p st (a b x : text) :
  all_steps p st (a ++ b) x
  = all_steps p st a (b ++ x) && all_steps p (run st a (b ++ x)) b x.
Proof.
  revert st; induction a as [|c a IH]; intros st; simpl; [reflexivity|].
  rewrite IH, <- app_assoc, andb_assoc; reflexivity.
Qed.

Lemma all_steps_same_control p st st' (s after : text) :
  (forall st st' c r, same_control st st' -> p st c r = p st' c r) ->
  same_control st st' -> all_steps p st s after = all_steps p st' s after.
Proof.
  intros Hp; revert st st'; induction s as [|c s IH]; intros st st' H; simpl;
    [reflexivity|].
  rewrite (Hp st st' c _ H); f_equal.
  apply IH, step_same_control, H.
Qed.

Lemma quiet_same_control st st' c r :
  same_control st st' -> quiet st c r = quiet st' c r.
Proof. intros H; unfold quiet; rewrite (action_same_control st st' c r H); reflexivity. Qed.

Lemma closes_same_control st st' c r :
  same_control st st' ->
  closes_outside_quotes st c r = closes_outside_quotes st' c r.
Proof.
  intros (A & B & _).
  unfold closes_outside_quotes, region_closure, region_active.
  rewrite A, B; reflexivity.
Qed.

Lemma quiet_run st (s after : text) :
  all_steps quiet st s after = true ->
  statements (run st s after) = statements st /\
  current (run st s after) = current st ++ s.
Proof.
  revert st; induction s as [|c s IH]; intros st H; simpl.
  - rewrite app_nil_r; auto.
  - simpl in H; apply andb_true_iff in H as [Hq H].
    destruct (IH _ H) as [E1 E2]; rewrite E1, E2.
    rewrite step_statements, step_current.
    unfold quiet in Hq; destruct (action_of st c (s ++ after)); try discriminate.
    rewrite <- app_assoc; auto.
Qed.

End ControlFacts.

Import ControlFacts.

(** ** White space and lookahead *)

Module TrimFacts.

(** White space is appended and changes no flag. *)
Lemma space_step st c r :
  is_space c = true -> delimiter_ok st ->
  step st c r = {| statements := statements st;
                   current := current st ++ [c];
                   in_string := in_string st;
                   in_tblproperties := in_tblproperties st;
                   string_delimiter := string_delimiter st |}.
Proof.
  intros Hc Hd; unfold step.
  rewrite (no_keyword_at c r (space_not_letter c Hc)).
  rewrite (space_not_quote c Hc), (space_not_semicolon c Hc), (space_not_paren c Hc).
  cbn [andb orb].
  destruct (is_delimiter c (string_delimiter st) && in_string st) eqn:E;
    [|reflexivity].
  exfalso; apply andb_true_iff in E as [E Hs].
  destruct (Hd Hs) as (q & Eq & Hq); rewrite Eq in E; simpl in E.
  apply Ascii.eqb_eq in E; subst q.
  rewrite (space_not_quote c Hc) in Hq; discriminate.
Qed.

Lemma space_quiet st c r :
  is_space c = true -> delimiter_ok st -> quiet st c r = true.
Proof.
  intros Hc Hd; unfold quiet, action_of.
  rewrite (no_keyword_at c r (space_not_letter c Hc)).
  rewrite (space_not_quote c Hc), (space_not_semicolon c Hc), (space_not_paren c Hc).
  cbn [andb orb].
  destruct (is_delimiter c (string_delimiter st) && in_string st
            && negb (in_tblproperties st)); reflexivity.
Qed.

Lemma spaces_run st (ws after : text) :
  forallb is_space ws = true -> delimiter_ok st ->
  same_control (run st ws after) st /\ all_steps quiet st ws after = true.
Proof.
  revert st; induction ws as [|c ws IH]; intros st H Hd; simpl.
  - split; [apply same_control_refl | reflexivity].
  - simpl in H; apply andb_true_iff in H as [Hc H].
    rewrite (space_quiet st c _ Hc Hd); simpl.
    destruct (IH (step st c (ws ++ after)) H (delimiter_ok_step st c _ Hd)) as [A B].
    split; [|exact B].
    apply (same_control_trans _ _ _ A).
    rewrite (space_step st c _ Hc Hd); repeat split.
Qed.

(** An iteration looks ahead only through the keyword test. *)
Lemma step_lookahead st c (r r' : text) :
  at_tblproperties (c :: r) = at_tblproperties (c :: r') ->
  step st c r = step st c r'.
Proof. unfold step; intros ->; reflexivity. Qed.

Lemma quiet_lookahead st c (r r' : text) :
  at_tblproperties (c :: r) = at_tblproperties (c :: r') ->
  quiet st c r = quiet st c r'.
Proof. unfold quiet, action_of; intros ->; reflexivity. Qed.

Lemma run_lookahead st (s x y : text) :
  no_letter_ahead x -> no_letter_ahead y -> run st s x = run st s y.
Proof.
  intros Hx Hy; revert st; induction s as [|c s IH]; intros st; simpl;
    [reflexivity|].
  rewrite (step_lookahead st c (s ++ x) (s ++ y)); [apply IH|].
  exact (keyword_lookahead (c :: s) x y Hx Hy).
Qed.

Lemma all_quiet_lookahead st (s x y : text) :
  no_letter_ahead x -> no_letter_ahead y ->
  all_steps quiet st s x = all_steps quiet st s y.
Proof.
  intros Hx Hy; revert st; induction s as [|c s IH]; intros st; simpl;
    [reflexivity|].
  assert (K : at_tblproperties (c :: s ++ x) = at_tblproperties (c :: s ++ y))
    by exact (keyword_lookahead (c :: s) x y Hx Hy).
  rewrite (quiet_lookahead st c _ _ K), (step_lookahead st c _ _ K), IH.
  reflexivity.
Qed.

Lemma no_letter_ahead_spaces (ws x : text) :
  forallb is_space ws = true -> no_letter_ahead x -> no_letter_ahead (ws ++ x).
Proof.
  destruct ws as [|c ws]; simpl; [auto|].
  intros H _; apply andb_true_iff in H as [H _].
  apply space_not_letter, H.
Qed.

(** Scanning a buffer and scanning it without the white space around it
    take the same branches and end with the same flags. *)
Lemma trimmed_run st0 st1 (ws1 core ws2 x y : text) :
  forallb is_space ws1 = true -> forallb is_space ws2 = true ->
  no_letter_ahead x -> no_letter_ahead y ->
  delimiter_ok st0 -> same_control st0 st1 ->
  all_steps quiet st0 (ws1 ++ core ++ ws2) x = true ->
  all_steps quiet st1 core y = true /\
  same_control (run st1 core y) (run st0 (ws1 ++ core ++ ws2) x).
Proof.
  intros H1 H2 Hx Hy Hd Hc Hq.
  rewrite all_steps_app in Hq; apply andb_true_iff in Hq as [_ Hq].
  rewrite all_steps_app in Hq; apply andb_true_iff in Hq as [Hq _].
  rewrite !run_app.
  set (sA := run st0 ws1 ((core ++ ws2) ++ x)) in *.
  assert (HA : same_control sA st0) by (apply spaces_run; assumption).
  assert (HA1 : same_control st1 sA).
  { apply same_control_sym, (same_control_trans _ _ _ HA Hc). }
  assert (Hl : no_letter_ahead (ws2 ++ x))
    by (apply no_letter_ahead_spaces; assumption).
  split.
  - rewrite (all_quiet_lookahead st1 core y (ws2 ++ x) Hy Hl).
    rewrite (all_steps_same_control quiet st1 sA core _ quiet_same_control HA1).
    exact Hq.
  - set (sB := run sA core (ws2 ++ x)).
    assert (HB : same_control (run sB ws2 x) sB).
    { apply spaces_run; [exact H2|].
      apply delimiter_ok_run, delimiter_ok_run, Hd. }
    apply same_control_sym, (same_control_trans _ _ _ HB), same_control_sym.
    rewrite (run_lookahead st1 core y (ws2 ++ x) Hy Hl).
    apply run_same_control, HA1.
Qed.

(** *** Semicolons at the end of the buffer *)

Lemma semicolon_guarded_step st c r :
  delimiter_ok st -> semicolon_guarded st -> quiet st c r = true ->
  semicolon_guarded (step st c r).
Proof.
  intros Hd Hg Hq; unfold semicolon_guarded.
  assert (A : action_of st c r = Append).
  { unfold quiet in Hq; destruct (action_of st c r); (reflexivity || discriminate). }
  rewrite step_current, A.
  destruct (is_space c) eqn:Hc.
  - rewrite (strip_snoc_space _ _ Hc), (space_step st c r Hc Hd); exact Hg.
  - rewrite (strip_snoc _ _ Hc), endswith_snoc; intros E.
    apply Ascii.eqb_eq in E; subst c.
    destruct (in_string st) eqn:Hs.
    + left; rewrite quoted_semicolon; auto.
    + right; rewrite step_in_tblproperties, A.
      destruct (region_active st ";" r) eqn:R; [reflexivity|].
      assert (T : top_level_semicolon st ";" r = true)
        by (unfold top_level_semicolon; rewrite Hs, R; reflexivity).
      apply action_split in T; congruence.
Qed.

Lemma semicolon_guarded_run st (s after : text) :
  delimiter_ok st -> semicolon_guarded st -> all_steps quiet st s after = true ->
  semicolon_guarded (run st s after).
Proof.
  revert st; induction s as [|c s IH]; intros st Hd Hg Hq; simpl; [exact Hg|].
  simpl in Hq; apply andb_true_iff in Hq as [Hq1 Hq2].
  apply IH; [apply delimiter_ok_step, Hd | | exact Hq2].
  apply semicolon_guarded_step; assumption.
Qed.

(** A buffer filled from the start of a statement, outside literals and
    regions, does not end with a semicolon. *)
Lemma no_semicolon_at_end (a x : text) :
  all_steps quiet initial a x = true ->
  in_string (run initial a x) = false ->
  in_tblproperties (run initial a x) = false ->
  endswith (strip a) ";" = false.
Proof.
  intros Hq Hs Ht.
  assert (G : semicolon_guarded (run initial a x)).
  { apply semicolon_guarded_run; [apply delimiter_ok_initial | | exact Hq].
    intros E; discriminate. }
  unfold semicolon_guarded in G.
  rewrite (proj2 (quiet_run initial a x Hq)) in G; simpl in G.
  destruct (endswith (strip a) ";"); [|reflexivity].
  destruct (G eq_refl); congruence.
Qed.

End TrimFacts.

Import TrimFacts.

(** ** Splitting again *)

Module RescanFacts.

(** A semicolon outside literals and regions ends the statement. *)
Lemma step_split st c r :
  top_level_semicolon st c r = true ->
  step st c r = {| statements := append_stripped (statements st) (current st);
                   current := [];
                   in_string := false;
                   in_tblproperties := false;
                   string_delimiter := string_delimiter st |}.
Proof.
  unfold top_level_semicolon, region_active; intros H.
  apply andb_true_iff in H as [H Ht]; apply andb_true_iff in H as [Hc Hs].
  apply Ascii.eqb_eq in Hc; subst c.
  apply negb_true_iff in Hs, Ht.
  unfold step; rewrite Hs, Ht.
  change (is_quote ";") with false; rewrite andb_false_r; reflexivity.
Qed.

Lemma top_level_at_boundary st (r : text) :
  in_string st = false -> in_tblproperties st = false ->
  top_level_semicolon st ";" r = true.
Proof.
  intros Hs Ht; unfold top_level_semicolon, region_active.
  rewrite Hs, Ht, (no_keyword_at ";" r eq_refl); reflexivity.
Qed.

(** From the state between two statements the loop goes on as from the
    start. *)
Lemma from_boundary st (z : text) :
  boundary st ->
  flush (run st z []) = statements st ++ flush (run initial z []).
Proof.
  intros (Hc & Hs & Ht); rewrite flush_run_prefix; f_equal.
  apply flush_similar, run_similar.
  repeat split; simpl; auto; congruence.
Qed.

(** The buffer of a statement, scanned again without the white space
    around it. *)
Lemma rescan_core st1 (ws1 core ws2 x y : text) :
  forallb is_space ws1 = true -> forallb is_space ws2 = true ->
  no_letter_ahead x -> no_letter_ahead y ->
  boundary st1 ->
  all_steps quiet initial (ws1 ++ core ++ ws2) x = true ->
  statements (run st1 core y) = statements st1 /\
  current (run st1 core y) = core /\
  same_control (run st1 core y) (run initial (ws1 ++ core ++ ws2) x).
Proof.
  intros H1 H2 Hx Hy (Hc & Hs & Ht) Hq.
  assert (C : same_control initial st1).
  { repeat split; simpl; auto; discriminate. }
  destruct (trimmed_run initial st1 ws1 core ws2 x y H1 H2 Hx Hy
              delimiter_ok_initial C Hq) as [Q S].
  destruct (quiet_run st1 core y Q) as [E1 E2].
  rewrite Hc in E2; auto.
Qed.

Lemma rescan_strip st1 (a x y : text) :
  no_letter_ahead x -> no_letter_ahead y -> boundary st1 ->
  all_steps quiet initial a x = true ->
  statements (run st1 (strip a) y) = statements st1 /\
  current (run st1 (strip a) y) = strip a /\
  same_control (run st1 (strip a) y) (run initial a x).
Proof.
  intros Hx Hy Hb Hq.
  destruct (strip_split a) as (ws1 & ws2 & E & H1 & H2).
  rewrite E in Hq.
  pose proof (rescan_core st1 ws1 (strip a) ws2 x y H1 H2 Hx Hy Hb Hq) as R.
  rewrite <- E in R; exact R.
Qed.

Lemma rescan_lstrip st1 (a x y : text) :
  no_letter_ahead x -> no_letter_ahead y -> boundary st1 ->
  all_steps quiet initial a x = true ->
  statements (run st1 (lstrip a) y) = statements st1 /\
  current (run st1 (lstrip a) y) = lstrip a /\
  same_control (run st1 (lstrip a) y) (run initial a x).
Proof.
  intros Hx Hy Hb Hq.
  destruct (lstrip_split a) as (ws1 & E & H1).
  assert (E' : a = ws1 ++ lstrip a ++ []) by (rewrite app_nil_r; exact E).
  rewrite E' in Hq.
  pose proof (rescan_core st1 ws1 (lstrip a) [] x y H1 eq_refl Hx Hy Hb Hq) as R.
  rewrite <- E' in R; exact R.
Qed.

Lemma flush_state l (cur : text) s t d :
  flush {| statements := l; current := cur; in_string := s;
           in_tblproperties := t; string_delimiter := d |}
  = append_stripped l cur.
Proof. reflexivity. Qed.

Lemma append_stripped_nil (l : list text) : append_stripped l [] = l.
Proof. reflexivity. Qed.

Lemma append_stripped_stripped (l : list text) (t : text) :
  stripped t -> append_stripped l t = l ++ [t].
Proof.
  intros [E H]; unfold append_stripped; rewrite E.
  destruct t; [congruence | reflexivity].
Qed.

Lemma terminate_open (t : text) :
  endswith t ";" = false -> terminate t = t ++ [";"].
Proof. intros E; unfold terminate; rewrite E; reflexivity. Qed.

Lemma terminate_closed (t : text) :
  endswith t ";" = true -> terminate t = t.
Proof. intros E; unfold terminate; rewrite E; reflexivity. Qed.

Lemma finish_one (t : text) : stripped t -> finish [t] = [terminate t].
Proof. intros H; apply finish_map; constructor; [exact H | constructor]. Qed.

(** A statement that a semicolon ended, and the text after it. *)
Lemma rescan_split_statement (cur r z : text) :
  all_steps quiet initial cur (";" :: r) = true ->
  in_string (run initial cur (";" :: r)) = false ->
  in_tblproperties (run initial cur (";" :: r)) = false ->
  blank cur = false ->
  flush (run initial ((strip cur ++ [";"]) ++ z) [])
  = strip cur :: flush (run initial z []).
Proof.
  intros Hq Hs Ht Hb.
  assert (St : stripped (strip cur)).
  { split; [apply strip_idem|].
    unfold blank in Hb; apply negb_false_iff, truthy_true in Hb; exact Hb. }
  rewrite run_app, app_nil_r, run_snoc.
  destruct (rescan_strip initial cur (";" :: r) (";" :: z)) as (E1 & E2 & C);
    [reflexivity | reflexivity | repeat split | exact Hq |].
  destruct C as (Cs & Ct & _).
  rewrite step_split by (apply top_level_at_boundary; congruence).
  rewrite E1, E2; simpl statements.
  rewrite (append_stripped_stripped [] _ St); cbn [app].
  rewrite from_boundary by (repeat split).
  reflexivity.
Qed.

(** A statement that a closing parenthesis ended, and the text after it. *)
Lemma rescan_closed_statement (cur r z : text) :
  all_steps quiet initial cur (")" :: r) = true ->
  in_string (run initial cur (")" :: r)) = false ->
  in_tblproperties (run initial cur (")" :: r)) = true ->
  flush (run initial ((strip (cur ++ [")"]) ++ [";"]) ++ z) [])
  = strip (cur ++ [")"]) :: flush (run initial z []).
Proof.
  intros Hq Hs Ht.
  rewrite (strip_snoc cur ")" eq_refl).
  replace (((lstrip cur ++ [")"]) ++ [";"]) ++ z)
    with (lstrip cur ++ [")"; ";"] ++ z)
    by (rewrite <- !app_assoc; reflexivity).
  rewrite run_app, app_nil_r.
  destruct (rescan_lstrip initial cur (")" :: r) ([")"; ";"] ++ z))
    as (E1 & E2 & C); [reflexivity | reflexivity | repeat split | exact Hq |].
  destruct C as (Cs & Ct & _).
  set (G := run initial (lstrip cur) ([")"; ";"] ++ z)) in *.
  change (run G ([")"; ";"] ++ z) [])
    with (run (step (step G ")" ((";" :: z) ++ [])) ";" (z ++ [])) z []).
  rewrite !app_nil_r.
  rewrite region_close
    by (unfold region_active; rewrite Ct, Ht; apply orb_true_r).
  rewrite step_split by (apply top_level_at_boundary; simpl; congruence).
  simpl statements; simpl current.
  rewrite append_stripped_nil, from_boundary by (repeat split).
  rewrite E1, E2, (strip_snoc (lstrip cur) ")" eq_refl), lstrip_idem.
  reflexivity.
Qed.

(** The last statement, alone. *)
Lemma rescan_last_statement (cur : text) :
  all_steps quiet initial cur [] = true ->
  blank cur = false ->
  split_scanned (terminate (strip cur)) = [terminate (strip cur)].
Proof.
  intros Hq Hb.
  assert (St : stripped (strip cur)).
  { split; [apply strip_idem|].
    unfold blank in Hb; apply negb_false_iff, truthy_true in Hb; exact Hb. }
  unfold split_scanned.
  destruct (endswith (strip cur) ";") eqn:E.
  - rewrite (terminate_closed _ E).
    destruct (rescan_strip initial cur [] []) as (E1 & E2 & _);
      [exact I | exact I | repeat split | exact Hq |].
    unfold flush; rewrite E1, E2; simpl statements.
    rewrite (append_stripped_stripped [] _ St); cbn [app].
    rewrite (finish_one _ St), (terminate_closed _ E); reflexivity.
  - rewrite (terminate_open _ E), run_snoc.
    destruct (rescan_strip initial cur [] [";"]) as (E1 & E2 & _);
      [exact I | reflexivity | repeat split | exact Hq |].
    set (G := run initial (strip cur) [";"]) in *.
    assert (St' : stripped (strip cur ++ [";"])).
    { split; [|destruct (strip cur); discriminate].
      apply strip_stripped_snoc; [apply St | apply St | reflexivity]. }
    unfold flush; rewrite step_statements, step_current.
    destruct (action_of G ";" []) eqn:A.
    + rewrite E1, E2; simpl statements.
      rewrite (append_stripped_stripped [] _ St'); cbn [app].
      rewrite (finish_one _ St').
      rewrite terminate_closed by apply endswith_snoc; reflexivity.
    + rewrite E1, E2; simpl statements.
      rewrite append_stripped_nil, (append_stripped_stripped [] _ St).
      cbn [app]; rewrite (finish_one _ St), (terminate_open _ E); reflexivity.
    + apply action_close in A; discriminate.
Qed.

End RescanFacts.

Import RescanFacts.

(** ** The fixed point *)

Module FixedPointFacts.

Lemma stripped_after_flush st (s : text) :
  Forall stripped (statements st) -> Forall stripped (flush (run st s [])).
Proof. intros H; apply flush_ok, run_ok, H. Qed.

Lemma split_scanned_cons (t z : text) (N : list text) :
  flush (run initial ((t ++ [";"]) ++ z) []) = t :: flush (run initial z []) ->
  stripped t -> endswith t ";" = false ->
  split_scanned z = finish N ->
  split_scanned ((t ++ [";"]) ++ z) = finish (t :: N).
Proof.
  intros E St Et Ez; unfold split_scanned; rewrite E.
  change (t :: flush (run initial z [])) with ([t] ++ flush (run initial z [])).
  change (t :: N) with ([t] ++ N).
  rewrite !finish_app; f_equal; exact Ez.
Qed.

Lemma concat_finish_cons (t : text) (N : list text) :
  stripped t -> endswith t ";" = false ->
  List.concat (finish (t :: N)) = (t ++ [";"]) ++ List.concat (finish N).
Proof.
  intros St Et.
  change (t :: N) with ([t] ++ N).
  rewrite finish_app, (finish_one _ St), (terminate_open _ Et); reflexivity.
Qed.

(** The loop, from the middle of a statement whose buffer was filled from
    the start of the statement: splitting what it returns gives the same
    statements. *)
Lemma fixed_point_from (r : text) : forall st,
  statements st = [] ->
  all_steps quiet initial (current st) r = true ->
  same_control (run initial (current st) r) st ->
  all_steps closes_outside_quotes st r [] = true ->
  split_scanned (List.concat (finish (flush (run st r []))))
  = finish (flush (run st r [])).
Proof.
  induction r as [|c r IH]; intros st Hn Hq Hc Hcl.
  - simpl run; unfold flush; rewrite Hn.
    destruct (append_stripped_cases [] (current st)) as [[B ->]|(B & -> & St)].
    + reflexivity.
    + cbn [app]; rewrite (finish_one _ St); cbn [List.concat]; rewrite app_nil_r.
      apply rescan_last_statement; assumption.
  - simpl in Hcl; rewrite app_nil_r in Hcl.
    apply andb_true_iff in Hcl as [Hcl1 Hcl2].
    simpl run; rewrite app_nil_r.
    set (F := run initial (current st) (c :: r)) in *.
    assert (HA : action_of F c r = action_of st c r)
      by (apply action_same_control, Hc).
    destruct (action_of st c r) eqn:A.
    + (* the character is appended *)
      apply IH.
      * rewrite step_statements, A; exact Hn.
      * rewrite step_current, A, all_steps_app.
        change ([c] ++ r) with (c :: r); fold F; rewrite Hq.
        cbn [all_steps andb app]; unfold quiet; rewrite HA; reflexivity.
      * rewrite step_current, A, run_snoc.
        apply step_same_control, Hc.
      * exact Hcl2.
    + (* a semicolon ends the statement *)
      pose proof (proj1 (action_split st c r) A) as T.
      pose proof T as T'; unfold top_level_semicolon in T'.
      apply andb_true_iff in T' as [T' Tt]; apply andb_true_iff in T' as [Tc Ts].
      apply Ascii.eqb_eq in Tc; subst c.
      apply negb_true_iff in Ts, Tt.
      unfold region_active in Tt; apply orb_false_iff in Tt as [_ Tt].
      rewrite (step_split st ";" r T), Hn.
      set (S1 := {| statements := append_stripped [] (current st);
                    current := []; in_string := false;
                    in_tblproperties := false;
                    string_delimiter := string_delimiter st |}).
      assert (B1 : boundary S1) by (repeat split).
      assert (E1 : with_statements [] S1
                   = with_statements [] (step st ";" r)).
      { rewrite (step_split st ";" r T); reflexivity. }
      assert (IH1 : split_scanned
                      (List.concat (finish (flush (run (with_statements [] S1) r []))))
                    = finish (flush (run (with_statements [] S1) r []))).
      { apply IH; [reflexivity | reflexivity | repeat split; discriminate |].
        rewrite E1; etransitivity; [|exact Hcl2].
        apply all_steps_same_control; [exact closes_same_control | repeat split]. }
      rewrite flush_run_prefix.
      set (N := flush (run (with_statements [] S1) r [])) in *.
      simpl statements.
      destruct (append_stripped_cases [] (current st)) as [[B ->]|(B & -> & St)].
      * exact IH1.
      * destruct Hc as (Cs & Ct & _).
        assert (Et : endswith (strip (current st)) ";" = false).
        { apply (no_semicolon_at_end _ (";" :: r)); [exact Hq | |]; fold F;
            congruence. }
        cbn [app].
        rewrite (concat_finish_cons _ N St Et).
        apply split_scanned_cons; [|exact St | exact Et | exact IH1].
        apply (rescan_split_statement _ r); [exact Hq | | | exact B]; fold F;
          congruence.
    + (* a closing parenthesis ends the region and the statement *)
      pose proof (proj1 (action_close st c r) A) as R.
      pose proof R as R'; unfold region_closure in R'.
      apply andb_true_iff in R' as [Rc Ra].
      apply Ascii.eqb_eq in Rc; subst c.
      assert (Ht : in_tblproperties st = true).
      { unfold region_active in Ra.
        rewrite (no_keyword_at ")" r eq_refl) in Ra; exact Ra. }
      assert (Hs : in_string st = false).
      { unfold closes_outside_quotes in Hcl1; rewrite R in Hcl1.
        destruct (in_string st); [discriminate | reflexivity]. }
      rewrite (region_close st r Ra), Hn.
      set (t := strip (current st ++ [")"])).
      set (S1 := {| statements := [] ++ [t]; current := [];
                    in_string := in_string st; in_tblproperties := false;
                    string_delimiter := string_delimiter st |}).
      assert (E1 : with_statements [] S1
                   = with_statements [] (step st ")" r)).
      { rewrite (region_close st r Ra); reflexivity. }
      assert (IH1 : split_scanned
                      (List.concat (finish (flush (run (with_statements [] S1) r []))))
                    = finish (flush (run (with_statements [] S1) r []))).
      { apply IH; [reflexivity | reflexivity | |].
        - repeat split; simpl; [congruence | discriminate].
        - rewrite E1; etransitivity; [|exact Hcl2].
          apply all_steps_same_control; [exact closes_same_control | repeat split]. }
      rewrite flush_run_prefix.
      set (N := flush (run (with_statements [] S1) r [])) in *.
      simpl statements; cbn [app].
      assert (St : stripped t).
      { split; [apply strip_idem|].
        unfold t; rewrite (strip_snoc _ ")" eq_refl).
        destruct (lstrip (current st)); discriminate. }
      assert (Et : endswith t ";" = false).
      { unfold t; rewrite (strip_snoc _ ")" eq_refl); apply endswith_snoc. }
      destruct Hc as (Cs & Ct & _).
      rewrite (concat_finish_cons _ N St Et).
      apply split_scanned_cons; [|exact St | exact Et | exact IH1].
      apply (rescan_closed_statement _ r); [exact Hq | |]; fold F; congruence.
Qed.

End FixedPointFacts.

Import FixedPointFacts.

(** C7, as the code has it.  When no TBLPROPERTIES region is closed inside
    an open literal, the scan is a fixed point on its own output: the
    statements it returns, put end to end and scanned again, come back the
    same.  The whole function does the same when, in addition, comment
    processing leaves the text of its statements as it is. *)
Theorem splitting_is_a_fixed_point :
  (forall scanned : text,
      all_steps closes_outside_quotes initial scanned [] = true ->
      split_scanned (List.concat (split_scanned scanned)) = split_scanned scanned)
  /\ (forall sql_content : text,
         let out := _split_sql_statements sql_content in
         all_steps closes_outside_quotes initial (strip_comments sql_content) []
         = true ->
         strip_comments (List.concat out) = List.concat out ->
         _split_sql_statements (List.concat out) = out).
Proof.
  assert (K : forall scanned : text,
             all_steps closes_outside_quotes initial scanned [] = true ->
             split_scanned (List.concat (split_scanned scanned))
             = split_scanned scanned).
  { intros scanned H; unfold split_scanned at 2 3.
    apply fixed_point_from; [reflexivity | reflexivity | | exact H].
    apply same_control_refl. }
  split; [exact K|].
  intros sql out H E; subst out.
  unfold _split_sql_statements at 1; rewrite E.
  apply K, H.
Qed.

Lemma splitting_is_a_fixed_point_witness :
  let sql_content :=
    txt "CREATE TABLE t (id INT) TBLPROPERTIES ('a' = 'x;y');  ; SELECT 'a;b' ; SELECT 2" in
  let out := _split_sql_statements sql_content in
  (all_steps closes_outside_quotes initial sql_content [] = true /\
   all_steps closes_outside_quotes initial (strip_comments sql_content) [] = true /\
   strip_comments (List.concat out) = List.concat out) /\
  split_scanned (List.concat (split_scanned sql_content))
  = split_scanned sql_content /\
  _split_sql_statements (List.concat out) = out.
Proof.
  intros sql_content out.
  assert (H1 : all_steps closes_outside_quotes initial sql_content [] = true)
    by (vm_compute; reflexivity).
  assert (H2 : all_steps closes_outside_quotes initial
                 (strip_comments sql_content) [] = true)
    by (vm_compute; reflexivity).
  assert (H3 : strip_comments (List.concat out) = List.concat out)
    by (vm_compute; reflexivity).
  split; [auto|]. split.
  - exact (proj1 splitting_is_a_fixed_point sql_content H1).
  - exact (proj2 splitting_is_a_fixed_point sql_content H2 H3).
Defined.

(** C7 fails as stated.  A region closed inside an unterminated literal
    leaves a trailing statement that, scanned again, takes the semicolon put
    after the statement before it; and comment processing, run again, finds
    two hyphens that the removal of a block comment brought together. *)
Lemma splitting_again_differs :
  (let out := _split_sql_statements (txt "'TBLPROPERTIES)a") in
   out = [txt "'TBLPROPERTIES);"; txt "a;"] /\
   _split_sql_statements (List.concat out) = [txt "'TBLPROPERTIES);"; txt ";a;"] /\
   split_scanned (List.concat (split_scanned (txt "'TBLPROPERTIES)a")))
   <> split_scanned (txt "'TBLPROPERTIES)a") /\
   _split_sql_statements (List.concat out) <> out)
  /\ (let out := _split_sql_statements (txt "a -/**/- b; c") in
      out = [txt "a -- b;"; txt "c;"] /\
      _split_sql_statements (List.concat out) = [txt "a;"] /\
      _split_sql_statements (List.concat out) <> out).
Proof.
  split; intros out.
  - split; [vm_compute; reflexivity|]. split; [vm_compute; reflexivity|].
    split; intros H; vm_compute in H; discriminate H.
  - split; [vm_compute; reflexivity|]. split; [vm_compute; reflexivity|].
    intros H; vm_compute in H; discriminate H.
Qed.

(** ** One semicolon at the end *)

Module TerminatorFacts.

(** Line 260 on a statement that does not end with a semicolon. *)
Lemma terminate_one (t : text) :
  endswith t ";" = false -> ends_in_one_semicolon (terminate t) = true.
Proof.
  intros E; unfold terminate; rewrite E; cbn [negb].
  unfold ends_in_one_semicolon; rewrite rev_app_distr; cbn [rev app].
  unfold endswith in E.
  destruct (rev t) as [|d l]; [reflexivity|].
  rewrite E; reflexivity.
Qed.

(** The guard on the buffer holds after every iteration, whatever its
    branch. *)
Lemma guarded_step st c r :
  delimiter_ok st -> semicolon_guarded st -> semicolon_guarded (step st c r).
Proof.
  intros Hd Hg.
  destruct (quiet st c r) eqn:Q; [apply semicolon_guarded_step; assumption|].
  unfold semicolon_guarded; rewrite step_current.
  unfold quiet in Q; destruct (action_of st c r); [discriminate Q| |];
    intros E; discriminate E.
Qed.

Lemma guarded_run st (s after : text) :
  delimiter_ok st -> semicolon_guarded st -> semicolon_guarded (run st s after).
Proof.
  revert st; induction s as [|c s IH]; intros st Hd Hg; simpl; [exact Hg|].
  apply IH; [apply delimiter_ok_step, Hd | apply guarded_step; assumption].
Qed.

(** Outside literals and regions the buffer, stripped, does not end with a
    semicolon. *)
Lemma guarded_open st :
  semicolon_guarded st -> in_string st = false -> in_tblproperties st = false ->
  endswith (strip (current st)) ";" = false.
Proof.
  intros Hg Hs Ht.
  destruct (endswith (strip (current st)) ";") eqn:E; [|reflexivity].
  destruct (Hg E); congruence.
Qed.

(** No statement the loop stores ends with a semicolon. *)
Lemma stored_step st c r :
  semicolon_guarded st ->
  Forall (fun t => endswith t ";" = false) (statements st) ->
  Forall (fun t => endswith t ";" = false) (statements (step st c r)).
Proof.
  intros Hg H; rewrite step_statements.
  destruct (action_of st c r) eqn:A; [exact H| |].
  - apply action_split in A; unfold top_level_semicolon in A.
    apply andb_true_iff in A as [A R]; apply andb_true_iff in A as [_ S].
    apply negb_true_iff in S, R.
    destruct (append_stripped_cases (statements st) (current st))
      as [[_ ->]|(_ & -> & _)]; [exact H|].
    apply Forall_app; split; [exact H|].
    constructor; [|constructor].
    apply guarded_open; [exact Hg | exact S |].
    unfold region_active in R; apply orb_false_iff in R; apply R.
  - apply action_close in A; unfold region_closure in A.
    apply andb_true_iff in A as [A _].
    apply Ascii.eqb_eq in A; subst c.
    destruct (append_stripped_cases (statements st) (current st ++ [")"]))
      as [[_ ->]|(_ & -> & _)]; [exact H|].
    apply Forall_app; split; [exact H|].
    constructor; [|constructor].
    rewrite strip_snoc by reflexivity.
    rewrite endswith_snoc; reflexivity.
Qed.

Lemma stored_run st (s after : text) :
  delimiter_ok st -> semicolon_guarded st ->
  Forall (fun t => endswith t ";" = false) (statements st) ->
  Forall (fun t => endswith t ";" = false) (statements (run st s after)).
Proof.
  revert st; induction s as [|c s IH]; intros st Hd Hg H; simpl; [exact H|].
  apply IH;
    [apply delimiter_ok_step, Hd | apply guarded_step; assumption
    | apply stored_step; assumption].
Qed.

Lemma guarded_initial : semicolon_guarded initial.
Proof. intros E; discriminate E. Qed.

Lemma forallb_terminate_one (l : list text) :
  Forall (fun t => endswith t ";" = false) l ->
  forallb ends_in_one_semicolon (map terminate l) = true.
Proof.
  induction 1 as [|t l Ht _ IH]; simpl; [reflexivity|].
  rewrite (terminate_one t Ht), IH; reflexivity.
Qed.

(** The returned list: the stored statements, then the buffer if it is not
    blank, each through line 260. *)
Lemma returned_statements (s : text) :
  split_scanned s =
  map terminate (statements (run initial s []))
  ++ (if blank (current (run initial s [])) then []
      else [terminate (strip (current (run initial s [])))]).
Proof.
  unfold split_scanned.
  rewrite (finish_map _ (scanned_ok s)).
  unfold flush.
  destruct (append_stripped_cases (statements (run initial s []))
                                  (current (run initial s [])))
    as [[-> ->]|(-> & -> & _)].
  - rewrite app_nil_r; reflexivity.
  - rewrite map_app; reflexivity.
Qed.

End TerminatorFacts.

Import TerminatorFacts.

(** C4, as the code has it.  Every returned statement is non-empty, has no
    white space at either end and ends with a semicolon; candidates of white
    space only are dropped.  The returned list is the statements stored by
    the loop followed by what is left in the buffer, and every stored
    statement ends with exactly one semicolon: only the last statement, and
    only when the scan ends inside a quoted literal or a TBLPROPERTIES
    region, can end with more than one. *)
Theorem returned_statements_are_terminated :
  (forall sql_content : text,
      let final := run initial (strip_comments sql_content) [] in
      let returned := _split_sql_statements sql_content in
      Forall (fun s => s <> [] /\ strip s = s /\ endswith s ";" = true) returned
      /\ returned = map terminate (statements final)
                    ++ (if blank (current final) then []
                        else [terminate (strip (current final))])
      /\ forallb ends_in_one_semicolon (map terminate (statements final)) = true
      /\ (in_string final = false -> in_tblproperties final = false ->
          forallb ends_in_one_semicolon returned = true))
  /\ _split_sql_statements (txt "   ;  ;  ") = [].
Proof.
  split; [|reflexivity].
  intros sql final returned.
  assert (Hg : semicolon_guarded final)
    by (apply guarded_run; [apply delimiter_ok_initial | apply guarded_initial]).
  assert (Hst : Forall (fun t => endswith t ";" = false) (statements final))
    by (apply stored_run;
        [apply delimiter_ok_initial | apply guarded_initial | constructor]).
  assert (E : returned = map terminate (statements final)
                         ++ (if blank (current final) then []
                             else [terminate (strip (current final))]))
    by apply returned_statements.
  split; [|split; [exact E|split]].
  - unfold returned, _split_sql_statements, split_scanned.
    pose proof (scanned_ok (strip_comments sql)) as H.
    rewrite (finish_map _ H).
    apply Forall_map; revert H; apply Forall_impl.
    intros s Hs; apply terminate_ok, Hs.
  - apply forallb_terminate_one, Hst.
  - intros Hs Ht; rewrite E, forallb_app.
    rewrite (forallb_terminate_one _ Hst); cbn [andb].
    destruct (blank (current final)); [reflexivity|].
    cbn [forallb]; rewrite terminate_one; [reflexivity|].
    apply guarded_open; assumption.
Qed.

Lemma returned_statements_are_terminated_witness :
  in_string (run initial (strip_comments (txt "SELECT 1; SELECT 'a;b'")) [])
  = false /\
  in_tblproperties (run initial (strip_comments (txt "SELECT 1; SELECT 'a;b'")) [])
  = false /\
  forallb ends_in_one_semicolon
          (_split_sql_statements (txt "SELECT 1; SELECT 'a;b'")) = true.
Proof.
  split; [reflexivity|]. split; [reflexivity|].
  exact (proj2 (proj2 (proj2
           (proj1 returned_statements_are_terminated
                  (txt "SELECT 1; SELECT 'a;b'"))))
         eq_refl eq_refl).
Defined.

(** ** The order of the files *)

Module OrderFacts.

Lemma first_pattern_bounds patterns i filename :
  i <= first_pattern patterns i filename <= i + List.length patterns.
Proof.
  revert i; induction patterns as [|p ps IH]; intros i; simpl; [lia|].
  destruct (occurs_in (lower p) (lower filename)); [lia|].
  specialize (IH (S i)); lia.
Qed.

Lemma get_priority_le filename : get_priority filename <= 4.
Proof. exact (proj2 (first_pattern_bounds priority_order 0 filename)). Qed.

Lemma insert_by_front key x (l : list text) :
  match l with [] => True | y :: _ => key x <= key y end ->
  insert_by key x l = x :: l.
Proof.
  destruct l as [|y l]; simpl; [reflexivity|].
  intros H; apply Nat.leb_le in H; rewrite H; reflexivity.
Qed.

Lemma insert_by_pass key x (l l' : list text) :
  Forall (fun y => key y < key x) l ->
  insert_by key x (l ++ l') = l ++ insert_by key x l'.
Proof.
  induction 1 as [|y l Hy Hl IH]; simpl; [reflexivity|].
  apply Nat.leb_gt in Hy; rewrite Hy, IH; reflexivity.
Qed.

Lemma with_key_cons_other key x (l : list text) i :
  key x <> i -> with_key key (x :: l) i = with_key key l i.
Proof.
  intros H; unfold with_key; simpl.
  apply Nat.eqb_neq in H; rewrite H; reflexivity.
Qed.

Lemma with_key_cons_same key x (l : list text) :
  with_key key (x :: l) (key x) = x :: with_key key l (key x).
Proof. unfold with_key; simpl; rewrite Nat.eqb_refl; reflexivity. Qed.

Lemma buckets_head key (l : list text) a n :
  match flat_map (with_key key l) (seq a n) with
  | [] => True
  | y :: _ => a <= key y
  end.
Proof.
  revert a; induction n as [|n IH]; intros a; cbn [flat_map seq]; [exact I|].
  destruct (with_key key l a) as [|y t] eqn:E; cbn [app].
  - specialize (IH (S a)).
    destruct (flat_map (with_key key l) (seq (S a) n)); [exact I | lia].
  - assert (H : In y (with_key key l a)) by (rewrite E; left; reflexivity).
    unfold with_key in H; apply filter_In in H as [_ H].
    apply Nat.eqb_eq in H; lia.
Qed.

Lemma buckets_other key x (l : list text) a n :
  key x < a ->
  flat_map (with_key key (x :: l)) (seq a n) = flat_map (with_key key l) (seq a n).
Proof.
  revert a; induction n as [|n IH]; intros a H; cbn [flat_map seq]; [reflexivity|].
  rewrite with_key_cons_other by lia; rewrite IH by lia; reflexivity.
Qed.

(** Inserting into the groups puts the element at the head of its group. *)
Lemma insert_buckets key x (l : list text) n : forall a,
  a <= key x < a + n ->
  insert_by key x (flat_map (with_key key l) (seq a n))
  = flat_map (with_key key (x :: l)) (seq a n).
Proof.
  induction n as [|n IH]; intros a H; [lia|].
  cbn [flat_map seq]; destruct (Nat.eq_dec (key x) a) as [E|E].
  - subst a; rewrite with_key_cons_same, buckets_other by lia.
    apply insert_by_front.
    cbn [app]. destruct (with_key key l (key x)) as [|y t] eqn:Ew; cbn [app].
    + pose proof (buckets_head key l (S (key x)) n) as B.
      destruct (flat_map (with_key key l) (seq (S (key x)) n)); [exact I | lia].
    + assert (Hy : In y (with_key key l (key x))) by (rewrite Ew; left; reflexivity).
      unfold with_key in Hy; apply filter_In in Hy as [_ Hy].
      apply Nat.eqb_eq in Hy; lia.
  - rewrite with_key_cons_other by lia.
    rewrite insert_by_pass; [rewrite IH by lia; reflexivity|].
    apply Forall_forall; intros y Hy.
    unfold with_key in Hy; apply filter_In in Hy as [_ Hy].
    apply Nat.eqb_eq in Hy; lia.
Qed.

(** Sorting by a bounded key lists the groups one after the other. *)
Lemma sorted_buckets key n (l : list text) :
  Forall (fun x => key x < n) l ->
  sorted key l = flat_map (with_key key l) (seq 0 n).
Proof.
  induction 1 as [|x l Hx Hl IH].
  - induction (seq 0 n) as [|i s IHs]; [reflexivity | exact IHs].
  - change (sorted key (x :: l)) with (insert_by key x (sorted key l)).
    rewrite IH; apply insert_buckets; lia.
Qed.

Lemma insert_by_permutation key x (l : list text) :
  Permutation (insert_by key x l) (x :: l).
Proof.
  induction l as [|y l IH]; simpl; [reflexivity|].
  destruct (key x <=? key y)%nat; [reflexivity|].
  rewrite IH; apply perm_swap.
Qed.

Lemma sorted_permutation key (l : list text) : Permutation (sorted key l) l.
Proof.
  induction l as [|x l IH]; [reflexivity|].
  change (sorted key (x :: l)) with (insert_by key x (sorted key l)).
  rewrite insert_by_permutation, IH; reflexivity.
Qed.

Lemma insert_by_sorted key x (l : list text) :
  StronglySorted (fun f g => key f <= key g) l ->
  StronglySorted (fun f g => key f <= key g) (insert_by key x l).
Proof.
  induction 1 as [|y l Hl IH Hy]; simpl; [repeat constructor|].
  destruct (key x <=? key y)%nat eqn:E.
  - apply Nat.leb_le in E.
    constructor; [constructor; assumption|].
    constructor; [exact E|].
    revert Hy; apply Forall_impl; intros z Hz; lia.
  - apply Nat.leb_gt in E.
    constructor; [exact IH|].
    apply Forall_forall; intros z Hz.
    apply (Permutation_in _ (insert_by_permutation key x l)) in Hz.
    destruct Hz as [<-|Hz]; [lia|].
    rewrite Forall_forall in Hy; apply Hy, Hz.
Qed.

Lemma sorted_sorted key (l : list text) :
  StronglySorted (fun f g => key f <= key g) (sorted key l).
Proof.
  induction l as [|x l IH]; [constructor|].
  apply insert_by_sorted, IH.
Qed.

Lemma strongly_sorted_tail key (a l : list text) :
  StronglySorted (fun f g => key f <= key g) (a ++ l) ->
  StronglySorted (fun f g => key f <= key g) l.
Proof.
  induction a as [|x a IH]; simpl; [auto|].
  intros H; apply StronglySorted_inv in H as [H _]; auto.
Qed.

(** In a sorted list an element of smaller key stands before one of larger
    key. *)
Lemma sorted_precedes key (l : list text) f g :
  StronglySorted (fun f g => key f <= key g) l ->
  In f l -> In g l -> key f < key g -> precedes f g l.
Proof.
  intros Hs Hf Hg Hk.
  apply in_split in Hf as (a & b & ->).
  apply in_app_or in Hg as [Hg|[Hg|Hg]].
  - exfalso. apply in_split in Hg as (a1 & a2 & ->).
    rewrite <- app_assoc in Hs; simpl in Hs.
    apply strongly_sorted_tail in Hs.
    apply StronglySorted_inv in Hs as [_ Hs].
    rewrite Forall_forall in Hs.
    assert (key g <= key f) by (apply Hs, in_or_app; right; left; reflexivity).
    lia.
  - subst g; lia.
  - apply in_split in Hg as (b1 & b2 & ->).
    exists a, b1, b2; reflexivity.
Qed.

End OrderFacts.

Import OrderFacts.

(** X1. The files returned are the names of the listing that end with
    [.sql], in five groups: those with [dim_] in their lower-case name,
    then those with [fact_], [silver_] and [gold_], then the others; a name
    goes to the first group it fits, and each group keeps the order of the
    listing. *)
Theorem sql_files_grouped_by_priority :
  forall listing : list text,
    let files := filter (fun f => ends_with f (txt ".sql")) listing in
    get_sql_files listing
    = with_key get_priority files 0 ++ with_key get_priority files 1
      ++ with_key get_priority files 2 ++ with_key get_priority files 3
      ++ with_key get_priority files 4.
Proof.
  intros listing files; unfold get_sql_files; fold files.
  rewrite (sorted_buckets get_priority 5).
  - cbn [seq flat_map]; rewrite app_nil_r; reflexivity.
  - apply Forall_forall; intros f _.
    pose proof (get_priority_le f); lia.
Qed.

(** X2. Nothing is lost and nothing is added: the result is a rearrangement
    of the names of the listing that end with [.sql], the extension being
    compared as it is written, and the priorities never decrease along it. *)
Theorem sql_files_are_the_sql_names :
  forall listing : list text,
    Permutation (get_sql_files listing)
                (filter (fun f => ends_with f (txt ".sql")) listing)
    /\ Forall (fun f => In f listing /\ ends_with f (txt ".sql") = true)
              (get_sql_files listing)
    /\ StronglySorted (fun f g => get_priority f <= get_priority g)
                      (get_sql_files listing).
Proof.
  intros listing; unfold get_sql_files.
  split; [apply sorted_permutation|]. split; [|apply sorted_sorted].
  apply Forall_forall; intros f Hf.
  apply (Permutation_in _ (sorted_permutation get_priority _)) in Hf.
  apply filter_In in Hf; exact Hf.
Qed.

(** X3. A file of smaller priority number is returned before every file of
    larger one: dimension tables before fact tables, these before the silver
    layer, that before the gold layer, and all of them before the rest. *)
Theorem lower_priority_file_comes_first :
  forall (listing : list text) (f g : text),
    In f listing -> ends_with f (txt ".sql") = true ->
    In g listing -> ends_with g (txt ".sql") = true ->
    get_priority f < get_priority g ->
    precedes f g (get_sql_files listing).
Proof.
  intros listing f g Hf Ef Hg Eg Hk.
  apply (sorted_precedes get_priority); [apply sorted_sorted | | | exact Hk];
    unfold get_sql_files;
    apply (Permutation_in _ (Permutation_sym (sorted_permutation get_priority _)));
    apply filter_In; auto.
Qed.

Lemma lower_priority_file_comes_first_witness :
  let listing := [txt "gold_sales.sql"; txt "notes.txt"; txt "Fact_Orders.sql";
                  txt "v_DIM_date.sql"] in
  (get_priority (txt "v_DIM_date.sql") = 0 /\
   get_priority (txt "gold_sales.sql") = 3) /\
  precedes (txt "v_DIM_date.sql") (txt "gold_sales.sql") (get_sql_files listing).
Proof.
  intros listing; split; [split; reflexivity|].
  apply (lower_priority_file_comes_first listing).
  - simpl; auto.
  - reflexivity.
  - simpl; auto.
  - reflexivity.
  - vm_compute; lia.
Defined.

(** ** The statements and the text *)

Module PieceFacts.

Lemma in_order_later (l : list text) (x b : text) :
  in_order l b -> in_order l (x ++ b).
Proof.
  intros H; destruct H as [s|t l a b H]; [constructor|].
  rewrite app_assoc; constructor; exact H.
Qed.

Lemma in_order_stripped (l : list text) (cur rest : text) :
  in_order l rest -> in_order (strip cur :: l) (cur ++ rest).
Proof.
  intros H; destruct (strip_split cur) as (ws1 & ws2 & E & _).
  rewrite E at 2; rewrite <- !app_assoc.
  constructor; apply in_order_later, H.
Qed.

Lemma in_order_append_stripped (stmts news : list text) (cur rest : text) :
  in_order news rest ->
  exists news', append_stripped stmts cur ++ news = stmts ++ news' /\
                in_order news' (cur ++ rest).
Proof.
  intros H.
  destruct (append_stripped_cases stmts cur) as [[_ ->]|(_ & -> & _)].
  - exists news; split; [reflexivity | apply in_order_later, H].
  - exists (strip cur :: news); split; [rewrite <- app_assoc; reflexivity|].
    apply in_order_stripped, H.
Qed.

(** What the loop adds to the statements of a state are pieces, in order,
    of the buffer followed by the text still to scan. *)
Lemma run_in_order (s after : text) : forall st,
  exists news, flush (run st s after) = statements st ++ news /\
               in_order news (current st ++ s).
Proof.
  induction s as [|c s IH]; intros st.
  - simpl run; unfold flush.
    destruct (in_order_append_stripped (statements st) [] (current st) []
                (in_order_nil [])) as (news & E & H).
    rewrite app_nil_r in E; exists news; auto.
  - simpl run; destruct (IH (step st c (s ++ after))) as (news & E & H).
    rewrite E, step_statements; rewrite step_current in H.
    destruct (action_of st c (s ++ after)).
    + exists news; split; [reflexivity|].
      rewrite <- app_assoc in H; exact H.
    + simpl in H.
      destruct (in_order_append_stripped (statements st) news (current st)
                  (c :: s) (in_order_later news [c] s H)) as (news' & E' & H').
      exists news'; auto.
    + simpl in H.
      destruct (in_order_append_stripped (statements st) news
                  (current st ++ [c]) s H) as (news' & E' & H').
      exists news'; split; [exact E'|].
      rewrite <- app_assoc in H'; exact H'.
Qed.

End PieceFacts.

Import PieceFacts.

(** X4. The statements keep the order of the source and take nothing from
    elsewhere: what the function returns is, statement by statement and up
    to the one semicolon line 260 may append, a list of pieces of the
    comment-processed text that follow each other in that text without
    overlapping. *)
Theorem statements_are_pieces_in_source_order :
  forall sql_content : text,
    exists pieces : list text,
      _split_sql_statements sql_content = map terminate pieces /\
      in_order pieces (strip_comments sql_content).
Proof.
  intros sql; unfold _split_sql_statements, split_scanned.
  set (scanned := strip_comments sql).
  destruct (run_in_order scanned [] initial) as (news & E & H).
  exists news; split; [|exact H].
  rewrite (finish_map _ (scanned_ok scanned)), E; reflexivity.
Qed.

(** X5. A TBLPROPERTIES keyword with no closing parenthesis after it takes
    the rest of the text: from the keyword on nothing is split, at no
    semicolon and at no quote, and all of it goes to the last statement. *)
Theorem unclosed_region_takes_the_rest :
  forall pre rest : text,
    let st := run initial pre rest in
    at_tblproperties rest = true \/ in_tblproperties st = true ->
    ~ In ")" rest ->
    statements (run initial (pre ++ rest) []) = statements st /\
    current (run initial (pre ++ rest) []) = current st ++ rest /\
    split_scanned (pre ++ rest)
    = finish (append_stripped (statements st) (current st ++ rest)).
Proof.
  intros pre rest st Hk Hn.
  assert (E : run initial (pre ++ rest) []
              = {| statements := statements st;
                   current := current st ++ rest;
                   in_string := in_string st;
                   in_tblproperties := in_tblproperties (run st rest []);
                   string_delimiter := string_delimiter st |}).
  { rewrite run_app, app_nil_r; fold st.
    destruct Hk as [Hk|Hk].
    - destruct rest as [|c rest]; [discriminate|].
      apply not_in_cons in Hn as [Hc Hn].
      simpl run; rewrite region_step;
        [|unfold region_active; rewrite app_nil_r, Hk; reflexivity | exact Hc].
      rewrite region_run; [|reflexivity | exact Hn]; simpl.
      rewrite <- app_assoc; reflexivity.
    - rewrite (region_run st rest [] Hk Hn); reflexivity. }
  unfold split_scanned, flush; rewrite E; simpl; auto.
Qed.

Lemma unclosed_region_takes_the_rest_witness :
  let pre := txt "SELECT 1; SHOW " in
  let rest := txt "TBLPROPERTIES t; SELECT 'a'; SELECT 2;" in
  at_tblproperties rest = true /\
  split_scanned (pre ++ rest)
  = [txt "SELECT 1;"; txt "SHOW TBLPROPERTIES t; SELECT 'a'; SELECT 2;"].
Proof.
  intros pre rest.
  assert (Hk : at_tblproperties rest = true) by (vm_compute; reflexivity).
  assert (Hn : ~ In ")" rest) by (simpl; intuition discriminate).
  split; [exact Hk|].
  rewrite (proj2 (proj2 (unclosed_region_takes_the_rest pre rest (or_introl Hk) Hn))).
  vm_compute; reflexivity.
Defined.

(** ** Lines *)

Module LineFacts.

Lemma splitlines_from_lines n : forall (s line : text),
  List.length s <= n -> no_linebreak line ->
  Forall no_linebreak (splitlines_from line s).
Proof.
  induction n as [|n IH]; intros s line L Hl.
  - destruct s; [|simpl in L; lia].
    simpl; destruct line; [constructor|].
    constructor; [apply Forall_rev, Hl | constructor].
  - destruct s as [|c s].
    + simpl; destruct line; [constructor|].
      constructor; [apply Forall_rev, Hl | constructor].
    + simpl in L; simpl.
      destruct (is_linebreak c) eqn:Ec.
      * destruct s as [|d s'].
        -- constructor; [apply Forall_rev, Hl|].
           apply IH; [simpl; lia | constructor].
        -- destruct (Ascii.eqb c (ascii_of_nat 13) && Ascii.eqb d LF);
             (constructor; [apply Forall_rev, Hl|]);
             apply IH; simpl in *; try lia; constructor.
      * apply IH; [lia|]. constructor; [exact Ec | exact Hl].
Qed.

Lemma splitlines_lines (s : text) : Forall no_linebreak (splitlines s).
Proof. apply (splitlines_from_lines (List.length s)); [lia | constructor]. Qed.

Lemma splitlines_from_app (l rest line : text) :
  no_linebreak l ->
  splitlines_from line (l ++ rest) = splitlines_from (rev l ++ line) rest.
Proof.
  intros H; revert line; induction H as [|c l Hc Hl IH]; intros line;
    [reflexivity|].
  simpl; rewrite Hc, IH, <- app_assoc; reflexivity.
Qed.

Lemma splitlines_from_lf (line rest : text) :
  splitlines_from line (LF :: rest) = rev line :: splitlines_from [] rest.
Proof. destruct rest; reflexivity. Qed.

(** Lines that are not empty and hold no line break are what splitting
    their join at line feeds gives back. *)
Lemma splitlines_join (lines : list text) :
  Forall (fun l => l <> [] /\ no_linebreak l) lines ->
  splitlines (join [LF] lines) = lines.
Proof.
  unfold splitlines; induction 1 as [|p ps [Hne Hp] Hps IH]; [reflexivity|].
  destruct ps as [|q ps].
  - simpl join.
    pose proof (splitlines_from_app p [] [] Hp) as K.
    rewrite !app_nil_r in K; rewrite K.
    simpl; destruct (rev p) eqn:E.
    + apply (f_equal (@rev ascii)) in E; rewrite rev_involutive in E.
      simpl in E; congruence.
    + rewrite <- E, rev_involutive; reflexivity.
  - change (join [LF] (p :: q :: ps)) with (p ++ [LF] ++ join [LF] (q :: ps)).
    rewrite (splitlines_from_app p _ [] Hp), app_nil_r.
    change ([LF] ++ join [LF] (q :: ps)) with (LF :: join [LF] (q :: ps)).
    rewrite splitlines_from_lf, rev_involutive, IH; reflexivity.
Qed.

Lemma no_linebreak_strip (l : text) : no_linebreak l -> no_linebreak (strip l).
Proof.
  intros H; destruct (strip_split l) as (ws1 & ws2 & E & _).
  unfold no_linebreak in *; rewrite E in H.
  apply Forall_app in H as [_ H]; apply Forall_app in H as [H _]; exact H.
Qed.

Lemma normalized_lines_ok (s : text) :
  Forall (fun l => stripped l /\ no_linebreak l) (normalized_lines s).
Proof.
  unfold normalized_lines.
  apply Forall_map, Forall_forall; intros l Hl.
  apply filter_In in Hl as [Hl Ht].
  split; [split; [apply strip_idem | apply truthy_true, Ht]|].
  apply no_linebreak_strip.
  pose proof (splitlines_lines s) as H; rewrite Forall_forall in H; auto.
Qed.

Lemma normalized_lines_fixed (lines : list text) :
  Forall (fun l => stripped l /\ no_linebreak l) lines ->
  normalized_lines (join [LF] lines) = lines.
Proof.
  intros H; unfold normalized_lines.
  rewrite splitlines_join.
  - induction H as [|l ls [[E Hne] _] Hls IH]; [reflexivity|].
    simpl; rewrite E.
    destruct l; [congruence|]. simpl; rewrite <- E at 2; f_equal; exact IH.
  - revert H; apply Forall_impl; intros l [[_ Hne] Hl]; auto.
Qed.

End LineFacts.

Import LineFacts.

(** X6. Line 215 leaves a text in which every line is non-empty and has no
    white space at either end, and it changes nothing in such a text:
    normalising twice is normalising once. *)
Theorem normalize_whitespace_is_idempotent :
  forall sql_content : text,
    Forall stripped (splitlines (normalize_whitespace sql_content)) /\
    normalize_whitespace (normalize_whitespace sql_content)
    = normalize_whitespace sql_content.
Proof.
  intros s.
  change (normalize_whitespace s) with (join [LF] (normalized_lines s)).
  pose proof (normalized_lines_ok s) as H.
  split.
  - rewrite splitlines_join.
    + revert H; apply Forall_impl; intros l [Hs _]; exact Hs.
    + revert H; apply Forall_impl; intros l [[_ Hne] Hl]; auto.
  - change (normalize_whitespace (join [LF] (normalized_lines s)))
      with (join [LF] (normalized_lines (join [LF] (normalized_lines s)))).
    rewrite (normalized_lines_fixed _ H); reflexivity.
Qed.

(** ** The warehouse *)

Module WarehouseFacts.

Lemma executed_app (l l' : list event) :
  executed (l ++ l') = executed l ++ executed l'.
Proof.
  induction l as [|[| sql | |] l IH]; simpl; rewrite ?IH; reflexivity.
Qed.

(** Symbolic execution: case analysis on what each call of the warehouse
    answers. *)
Ltac answer wh :=
  repeat (match goal with
          | |- context [cursor wh ?x] =>
              destruct (cursor wh x) as [? [?|]]
          | |- context [execute wh ?s ?x] =>
              destruct (execute wh s x) as [? [?|]]
          | |- context [fetchone wh ?x] =>
              destruct (fetchone wh x) as [? [?|[|]]]
          | |- context [close wh ?x] =>
              destruct (close wh x) as [? [?|]]
          | |- context [says_already_exists ?e] =>
              destruct (says_already_exists e)
          end; cbn [fst snd negb]).

(** The calls of [_ensure_catalog_exists], after any calls made before. *)
Lemma ensure_catalog_calls {W : Type} (wh : Warehouse W) (catalog : text)
      (w : W) (log : list event) :
  exists new,
    snd (fst (_ensure_catalog_exists (recording wh) catalog (w, log)))
    = log ++ new /\
    exists rest,
      [check_catalog_sql catalog; create_catalog_sql catalog;
       create_with_location catalog; create_catalog_sql catalog]
      = executed new ++ rest.
Proof.
  unfold _ensure_catalog_exists, catch, with_cursor, bind, call, ret, raise,
    recording.
  cbn [cursor execute fetchone close fst snd].
  answer wh;
    rewrite <- ?app_assoc;
    (eexists; split; [reflexivity|]); cbn [app executed];
    eexists; reflexivity.
Qed.

(** The calls of [_ensure_schema_exists] once the catalog is there. *)
Lemma ensure_schema_calls {W : Type} (wh : Warehouse W) (catalog schema : text)
      (w : W) (log : list event) :
  let s := _ensure_catalog_exists (recording wh) catalog (w, log) in
  match snd s with
  | inl e =>
      _ensure_schema_exists (recording wh) catalog schema (w, log)
      = (fst s, inl e)
  | inr _ =>
      exists new,
        snd (fst (_ensure_schema_exists (recording wh) catalog schema (w, log)))
        = snd (fst s) ++ new /\
        exists rest,
          [check_schema_sql catalog schema; create_schema_sql catalog schema]
          = executed new ++ rest
  end.
Proof.
  intros s; subst s; unfold _ensure_schema_exists.
  match goal with
  | |- context [bind ?m ?k (w, log)] =>
      change (bind m k (w, log))
        with (match m (w, log) with
              | (w', inl e) => (w', inl e)
              | (w', inr a) => k a w'
              end)
  end.
  destruct (_ensure_catalog_exists (recording wh) catalog (w, log))
    as [[w1 log1] [e|[]]]; cbn [fst snd]; [reflexivity|].
  unfold catch, with_cursor, bind, call, ret, raise, recording.
  cbn [cursor execute fetchone close fst snd].
  answer wh;
    rewrite <- ?app_assoc;
    (eexists; split; [reflexivity|]); cbn [app executed];
    eexists; reflexivity.
Qed.

(** One round of the loop on a statement that is not blank. *)
Lemma execute_each_cons {W : Type} (wh : Warehouse W) (stmt : text)
      (stmts : list text) (w : W) (log : list event) :
  truthy (strip stmt) = true ->
  execute_each (recording wh) (stmt :: stmts) (w, log)
  = match execute wh stmt w with
    | (w1, Some e) =>
        if is_databricks_error e
        then execute_each (recording wh) stmts (w1, log ++ [Run stmt])
        else ((w1, log ++ [Run stmt]), inl e)
    | (w1, None) => execute_each (recording wh) stmts (w1, log ++ [Run stmt])
    end.
Proof.
  intros H; cbn [execute_each]; rewrite H; cbn [negb].
  unfold bind, catch, call, ret, raise.
  change (execute (recording wh) stmt (w, log))
    with (let (w', r) := execute wh stmt w in ((w', log ++ [Run stmt]), r)).
  destruct (execute wh stmt w) as [w1 [e|]];
    [destruct (is_databricks_error e)|]; reflexivity.
Qed.

(** The loop over statements none of which is blank. *)
Lemma execute_each_calls {W : Type} (wh : Warehouse W) (stmts : list text) :
  Forall stripped stmts ->
  forall (w : W) (log : list event),
    exists sent rest,
      snd (fst (execute_each (recording wh) stmts (w, log)))
      = log ++ map Run sent /\
      stmts = sent ++ rest /\
      match snd (execute_each (recording wh) stmts (w, log)) with
      | inl e => is_databricks_error e = false
      | inr _ => rest = []
      end.
Proof.
  induction 1 as [|stmt stmts Hs Hl IH]; intros w log.
  - exists [], []; simpl; rewrite app_nil_r; auto.
  - rewrite (execute_each_cons wh stmt stmts w log (truthy_strip_stripped stmt Hs)).
    destruct (execute wh stmt w) as [w1 [e|]];
      [destruct (is_databricks_error e) eqn:Ed|].
    + destruct (IH w1 (log ++ [Run stmt])) as (sent & rest & E1 & E2 & E3).
      exists (stmt :: sent), rest; rewrite E1, <- app_assoc.
      split; [reflexivity|]. split; [simpl; f_equal; exact E2 | exact E3].
    + exists [stmt], stmts; cbn [fst snd map]; auto.
    + destruct (IH w1 (log ++ [Run stmt])) as (sent & rest & E1 & E2 & E3).
      exists (stmt :: sent), rest; rewrite E1, <- app_assoc.
      split; [reflexivity|]. split; [simpl; f_equal; exact E2 | exact E3].
Qed.

(** With nothing but [DatabricksError] raised, the loop does not raise. *)
Lemma execute_each_returns {W : Type} (wh : Warehouse W) (stmts : list text) :
  Forall stripped stmts ->
  (forall sql w', match snd (execute wh sql w') with
                  | Some e => is_databricks_error e = true
                  | None => True
                  end) ->
  forall (w : W) (log : list event),
    snd (execute_each (recording wh) stmts (w, log)) = inr tt.
Proof.
  intros Hs Hd; induction Hs as [|stmt stmts Hs Hl IH]; intros w log;
    [reflexivity|].
  rewrite (execute_each_cons wh stmt stmts w log (truthy_strip_stripped stmt Hs)).
  specialize (Hd stmt w).
  destruct (execute wh stmt w) as [w1 [e|]]; cbn [snd] in Hd.
  - rewrite Hd; apply IH.
  - apply IH.
Qed.

Lemma executed_runs (sent : list text) : executed (map Run sent) = sent.
Proof. induction sent as [|x l IH]; simpl; [|rewrite IH]; reflexivity. Qed.

Lemma split_statements_stripped (sql_content : text) :
  Forall stripped (_split_sql_statements sql_content).
Proof.
  unfold _split_sql_statements, split_scanned.
  pose proof (scanned_ok (strip_comments sql_content)) as H.
  rewrite (finish_map _ H).
  apply Forall_map; revert H; apply Forall_impl.
  intros s Hs; destruct (terminate_ok s Hs) as (A & B & _); split; assumption.
Qed.

End WarehouseFacts.

Import WarehouseFacts.

(** X7. [_ensure_catalog_exists] sends at most four statements, always in
    this order and each only after the one before it: the check, the plain
    CREATE CATALOG, the CREATE with the managed location under
    [dbfs:/mnt/accelerated_operational_analytics/], and the plain CREATE
    again.  Whatever the warehouse answers, what was executed is a prefix of
    that list. *)
Theorem ensure_catalog_sends_at_most_four :
  forall (W : Type) (wh : Warehouse W) (catalog : text) (w : W),
    exists rest,
      [check_catalog_sql catalog; create_catalog_sql catalog;
       create_with_location catalog; create_catalog_sql catalog]
      = executed (calls (_ensure_catalog_exists (recording wh) catalog) w)
        ++ rest.
Proof.
  intros W wh catalog w; unfold calls.
  destruct (ensure_catalog_calls wh catalog w []) as (new & E & rest & H).
  rewrite E; exists rest; exact H.
Qed.

(** X8. When the check goes through and finds a row, no CREATE is sent: the
    check is the only statement executed, and the function returns unless
    closing the cursor raises something that does not say "already
    exists". *)
Theorem existing_catalog_is_not_created :
  forall (W : Type) (wh : Warehouse W) (catalog : text) (w w1 w2 w3 : W),
    cursor wh w = (w1, None) ->
    execute wh (check_catalog_sql catalog) w1 = (w2, None) ->
    fetchone wh w2 = (w3, inr true) ->
    calls (_ensure_catalog_exists (recording wh) catalog) w
    = [Open_cursor; Run (check_catalog_sql catalog); Fetch; Close_cursor]
    /\ (snd (close wh w3) = None ->
        outcome (_ensure_catalog_exists (recording wh) catalog) w = inr tt).
Proof.
  intros W wh catalog w w1 w2 w3 H1 H2 H3.
  unfold calls, outcome, _ensure_catalog_exists, catch, with_cursor, bind,
    call, ret, raise, recording.
  cbn [cursor execute fetchone close fst snd].
  rewrite H1; cbn [fst snd]; rewrite H2; cbn [fst snd]; rewrite H3.
  cbn [fst snd].
  destruct (close wh w3) as [w4 [e|]]; cbn [fst snd].
  - destruct (says_already_exists e); split; (reflexivity || discriminate).
  - split; reflexivity.
Qed.

Lemma existing_catalog_is_not_created_witness :
  let catalog := txt "main" in
  (cursor steady [] = ([], None) /\
   execute steady (check_catalog_sql catalog) [] = ([check_catalog_sql catalog], None) /\
   fetchone steady [check_catalog_sql catalog]
   = ([check_catalog_sql catalog], inr true)) /\
  calls (_ensure_catalog_exists (recording steady) catalog) []
  = [Open_cursor; Run (check_catalog_sql catalog); Fetch; Close_cursor] /\
  outcome (_ensure_catalog_exists (recording steady) catalog) [] = inr tt.
Proof.
  intros catalog.
  split; [repeat split|].
  destruct (existing_catalog_is_not_created (list text) steady catalog
              [] [] [check_catalog_sql catalog] [check_catalog_sql catalog]
              eq_refl eq_refl eq_refl) as [H1 H2].
  split; [exact H1 | exact (H2 eq_refl)].
Defined.

(** X9. [_ensure_catalog_exists] never raises an exception whose text holds
    "already exists", in any case of the letters: such an exception, from
    whichever call it comes, ends the function normally. *)
Theorem already_exists_is_not_raised :
  forall (W : Type) (wh : Warehouse W) (catalog : text) (w : W) (e : exn),
    snd (_ensure_catalog_exists wh catalog w) = inl e ->
    says_already_exists e = false.
Proof.
  intros W wh catalog w e; unfold _ensure_catalog_exists, catch at 1.
  match goal with |- context [with_cursor wh ?b w] =>
    destruct (with_cursor wh b w) as [w' [e'|[]]] end; cbn [snd].
  - destruct (says_already_exists e') eqn:E; unfold ret, raise; cbn [snd];
      [discriminate|].
    intros H; injection H as <-; exact E.
  - discriminate.
Qed.

Lemma already_exists_is_not_raised_witness :
  let e := {| is_databricks_error := false; message := txt "connection lost" |} in
  snd (_ensure_catalog_exists unreachable (txt "main") tt) = inl e /\
  says_already_exists e = false.
Proof.
  intros e.
  assert (H : snd (_ensure_catalog_exists unreachable (txt "main") tt) = inl e)
    by (vm_compute; reflexivity).
  split; [exact H|].
  exact (already_exists_is_not_raised unit unreachable (txt "main") tt e H).
Defined.

(** X10. [_ensure_schema_exists] ensures the catalog first.  When that
    raises, the exception goes on and nothing is done for the schema;
    otherwise the schema check and, at most, the CREATE SCHEMA follow, in
    this order. *)
Theorem schema_comes_after_catalog :
  forall (W : Type) (wh : Warehouse W) (catalog schema : text) (w : W),
    let before := calls (_ensure_catalog_exists (recording wh) catalog) w in
    let all := calls (_ensure_schema_exists (recording wh) catalog schema) w in
    match outcome (_ensure_catalog_exists (recording wh) catalog) w with
    | inl e =>
        all = before /\
        outcome (_ensure_schema_exists (recording wh) catalog schema) w = inl e
    | inr _ =>
        exists new rest,
          all = before ++ new /\
          [check_schema_sql catalog schema; create_schema_sql catalog schema]
          = executed new ++ rest
    end.
Proof.
  intros W wh catalog schema w before all; subst before all.
  unfold calls, outcome.
  pose proof (ensure_schema_calls wh catalog schema w []) as H.
  cbn zeta in H.
  destruct (snd (_ensure_catalog_exists (recording wh) catalog (w, []))) as [e|u].
  - rewrite H; auto.
  - destruct H as (new & E & rest & H); exists new, rest; auto.
Qed.

(** X11. The statements the splitter returns are sent to the warehouse one
    by one in their order; the test for blank statements in the loop never
    holds.  What was executed is always a beginning of the list; it is the
    whole list when the cursor opens and the warehouse raises nothing but
    [DatabricksError]. *)
Theorem every_statement_is_sent :
  forall (W : Type) (wh : Warehouse W) (sql_content : text) (w : W),
    let sent := executed (calls (execute_statements (recording wh) sql_content) w) in
    (exists rest, _split_sql_statements sql_content = sent ++ rest)
    /\ (snd (cursor wh w) = None ->
        (forall sql w', match snd (execute wh sql w') with
                        | Some e => is_databricks_error e = true
                        | None => True
                        end) ->
        sent = _split_sql_statements sql_content).
Proof.
  intros W wh sql w sent; subst sent.
  unfold calls, execute_statements, catch, with_cursor, raise.
  change (cursor (recording wh) (w, []))
    with (let (w', r) := cursor wh w in ((w', [] ++ [Open_cursor]), r)).
  destruct (cursor wh w) as [w1 [e|]] eqn:Ec; cbn [fst snd].
  - split; [exists (_split_sql_statements sql); reflexivity | discriminate].
  - pose proof (split_statements_stripped sql) as Hs.
    destruct (execute_each_calls wh _ Hs w1 ([] ++ [Open_cursor]))
      as (sent & rest & E1 & E2 & E3).
    pose proof (execute_each_returns wh _ Hs) as Hr.
    destruct (execute_each (recording wh) (_split_sql_statements sql)
                (w1, [] ++ [Open_cursor])) as [[w2 log2] r] eqn:Er.
    cbn [fst snd] in E1, E3.
    change (close (recording wh) (w2, log2))
      with (let (w', r) := close wh w2 in ((w', log2 ++ [Close_cursor]), r)).
    assert (Es : executed (log2 ++ [Close_cursor]) = sent).
    { rewrite E1, !executed_app, executed_runs; simpl; apply app_nil_r. }
    assert (G : executed
                  (snd (fst (let (w3, r0) :=
                               let (w3, o) :=
                                 let (w', r0) := close wh w2 in
                                 (w', log2 ++ [Close_cursor], r0) in
                               match o with
                               | Some e => (w3, inl e)
                               | None => (w3, r)
                               end in
                             match r0 with
                             | inl e => (w3, inl e)
                             | inr a => (w3, inr a)
                             end))) = sent).
    { destruct (close wh w2) as [w3 [e0|]]; [exact Es|].
      destruct r; exact Es. }
    rewrite G; split; [exists rest; exact E2|].
    intros _ Hd.
    specialize (Hr Hd w1 ([] ++ [Open_cursor])); rewrite Er in Hr.
    cbn [snd] in Hr; subst r.
    rewrite E3, app_nil_r in E2; symmetry; exact E2.
Qed.

Lemma every_statement_is_sent_witness :
  let sql_content := txt "SELECT 1; SELECT * FROM missing; SELECT 2" in
  snd (cursor picky []) = None /\
  snd (execute picky (txt "SELECT * FROM missing;") [txt "SELECT 1;"])
  = Some {| is_databricks_error := true; message := txt "TABLE_OR_VIEW_NOT_FOUND" |} /\
  executed (calls (execute_statements (recording picky) sql_content) [])
  = _split_sql_statements sql_content.
Proof.
  intros sql_content.
  split; [reflexivity|]. split; [vm_compute; reflexivity|].
  apply (proj2 (every_statement_is_sent (list text) picky sql_content []));
    [reflexivity|].
  intros sql w'; unfold picky; cbn [execute snd].
  destruct (occurs_in (txt "missing") sql); [reflexivity | exact I].
Defined.

(** ** Catalog references *)

Module ReferenceFacts.

Lemma span_app (p : ascii -> bool) (a rest : text) :
  forallb p a = true ->
  match rest with [] => True | c :: _ => p c = false end ->
  span p (a ++ rest) = (a, rest).
Proof.
  intros Ha Hr; induction a as [|c a IH]; simpl.
  - destruct rest as [|d rest]; [reflexivity|]; simpl; rewrite Hr; reflexivity.
  - simpl in Ha; apply andb_true_iff in Ha as [Hc Ha].
    rewrite Hc, (IH Ha); reflexivity.
Qed.

Lemma span_spec (p : ascii -> bool) (s : text) :
  s = fst (span p s) ++ snd (span p s) /\ forallb p (fst (span p s)) = true.
Proof.
  induction s as [|c s [E H]]; simpl; [auto|].
  destruct (p c) eqn:Ec; [|auto].
  destruct (span p s) as [a b]; simpl in *.
  rewrite Ec, H; split; [f_equal; exact E | reflexivity].
Qed.

Lemma backtick_reference_consumes : consumes backtick_reference.
Proof.
  intros s m r; unfold backtick_reference.
  destruct s as [|c s1]; [discriminate|].
  destruct (Ascii.eqb c "`"); [|discriminate].
  destruct (span_spec (fun d => negb (Ascii.eqb d "`")) s1) as [E _].
  destruct (span (fun d => negb (Ascii.eqb d "`")) s1) as [name s2].
  simpl in E.
  destruct name as [|n name]; [discriminate|].
  destruct s2 as [|q [|d r']]; try discriminate.
  destruct (Ascii.eqb q "`" && Ascii.eqb d "."); [|discriminate].
  intros H; injection H as <- <-; split; [|discriminate].
  rewrite E; simpl; rewrite <- !app_assoc; reflexivity.
Qed.

Lemma backtick_reference_at (name post : text) :
  name <> [] -> forallb (fun d => negb (Ascii.eqb d "`")) name = true ->
  backtick_reference (txt "`" ++ name ++ txt "`." ++ post)
  = Some (txt "`" ++ name ++ txt "`.", post).
Proof.
  intros Hne Hn; unfold backtick_reference.
  change (txt "`" ++ name ++ txt "`." ++ post)
    with ("`" :: (name ++ "`" :: "." :: post)).
  cbv beta iota.
  rewrite Ascii.eqb_refl, (span_app _ name ("`" :: "." :: post) Hn eq_refl).
  destruct name; [congruence|]; reflexivity.
Qed.

Lemma backtick_reference_none c (s : text) :
  Ascii.eqb c "`" = false -> backtick_reference (c :: s) = None.
Proof. intros H; unfold backtick_reference; rewrite H; reflexivity. Qed.

(** The first reference of a text. *)
Lemma first_reference (replacement pre name post : text) :
  forallb (fun d => negb (Ascii.eqb d "`")) pre = true ->
  name <> [] -> forallb (fun d => negb (Ascii.eqb d "`")) name = true ->
  replace_references replacement (pre ++ txt "`" ++ name ++ txt "`." ++ post)
  = pre ++ replacement ++ replace_references replacement post.
Proof.
  intros Hp Hne Hn; unfold replace_references.
  induction pre as [|c pre IH].
  - cbn [app].
    rewrite (sub_match backtick_reference _ backtick_reference_consumes _
               (txt "`" ++ name ++ txt "`.") post); [reflexivity|].
    apply backtick_reference_at; assumption.
  - simpl in Hp; apply andb_true_iff in Hp as [Hc Hp].
    apply negb_true_iff in Hc.
    change ((c :: pre) ++ txt "`" ++ name ++ txt "`." ++ post)
      with (c :: (pre ++ txt "`" ++ name ++ txt "`." ++ post)).
    rewrite sub_skip by (apply backtick_reference_none, Hc).
    rewrite (IH Hp); reflexivity.
Qed.

End ReferenceFacts.

Import ReferenceFacts.

(** X12. Line 171 puts the catalog in the place of every name between
    backticks that is followed by a dot, whatever the name stands for: in a
    reference of the form catalog, schema, table with catalog and schema
    both between backticks, the schema becomes the catalog too. *)
Theorem every_quoted_name_becomes_the_catalog :
  forall catalog pre name post : text,
    ~ In "\" catalog ->
    forallb (fun d => negb (Ascii.eqb d "`")) pre = true ->
    name <> [] ->
    forallb (fun d => negb (Ascii.eqb d "`")) name = true ->
    replace_references (catalog_reference catalog)
      (pre ++ txt "`" ++ name ++ txt "`." ++ post)
    = pre ++ catalog_reference catalog
          ++ replace_references (catalog_reference catalog) post.
Proof.
  intros catalog pre name post _ Hp Hne Hn.
  apply first_reference; assumption.
Qed.

Lemma every_quoted_name_becomes_the_catalog_witness :
  let catalog := txt "main" in
  let pre := txt "SELECT * FROM " in
  let post := txt "`gold`.sales" in
  (~ In "\" catalog) /\
  replace_references (catalog_reference catalog)
    (pre ++ txt "`" ++ txt "dbx-prod" ++ txt "`." ++ post)
  = pre ++ catalog_reference catalog
        ++ replace_references (catalog_reference catalog) post.
Proof.
  intros catalog pre post.
  assert (Hc : ~ In "\" catalog) by (simpl; intuition discriminate).
  split; [exact Hc|].
  apply (every_quoted_name_becomes_the_catalog catalog pre (txt "dbx-prod") post
           Hc eq_refl); [discriminate | reflexivity].
Defined.

Example schema_in_backticks_replaced :
  replace_references (catalog_reference (txt "main"))
    (txt "SELECT * FROM `dbx-prod`.`gold`.sales s JOIN `dbx-prod`.silver.t")
  = txt "SELECT * FROM `main`.`main`.sales s JOIN `main`.silver.t".
Proof. vm_compute; reflexivity. Qed.

(** ** Schema names *)

Module SchemaFacts.

Section Findall.

Variable p : Re.pattern.
Hypothesis Hp : shortens p.

Lemma findall_fuel_any fuel : forall fuel' s,
  List.length s <= fuel -> List.length s <= fuel' ->
  findall_fuel fuel p s = findall_fuel fuel' p s.
Proof.
  induction fuel as [|fuel IH]; intros fuel' s L L'.
  - destruct s; [|simpl in L; lia].
    destruct fuel'; simpl; [reflexivity|].
    destruct (p []) as [[g r]|] eqn:E; [|reflexivity].
    apply Hp in E; simpl in E; lia.
  - destruct fuel' as [|fuel'].
    + destruct s; [|simpl in L'; lia]. simpl.
      destruct (p []) as [[g r]|] eqn:E; [|reflexivity].
      apply Hp in E; simpl in E; lia.
    + simpl. destruct (p s) as [[g r]|] eqn:E.
      * pose proof (Hp s g r E). f_equal; apply IH; lia.
      * destruct s as [|c s]; [reflexivity|].
        simpl in L, L'; apply IH; lia.
Qed.

Lemma findall_match s g r :
  p s = Some (g, r) -> findall p s = g :: findall p r.
Proof.
  intros E; unfold findall.
  pose proof (Hp s g r E) as L.
  destruct (List.length s) as [|n] eqn:En; [lia|].
  simpl; rewrite E; f_equal.
  apply findall_fuel_any; lia.
Qed.

Lemma findall_skip c s : p (c :: s) = None -> findall p (c :: s) = findall p s.
Proof. intros E; unfold findall; simpl; rewrite E; reflexivity. Qed.

End Findall.

(** Whatever is found is the group of a match somewhere. *)
Lemma findall_fuel_found (p : Re.pattern) fuel : forall s g,
  In g (findall_fuel fuel p s) -> exists t r, p t = Some (g, r).
Proof.
  induction fuel as [|fuel IH]; intros s g H; simpl in H; [contradiction|].
  destruct (p s) as [[g' r]|] eqn:E.
  - destruct H as [<-|H]; [eauto | exact (IH _ _ H)].
  - destruct s; [contradiction | exact (IH _ _ H)].
Qed.

Lemma quoted_word_word (s w r : text) :
  quoted_word s = Some (w, r) -> w <> [] /\ forallb is_word w = true.
Proof.
  unfold quoted_word.
  destruct (span_spec is_word (skip_backtick s)) as [_ H].
  destruct (span is_word (skip_backtick s)) as [word rest]; simpl in H.
  destruct word; [discriminate|].
  intros E; injection E as <- _; split; [discriminate | exact H].
Qed.

Lemma qualified_reference_word (catalog s w r : text) :
  qualified_reference catalog s = Some (w, r) ->
  w <> [] /\ forallb is_word w = true.
Proof.
  unfold qualified_reference.
  destruct s as [|c s1]; [discriminate|].
  destruct (Ascii.eqb c "`" && prefix_ignoring_case catalog s1); [|discriminate].
  destruct (skipn (List.length catalog) s1) as [|q [|d s2]]; try discriminate.
  destruct (Ascii.eqb q "`" && Ascii.eqb d "."); [|discriminate].
  apply quoted_word_word.
Qed.

Lemma unqualified_reference_word (s w r : text) :
  unqualified_reference s = Some (w, r) ->
  w <> [] /\ forallb is_word w = true.
Proof.
  unfold unqualified_reference.
  destruct (quoted_word s) as [[word [|d rest]]|] eqn:E; try discriminate.
  destruct (Ascii.eqb d "."); [|discriminate].
  intros H; injection H as <- _; exact (quoted_word_word s word _ E).
Qed.

(** No character of the class is a quote, a dot, a semicolon or white
    space. *)
Lemma word_is_no_separator (c : ascii) :
  is_word c = true -> is_separator c = false.
Proof.
  destruct c as [[] [] [] [] [] [] [] []]; intros H;
    vm_compute in H |- *; congruence.
Qed.

Lemma words_hold_no_separator (w : text) :
  forallb is_word w = true -> existsb is_separator w = false.
Proof.
  induction w as [|c w IH]; simpl; [reflexivity|].
  intros H; apply andb_true_iff in H as [Hc H].
  rewrite (word_is_no_separator c Hc), (IH H); reflexivity.
Qed.

End SchemaFacts.

Import SchemaFacts.

(** X13. Every name [_extract_schemas_from_sql] returns is non-empty and
    holds no backtick, no apostrophe, no double quote, no dot, no semicolon
    and no white space: nothing that would end the identifier or the
    literal [_ensure_schema_exists] writes the name into. *)
Theorem extracted_schemas_hold_no_separator :
  forall sql_content catalog : text,
    Forall (fun name => name <> [] /\ existsb is_separator name = false)
           (_extract_schemas_from_sql sql_content catalog).
Proof.
  intros sql catalog; unfold _extract_schemas_from_sql.
  apply Forall_app; split; apply Forall_forall; intros g H.
  - apply findall_fuel_found in H as (t & r & E).
    destruct (qualified_reference_word catalog t g r E) as [A B].
    split; [exact A | apply words_hold_no_separator, B].
  - apply filter_In in H as [H _].
    apply findall_fuel_found in H as (t & r & E).
    destruct (unqualified_reference_word t g r E) as [A B].
    split; [exact A | apply words_hold_no_separator, B].
Qed.

Module BarrierFacts.

Lemma span_before (p : ascii -> bool) (u x : text) :
  match x with [] => True | c :: _ => p c = false end ->
  span p (u ++ x) = (fst (span p u), snd (span p u) ++ x).
Proof.
  intros Hx; induction u as [|c u IH]; simpl.
  - destruct x as [|d x]; [reflexivity|]; simpl; rewrite Hx; reflexivity.
  - destruct (p c); [|reflexivity].
    rewrite IH; destruct (span p u); reflexivity.
Qed.

Lemma span_length (p : ascii -> bool) (s : text) :
  List.length (fst (span p s)) + List.length (snd (span p s)) = List.length s.
Proof.
  destruct (span_spec p s) as [E _].
  rewrite E at 3; rewrite length_app; reflexivity.
Qed.

Lemma skip_backtick_length (s : text) :
  List.length (skip_backtick s) <= List.length s.
Proof.
  destruct s as [|c s]; simpl; [lia|].
  destruct (Ascii.eqb c "`"); simpl; lia.
Qed.

Lemma quoted_word_shorter (s w r : text) :
  quoted_word s = Some (w, r) -> List.length r < List.length s.
Proof.
  unfold quoted_word.
  pose proof (span_length is_word (skip_backtick s)) as L.
  pose proof (skip_backtick_length s) as L1.
  destruct (span is_word (skip_backtick s)) as [word rest]; simpl in L.
  destruct word; [discriminate|].
  intros E; injection E as _ <-.
  pose proof (skip_backtick_length rest); simpl in L; lia.
Qed.

Lemma unqualified_shortens : shortens unqualified_reference.
Proof.
  intros s g r; unfold unqualified_reference.
  destruct (quoted_word s) as [[word [|d rest]]|] eqn:E; try discriminate.
  destruct (Ascii.eqb d "."); [|discriminate].
  intros H; injection H as _ <-.
  apply quoted_word_shorter in E; simpl in E; lia.
Qed.

Lemma word_not_backtick (c : ascii) : is_word c = true -> Ascii.eqb c "`" = false.
Proof.
  intros H; destruct (Ascii.eqb c "`") eqn:E; [|reflexivity].
  apply Ascii.eqb_eq in E; subst c; discriminate.
Qed.

Lemma word_not_dot (c : ascii) : is_word c = true -> Ascii.eqb c "." = false.
Proof.
  intros H; destruct (Ascii.eqb c ".") eqn:E; [|reflexivity].
  apply Ascii.eqb_eq in E; subst c; discriminate.
Qed.

Section Barrier.

Variables w post : text.
Hypothesis Hne : w <> [].
Hypothesis Hw : forallb is_word w = true.

(** A name between backticks and the dot after it. *)
Let X : text := txt "`" ++ w ++ txt "`." ++ post.

Lemma reference_found : unqualified_reference X = Some (w, post).
Proof.
  unfold unqualified_reference, quoted_word, X.
  change (skip_backtick (txt "`" ++ w ++ txt "`." ++ post))
    with (w ++ "`" :: "." :: post).
  rewrite (span_app is_word w ("`" :: "." :: post) Hw eq_refl).
  destruct w; [congruence | reflexivity].
Qed.

(** A match that starts before the name ends before it. *)
Lemma match_ends_before (pre g r : text) :
  pre <> [] ->
  unqualified_reference (pre ++ X) = Some (g, r) ->
  exists r', r = r' ++ X /\ List.length r' < List.length pre.
Proof.
  intros Hpre; unfold unqualified_reference, quoted_word.
  assert (Hu : exists u0, skip_backtick (pre ++ X) = u0 ++ X /\
                          List.length u0 <= List.length pre).
  { destruct pre as [|c pre']; [congruence|]; simpl.
    destruct (Ascii.eqb c "`");
      [exists pre' | exists (c :: pre')]; split; simpl; auto. }
  destruct Hu as (u0 & -> & Lu).
  rewrite (span_before is_word u0 X eq_refl).
  pose proof (span_length is_word u0) as L.
  destruct (span is_word u0) as [a b]; cbn [fst snd] in *.
  destruct a as [|a0 a]; [discriminate|].
  simpl in L.
  destruct b as [|d0 b'].
  - (* the word reaches the backtick of the name *)
    change (skip_backtick ([] ++ X)) with (w ++ "`" :: "." :: post).
    destruct w as [|w0 w']; [congruence|].
    simpl in Hw; apply andb_true_iff in Hw as [Hw0 _].
    cbn [app]; rewrite (word_not_dot w0 Hw0); discriminate.
  - cbn [app skip_backtick].
    destruct (Ascii.eqb d0 "`").
    + destruct b' as [|d1 b''].
      * cbn [app]; unfold X; cbn [app txt list_ascii_of_string].
        change (Ascii.eqb "`" ".") with false; discriminate.
      * cbn [app]; destruct (Ascii.eqb d1 "."); [|discriminate].
        intros E; injection E as _ <-.
        exists b''; split; [reflexivity | simpl in L; lia].
    + destruct (Ascii.eqb d0 "."); [|discriminate].
      intros E; injection E as _ <-.
      exists b'; split; [reflexivity | simpl in L; lia].
Qed.

(** So the scan reaches the name, whatever stands before it. *)
Lemma findall_reaches n : forall pre,
  List.length pre <= n ->
  exists l, findall unqualified_reference (pre ++ X)
            = l ++ findall unqualified_reference X.
Proof.
  induction n as [|n IH]; intros pre L.
  - destruct pre; [exists []; reflexivity | simpl in L; lia].
  - destruct pre as [|c pre']; [exists []; reflexivity|].
    destruct (unqualified_reference ((c :: pre') ++ X)) as [[g r]|] eqn:E.
    + destruct (match_ends_before (c :: pre') g r ltac:(discriminate) E)
        as (r' & -> & Lr).
      rewrite (findall_match _ unqualified_shortens _ g _ E).
      destruct (IH r' ltac:(simpl in *; lia)) as (l & ->).
      exists (g :: l); reflexivity.
    + change ((c :: pre') ++ X) with (c :: (pre' ++ X)) in *.
      rewrite (findall_skip _ c _ E).
      apply IH; simpl in L; lia.
Qed.

Lemma name_is_found (pre : text) :
  In w (findall unqualified_reference (pre ++ X)).
Proof.
  destruct (findall_reaches (List.length pre) pre (le_n _)) as (l & ->).
  apply in_or_app; right.
  rewrite (findall_match _ unqualified_shortens _ w post reference_found).
  left; reflexivity.
Qed.

End Barrier.

End BarrierFacts.

Import BarrierFacts.

(** X14. A name between backticks that is followed by a dot is reported as
    a schema, wherever it stands, unless it is one of the eleven keywords.
    The catalog is written that way in front of every qualified name, so
    the catalog itself is among the schemas the function returns. *)
Theorem catalog_is_reported_as_schema :
  forall catalog pre post : text,
    catalog <> [] ->
    forallb is_word catalog = true ->
    not_keyword catalog = true ->
    In catalog
       (_extract_schemas_from_sql (pre ++ catalog_reference catalog ++ post)
                                  catalog).
Proof.
  intros catalog pre post Hne Hw Hk; unfold _extract_schemas_from_sql.
  apply in_or_app; right; apply filter_In; split; [|exact Hk].
  unfold catalog_reference; rewrite <- !app_assoc.
  apply name_is_found; assumption.
Qed.

Lemma catalog_is_reported_as_schema_witness :
  let catalog := txt "main" in
  let pre := txt "CREATE TABLE " in
  let post := txt "gold.sales (id INT);" in
  (catalog <> [] /\ forallb is_word catalog = true /\
   not_keyword catalog = true) /\
  In catalog (_extract_schemas_from_sql
                (pre ++ catalog_reference catalog ++ post) catalog).
Proof.
  intros catalog pre post.
  split; [split; [discriminate | split; reflexivity]|].
  apply (catalog_is_reported_as_schema catalog pre post);
    [discriminate | reflexivity | reflexivity].
Defined.

Module DottedFacts.

Lemma span_before_rest (p : ascii -> bool) (u x : text) :
  snd (span p u) <> [] ->
  span p (u ++ x) = (fst (span p u), snd (span p u) ++ x).
Proof.
  induction u as [|c u IH]; simpl; [congruence|].
  destruct (p c); [|reflexivity].
  destruct (span p u) as [a b]; simpl in *.
  intros H; rewrite (IH H); reflexivity.
Qed.

Lemma ends_apart_cons c (s : text) :
  s <> [] -> ends_apart (c :: s) = ends_apart s.
Proof.
  intros H; unfold ends_apart; simpl.
  destruct (rev s) eqn:E; [|reflexivity].
  apply (f_equal (@rev ascii)) in E; rewrite rev_involutive in E.
  simpl in E; congruence.
Qed.

Lemma ends_apart_suffix (a b : text) :
  b <> [] -> ends_apart (a ++ b) = ends_apart b.
Proof.
  intros H; induction a as [|c a IH]; [reflexivity|].
  simpl; rewrite ends_apart_cons; [exact IH|].
  destruct a; simpl; [exact H | discriminate].
Qed.

Lemma ends_apart_words (s : text) :
  s <> [] -> ends_apart s = true -> forallb is_word s = false.
Proof.
  intros Hne H; destruct (forallb is_word s) eqn:E; [|reflexivity].
  unfold ends_apart in H; destruct (rev s) as [|z t] eqn:Er.
  - apply (f_equal (@rev ascii)) in Er; rewrite rev_involutive in Er.
    simpl in Er; congruence.
  - rewrite forallb_forall in E.
    assert (Hz : In z s) by (apply in_rev; rewrite Er; left; reflexivity).
    rewrite (E z Hz) in H; discriminate.
Qed.

Lemma ends_apart_not_backtick : ends_apart ["`"] = false.
Proof. reflexivity. Qed.

Section Dotted.

Variables w post : text.
Hypothesis Hne : w <> [].
Hypothesis Hw : forallb is_word w = true.

(** A name and the dot after it. *)
Let X : text := w ++ txt "." ++ post.

Lemma dotted_found : unqualified_reference X = Some (w, post).
Proof.
  unfold unqualified_reference, quoted_word, X.
  assert (E : skip_backtick (w ++ txt "." ++ post) = w ++ "." :: post).
  { destruct w as [|w0 w']; [congruence|].
    simpl in Hw; apply andb_true_iff in Hw as [Hw0 _].
    simpl; rewrite (word_not_backtick w0 Hw0); reflexivity. }
  rewrite E, (span_app is_word w ("." :: post) Hw eq_refl).
  destruct w; [congruence | reflexivity].
Qed.

Lemma dotted_match_ends_before (pre g r : text) :
  pre <> [] -> ends_apart pre = true ->
  unqualified_reference (pre ++ X) = Some (g, r) ->
  exists r', r = r' ++ X /\ List.length r' < List.length pre /\
             ends_apart r' = true.
Proof.
  intros Hpre Ha; unfold unqualified_reference, quoted_word.
  assert (Hu : exists u0, skip_backtick (pre ++ X) = u0 ++ X /\
                          List.length u0 <= List.length pre /\
                          u0 <> [] /\ ends_apart u0 = true).
  { destruct pre as [|c pre']; [congruence|]; simpl.
    destruct (Ascii.eqb c "`") eqn:Ec.
    - apply Ascii.eqb_eq in Ec; subst c.
      destruct pre' as [|d pre''].
      + rewrite ends_apart_not_backtick in Ha; discriminate.
      + exists (d :: pre''); repeat split; simpl; auto; [discriminate|].
        rewrite ends_apart_cons in Ha by discriminate; exact Ha.
    - exists (c :: pre'); repeat split; simpl; auto; discriminate. }
  destruct Hu as (u0 & -> & Lu & Hu0 & Hau).
  pose proof (span_spec is_word u0) as [Es Hs].
  pose proof (span_length is_word u0) as L.
  assert (Hb : snd (span is_word u0) <> []).
  { intros Eb; rewrite Eb, app_nil_r in Es.
    rewrite <- Es in Hs.
    rewrite (ends_apart_words u0 Hu0 Hau) in Hs; discriminate. }
  rewrite (span_before_rest is_word u0 X Hb).
  destruct (span is_word u0) as [a b]; cbn [fst snd] in *.
  destruct a as [|a0 a]; [discriminate|].
  destruct b as [|d0 b']; [congruence|].
  assert (Hab : ends_apart (d0 :: b') = true).
  { rewrite Es, ends_apart_suffix in Hau by discriminate; exact Hau. }
  cbn [app skip_backtick].
  destruct (Ascii.eqb d0 "`") eqn:Ed.
  - apply Ascii.eqb_eq in Ed; subst d0.
    destruct b' as [|d1 b''];
      [rewrite ends_apart_not_backtick in Hab; discriminate|].
    cbn [app]; destruct (Ascii.eqb d1 "."); [|discriminate].
    intros E; injection E as _ <-.
    exists b''; split; [reflexivity|]. split; [simpl in L; lia|].
    destruct b'' as [|d2 b''']; [reflexivity|].
    rewrite !ends_apart_cons in Hab by discriminate; exact Hab.
  - destruct (Ascii.eqb d0 "."); [|discriminate].
    intros E; injection E as _ <-.
    exists b'; split; [reflexivity|]. split; [simpl in L; lia|].
    destruct b' as [|d1 b'']; [reflexivity|].
    rewrite ends_apart_cons in Hab by discriminate; exact Hab.
Qed.

Lemma dotted_reaches n : forall pre,
  List.length pre <= n -> ends_apart pre = true ->
  exists l, findall unqualified_reference (pre ++ X)
            = l ++ findall unqualified_reference X.
Proof.
  induction n as [|n IH]; intros pre L Ha.
  - destruct pre; [exists []; reflexivity | simpl in L; lia].
  - destruct pre as [|c pre']; [exists []; reflexivity|].
    destruct (unqualified_reference ((c :: pre') ++ X)) as [[g r]|] eqn:E.
    + destruct (dotted_match_ends_before (c :: pre') g r ltac:(discriminate) Ha E)
        as (r' & -> & Lr & Har).
      rewrite (findall_match _ unqualified_shortens _ g _ E).
      destruct (IH r' ltac:(simpl in *; lia) Har) as (l & ->).
      exists (g :: l); reflexivity.
    + change ((c :: pre') ++ X) with (c :: (pre' ++ X)) in *.
      rewrite (findall_skip _ c _ E).
      apply IH; [simpl in L; lia|].
      destruct pre' as [|d pre'']; [reflexivity|].
      rewrite ends_apart_cons in Ha by discriminate; exact Ha.
Qed.

Lemma dotted_is_found (pre : text) :
  ends_apart pre = true ->
  In w (findall unqualified_reference (pre ++ X)).
Proof.
  intros Ha.
  destruct (dotted_reaches (List.length pre) pre (le_n _) Ha) as (l & ->).
  apply in_or_app; right.
  rewrite (findall_match _ unqualified_shortens _ w post dotted_found).
  left; reflexivity.
Qed.

End Dotted.

End DottedFacts.

Import DottedFacts.

(** X15. Whatever word stands before a dot is taken for a schema: a table
    alias, a table name or a number as well.  Where the word starts the
    text or follows a character that is no word character and no backtick,
    and is none of the eleven keywords, it is among the names returned. *)
Theorem every_dotted_word_is_reported :
  forall sql_content catalog pre word post : text,
    sql_content = pre ++ word ++ txt "." ++ post ->
    ends_apart pre = true ->
    word <> [] ->
    forallb is_word word = true ->
    not_keyword word = true ->
    In word (_extract_schemas_from_sql sql_content catalog).
Proof.
  intros sql catalog pre word post -> Ha Hne Hw Hk.
  unfold _extract_schemas_from_sql.
  apply in_or_app; right; apply filter_In; split; [|exact Hk].
  apply dotted_is_found; assumption.
Qed.

Lemma every_dotted_word_is_reported_witness :
  let sql_content := txt "SELECT s.amount FROM `main`.gold.sales s" in
  let pre := txt "SELECT " in
  let post := txt "amount FROM `main`.gold.sales s" in
  (sql_content = pre ++ txt "s" ++ txt "." ++ post /\
   ends_apart pre = true /\ not_keyword (txt "s") = true) /\
  In (txt "s") (_extract_schemas_from_sql sql_content (txt "main")).
Proof.
  intros sql_content pre post.
  split; [split; [reflexivity | split; reflexivity]|].
  apply (every_dotted_word_is_reported sql_content (txt "main") pre (txt "s") post);
    [reflexivity | reflexivity | discriminate | reflexivity | reflexivity].
Defined.

(** ** The loop over the schemas *)

Module LoopFacts.

Lemma executed_In (sql : text) (log : list event) :
  In (Run sql) log -> In sql (executed log).
Proof.
  induction log as [|[| s | |] log IH]; simpl; intros H;
    try (destruct H as [H|H]; [discriminate H | exact (IH H)]);
    [destruct H|].
  destruct H as [H|H]; [left; congruence | right; exact (IH H)].
Qed.

(** The calls of [_ensure_schema_exists] come after the calls made before,
    and when it returns the check of the schema is among them. *)
Lemma ensure_schema_checked {W : Type} (wh : Warehouse W)
      (catalog schema : text) (w : W) (log : list event) :
  exists new,
    snd (fst (_ensure_schema_exists (recording wh) catalog schema (w, log)))
    = log ++ new /\
    (snd (_ensure_schema_exists (recording wh) catalog schema (w, log)) = inr tt ->
     In (Run (check_schema_sql catalog schema)) new).
Proof.
  destruct (ensure_catalog_calls wh catalog w log) as (new1 & E1 & _).
  unfold _ensure_schema_exists.
  match goal with
  | |- context [bind ?m ?k (w, log)] =>
      change (bind m k (w, log))
        with (match m (w, log) with
              | (w', inl e) => (w', inl e)
              | (w', inr a) => k a w'
              end)
  end.
  destruct (_ensure_catalog_exists (recording wh) catalog (w, log))
    as [[w1 log1] [e|[]]]; cbn [fst snd] in E1 |- *; subst log1.
  - exists new1; split; [reflexivity | intros H; discriminate H].
  - unfold catch, with_cursor, bind, call, ret, raise, recording.
    cbn [cursor execute fetchone close fst snd].
    answer wh;
      rewrite <- ?app_assoc;
      (eexists; split; [reflexivity|]);
      intros H; try discriminate H;
      apply in_or_app; right; cbn [app In]; auto.
Qed.

Lemma ensure_schemas_cons {W : Type} (wh : Warehouse W) (catalog schema : text)
      (order : list text) (s : W) :
  ensure_schemas wh catalog (schema :: order) s
  = match (if negb (existsb (text_eqb (lower schema)) system_schemas)
           then _ensure_schema_exists wh catalog schema
           else ret tt) s with
    | (s', inl e) => (s', inl e)
    | (s', inr _) => ensure_schemas wh catalog order s'
    end.
Proof. reflexivity. Qed.

(** When the loop returns, the check of every schema of the list that is
    no system schema is among its calls. *)
Lemma ensure_schemas_checked {W : Type} (wh : Warehouse W) (catalog : text)
      (order : list text) :
  forall (w : W) (log : list event),
    exists new,
      snd (fst (ensure_schemas (recording wh) catalog order (w, log)))
      = log ++ new /\
      (snd (ensure_schemas (recording wh) catalog order (w, log)) = inr tt ->
       forall schema,
         In schema order ->
         existsb (text_eqb (lower schema)) system_schemas = false ->
         In (Run (check_schema_sql catalog schema)) new).
Proof.
  induction order as [|x order IH]; intros w log.
  - exists []; rewrite app_nil_r; split; [reflexivity|].
    intros _ schema [].
  - rewrite ensure_schemas_cons.
    destruct (existsb (text_eqb (lower x)) system_schemas) eqn:Ex; cbn [negb].
    + unfold ret.
      destruct (IH w log) as (new & E & K).
      exists new; split; [exact E|].
      intros H schema [->|Hin] Hs; [congruence | exact (K H schema Hin Hs)].
    + destruct (ensure_schema_checked wh catalog x w log) as (new1 & E1 & K1).
      destruct (_ensure_schema_exists (recording wh) catalog x (w, log))
        as [[w1 log1] [e|[]]]; cbn [fst snd] in E1, K1 |- *; subst log1.
      * exists new1; split; [reflexivity | intros H; discriminate H].
      * destruct (IH w1 (log ++ new1)) as (new & E & K).
        exists (new1 ++ new); rewrite app_assoc; split; [exact E|].
        intros H schema [->|Hin] Hs; apply in_or_app;
          [left; exact (K1 eq_refl) | right; exact (K H schema Hin Hs)].
Qed.

(** The name of the catalog is among the names read back from the text of
    a file in which a name between backticks is followed by a dot. *)
Lemma catalog_among_schemas (catalog sql_content pre name post : text) :
  replace_placeholder catalog sql_content
  = pre ++ txt "`" ++ name ++ txt "`." ++ post ->
  forallb (fun d => negb (Ascii.eqb d "`")) pre = true ->
  name <> [] ->
  forallb (fun d => negb (Ascii.eqb d "`")) name = true ->
  catalog <> [] ->
  forallb is_word catalog = true ->
  not_keyword catalog = true ->
  In catalog (_extract_schemas_from_sql (prepare catalog sql_content) catalog).
Proof.
  intros E Hp Hne Hn Hc Hw Hk.
  unfold prepare.
  rewrite E, (first_reference _ pre name post Hp Hne Hn).
  unfold _extract_schemas_from_sql.
  apply in_or_app; right; apply filter_In; split; [|exact Hk].
  unfold catalog_reference; rewrite <- !app_assoc.
  apply name_is_found; assumption.
Qed.

End LoopFacts.

Import LoopFacts.

(** X16. A file in which a name between backticks is followed by a dot
    makes the loop of lines 175-177, when it ends without raising, ensure a
    schema that bears the name of the catalog: line 171 writes the catalog
    in the place of that name, line 174 reads it back as a schema, the test
    of line 176 lets it through unless it is [information_schema] or
    [system], and [_ensure_schema_exists] sends its check to the warehouse.
    This holds for every warehouse and every order in which the set of
    schemas is iterated. *)
Theorem catalog_is_ensured_as_schema :
  forall (W : Type) (wh : Warehouse W) (w : W)
         (catalog sql_content pre name post : text) (order : list text),
    ~ In "\" catalog ->
    replace_placeholder catalog sql_content
    = pre ++ txt "`" ++ name ++ txt "`." ++ post ->
    forallb (fun d => negb (Ascii.eqb d "`")) pre = true ->
    name <> [] ->
    forallb (fun d => negb (Ascii.eqb d "`")) name = true ->
    catalog <> [] ->
    forallb is_word catalog = true ->
    not_keyword catalog = true ->
    existsb (text_eqb (lower catalog)) system_schemas = false ->
    enumerates order
      (_extract_schemas_from_sql (prepare catalog sql_content) catalog) ->
    outcome (ensure_schemas (recording wh) catalog order) w = inr tt ->
    In (check_schema_sql catalog catalog)
       (executed (calls (ensure_schemas (recording wh) catalog order) w)).
Proof.
  intros W wh w catalog sql pre name post order _ E Hp Hne Hn Hc Hw Hk Hs
         [_ Ho] Hr.
  unfold outcome in Hr; unfold calls.
  destruct (ensure_schemas_checked wh catalog order w []) as (new & En & K).
  rewrite En; cbn [app].
  apply executed_In, (K Hr catalog); [|exact Hs].
  apply Ho, (catalog_among_schemas catalog sql pre name post); assumption.
Qed.

Lemma catalog_is_ensured_as_schema_witness :
  let catalog := txt "main" in
  let sql_content := txt "CREATE TABLE `${catalog}`.gold.sales (id INT);" in
  let order := [txt "gold"; txt "main"] in
  replace_placeholder catalog sql_content
  = txt "CREATE TABLE " ++ txt "`" ++ txt "main" ++ txt "`."
    ++ txt "gold.sales (id INT);" /\
  enumerates order
    (_extract_schemas_from_sql (prepare catalog sql_content) catalog) /\
  outcome (ensure_schemas (recording steady) catalog order) [] = inr tt /\
  In (check_schema_sql catalog catalog)
     (executed (calls (ensure_schemas (recording steady) catalog order) [])).
Proof.
  intros catalog sql_content order.
  assert (E : replace_placeholder catalog sql_content
              = txt "CREATE TABLE " ++ txt "`" ++ txt "main" ++ txt "`."
                ++ txt "gold.sales (id INT);") by (vm_compute; reflexivity).
  assert (En : enumerates order
                 (_extract_schemas_from_sql (prepare catalog sql_content)
                                            catalog)).
  { split.
    - repeat constructor; simpl; intuition discriminate.
    - intros x; vm_compute; tauto. }
  assert (Hr : outcome (ensure_schemas (recording steady) catalog order) []
               = inr tt) by (vm_compute; reflexivity).
  split; [exact E|]. split; [exact En|]. split; [exact Hr|].
  apply (catalog_is_ensured_as_schema (list text) steady [] catalog sql_content
           (txt "CREATE TABLE ") (txt "main") (txt "gold.sales (id INT);")
           order);
    [simpl; intuition discriminate | exact E | reflexivity | discriminate
    | reflexivity | discriminate | reflexivity | reflexivity | reflexivity
    | exact En | exact Hr].
Defined.
